(** * CHESS instrumentation aggregator: a shallow embedding of
    [src/instrumentation/instrumentor.py] and the properties of its
    session store and coverage engine.

    Conventions of the embedding.
    - Python floats (clock readings, durations, percentages) are idealised
      as exact rationals [Q]; Python's [==] on numbers is [Qeq].  The
      [float('inf')] sentinel is a separate constructor.  The percentage
      of [_calculate_timeline_coverage], which depends on how each
      operation rounds, is modelled a second time on IEEE binary64
      numbers (module [Binary64]).
    - Python dicts keyed by strings are [gmap string _]; the append-only
      log is a [list].
    - Methods live in a reader/state/exception monad: the reader holds the
      clock ([time.time]) and the float formatter used by f-strings, the
      state holds the instrumentor's attributes, the number of clock
      readings taken so far and the trace of lock and attribute events. *)

From Stdlib Require Import QArith Qround Qminmax Lqa Permutation Sorted.
From Stdlib Require Floats.
From stdpp Require Import gmap strings list fin_maps pretty.

Local Open Scope string_scope.
Local Open Scope list_scope.
Local Open Scope nat_scope.

(** ** Numbers *)

(** A Python number that may be the [float('inf')] sentinel. *)
Inductive pynum : Type :=
| Num (q : Q)
| Inf.

(** Python's [x < y] on floats. *)
Definition Qlt_bool (x y : Q) : bool := negb (Qle_bool y x).

(** Python truthiness of a float: [0.0] is falsy. *)
Definition truthy (x : Q) : bool := negb (Qeq_bool x 0).

(** Python's [min(a, b)] with [a] possibly infinite: [b] is returned only
    when [b < a]. *)
Definition py_min (a : pynum) (b : Q) : pynum :=
  match a with
  | Inf => Num b
  | Num m => Num (Qmin m b)
  end.

(** Round-half-to-even to the nearest integer. *)
Definition round_half_even (x : Q) : Z :=
  let f := Qfloor x in
  match Qcompare (x - inject_Z f) (1 # 2) with
  | Lt => f
  | Gt => (f + 1)%Z
  | Eq => if Z.even f then f else (f + 1)%Z
  end.

(** Python's [round(x, ndigits)] on a float. *)
Definition py_round (x : Q) (ndigits : nat) : Q :=
  Qmake (round_half_even (x * inject_Z (10 ^ Z.of_nat ndigits)))
        (Z.to_pos (10 ^ Z.of_nat ndigits)).

(** [round] leaves [inf] alone. *)
Definition py_round_num (x : pynum) (ndigits : nat) : pynum :=
  match x with
  | Num q => Num (py_round q ndigits)
  | Inf => Inf
  end.

(** ** Sorting and interval merging *)

(** Python compares tuples lexicographically: the first component that is
    not [==] decides. *)
Definition tuple_lt (a b : Q * Q) : bool :=
  if negb (Qeq_bool (fst a) (fst b)) then Qlt_bool (fst a) (fst b)
  else if negb (Qeq_bool (snd a) (snd b)) then Qlt_bool (snd a) (snd b)
  else false.

(** [list.sort] is a stable sort that only uses [<]; insertion from the
    right gives the same list. *)
Fixpoint insert_by {A} (lt : A → A → bool) (x : A) (l : list A) : list A :=
  match l with
  | [] => [x]
  | y :: l' => if lt y x then y :: insert_by lt x l' else x :: y :: l'
  end.

Fixpoint py_sort {A} (lt : A → A → bool) (l : list A) : list A :=
  match l with
  | [] => []
  | x :: l' => insert_by lt x (py_sort lt l')
  end.

(** One iteration of the sweep of [_calculate_timeline_coverage]:
    [merged[-1] = (merged[-1][0], max(merged[-1][1], end))] when
    [merged and start <= merged[-1][1]], else [merged.append((start, end))]. *)
Definition merge_step (merged : list (Q * Q)) (iv : Q * Q) : list (Q * Q) :=
  let '(start, end_) := iv in
  match last merged with
  | Some (mstart, mend) =>
      if Qle_bool start mend
      then <[pred (length merged) := (mstart, Qmax mend end_)]> merged
      else merged ++ [(start, end_)]
  | None => merged ++ [(start, end_)]
  end.

Definition merge_intervals (intervals : list (Q * Q)) : list (Q * Q) :=
  fold_left merge_step intervals [].

(** [sum(end - start for start, end in merged)]: Python's [sum] starts
    from [0] and adds from the left. *)
Definition sum_lengths (merged : list (Q * Q)) : Q :=
  fold_left (λ acc iv, acc + (snd iv - fst iv))%Q merged 0%Q.

(** ** Data model *)

(** The fixed category set, in the order of the source's set display. *)
Definition CATEGORIES : list string :=
  [ "database_calls"; "llm_calls"; "schema_operations";
    "vector_db_operations"; "embedding_operations"; "minhash_lsh_operations" ].

(** Metadata is an opaque string-keyed dict. *)
Abbreviation Metadata := (gmap string string).

(** An entry of [active_operations]. *)
Record ActiveOp : Type := mkActiveOp {
  a_category : string;
  a_operation_name : string;
  a_start_time : Q;
  a_metadata : Metadata
}.

(** A record of the completed log [operations]. *)
Record OpRecord : Type := mkOpRecord {
  category : string;
  operation_name : string;
  op_start_time : Q;
  op_end_time : Q;
  duration : Q;
  relative_start : Q;
  relative_end : Q;
  metadata : Metadata
}.

(** The running totals of one category. *)
Record Agg : Type := mkAgg {
  total_time : Q;
  count : nat;
  min_time : pynum;
  max_time : Q
}.

(** The attributes of the [Instrumentor] instance. *)
Record Instrumentor : Type := mkInstrumentor {
  operations : list OpRecord;
  active_operations : gmap string ActiveOp;
  aggregates : gmap string Agg;
  start_time : option Q
}.

Definition init_agg : Agg :=
  {| total_time := 0; count := 0; min_time := Inf; max_time := 0 |}.

(** [{category: {...} for category in self.CATEGORIES}] *)
Definition fresh_aggregates : gmap string Agg :=
  list_to_map ((λ c, (c, init_agg)) <$> CATEGORIES).

(** The instance as [__init__] leaves it. *)
Definition init_instrumentor : Instrumentor :=
  {| operations := []; active_operations := ∅;
     aggregates := fresh_aggregates; start_time := None |}.

(** ** The monad of the methods *)

Inductive exn : Type :=
| ValueError
| KeyError (key : string)
| ZeroDivisionError
| IndexError
| HostError.

Inductive Outcome (A : Type) : Type :=
| Ok (a : A)
| Raise (e : exn).
Arguments Ok {A} a.
Arguments Raise {A} e.

Inductive Field : Type :=
| FOperations | FActiveOperations | FAggregates | FStartTime.

Inductive Event : Type :=
| EvAcquire
| EvRelease
| EvRead (f : Field)
| EvWrite (f : Field)
| EvClock.

(** What the methods read but never change: the system clock, as the
    sequence of the readings successive [time.time()] calls return, the
    formatting of a float inside an f-string, and
    [datetime.fromtimestamp(_).isoformat()]. *)
Record Env : Type := mkEnv {
  clock : nat → Q;
  float_repr : Q → string;
  isoformat : Q → string
}.

Record World : Type := mkWorld {
  inst : Instrumentor;
  ticks : nat;
  events : list Event
}.

Definition M (A : Type) : Type := Env → World → Outcome A * World.

Definition ret {A} (a : A) : M A := λ _ w, (Ok a, w).

Definition bind {A B} (m : M A) (k : A → M B) : M B :=
  λ env w,
    match m env w with
    | (Ok a, w') => k a env w'
    | (Raise e, w') => (Raise e, w')
    end.

Notation "'let*' x ':=' m 'in' k" := (bind m (λ x, k))
  (at level 10, x name, m at level 100, k at level 200).
Notation "m ';;' k" := (bind m (λ _, k))
  (at level 100, k at level 200, right associativity).

Definition raise {A} (e : exn) : M A := λ _ w, (Raise e, w).

Definition lift {A} (o : Outcome A) : M A := λ _ w, (o, w).

Definition emit (ev : Event) : M unit :=
  λ _ w, (Ok tt, {| inst := inst w; ticks := ticks w; events := events w ++ [ev] |}).

(** [time.time()] *)
Definition time_time : M Q :=
  λ env w, (Ok (clock env (ticks w)),
            {| inst := inst w; ticks := S (ticks w); events := events w ++ [EvClock] |}).

Definition format_float (x : Q) : M string := λ env w, (Ok (float_repr env x), w).

(** [with self._lock: body]; the lock is released on every exit path. *)
Definition with_lock {A} (body : M A) : M A :=
  λ env w,
    match emit EvAcquire env w with
    | (_, w1) =>
        match body env w1 with
        | (r, w2) => (r, snd (emit EvRelease env w2))
        end
    end.

(** [try: body finally: fin] *)
Definition try_finally {A} (body : M A) (fin : M unit) : M A :=
  λ env w,
    match body env w with
    | (r, w1) =>
        match fin env w1 with
        | (Ok _, w2) => (r, w2)
        | (Raise e, w2) => (Raise e, w2)
        end
    end.

(** Attribute reads and writes of [self]. *)
Definition read_attr {A} (f : Field) (proj : Instrumentor → A) : M A :=
  λ _ w, (Ok (proj (inst w)),
          {| inst := inst w; ticks := ticks w; events := events w ++ [EvRead f] |}).

Definition write_attr (f : Field) (upd : Instrumentor → Instrumentor) : M unit :=
  λ _ w, (Ok tt,
          {| inst := upd (inst w); ticks := ticks w; events := events w ++ [EvWrite f] |}).

Definition set_operations (v : list OpRecord) : M unit :=
  write_attr FOperations (λ s,
    {| operations := v; active_operations := active_operations s;
       aggregates := aggregates s; start_time := start_time s |}).

Definition set_active_operations (v : gmap string ActiveOp) : M unit :=
  write_attr FActiveOperations (λ s,
    {| operations := operations s; active_operations := v;
       aggregates := aggregates s; start_time := start_time s |}).

Definition set_aggregates (v : gmap string Agg) : M unit :=
  write_attr FAggregates (λ s,
    {| operations := operations s; active_operations := active_operations s;
       aggregates := v; start_time := start_time s |}).

Definition set_start_time (v : option Q) : M unit :=
  write_attr FStartTime (λ s,
    {| operations := operations s; active_operations := active_operations s;
       aggregates := aggregates s; start_time := v |}).

(** Python's [/] on floats. *)
Definition py_truediv (x y : Q) : Outcome Q :=
  if Qeq_bool y 0 then Raise ZeroDivisionError else Ok (x / y)%Q.

(** ** The session store *)

Definition reset : M unit :=
  with_lock (
    set_operations [] ;;
    set_active_operations ∅ ;;
    set_aggregates fresh_aggregates ;;
    set_start_time None).

Definition start_session : M unit :=
  reset ;;
  let* t := time_time in
  set_start_time (Some t).

Definition start_operation (category operation_name : string)
    (metadata : option Metadata) : M string :=
  if decide (category ∈ CATEGORIES) then
    let* st := read_attr FStartTime start_time in
    (match st with None => start_session | Some _ => ret tt end) ;;
    let* t := time_time in
    let* ts := format_float t in
    let operation_id := category +:+ "_" +:+ operation_name +:+ "_" +:+ ts in
    with_lock (
      let* t0 := time_time in
      let* active := read_attr FActiveOperations active_operations in
      set_active_operations
        (<[operation_id :=
             {| a_category := category; a_operation_name := operation_name;
                a_start_time := t0; a_metadata := default ∅ metadata |}]> active)) ;;
    ret operation_id
  else raise ValueError.

(** [x - self.start_time if self.start_time else dflt] *)
Definition relative_to (st : option Q) (x dflt : Q) : Q :=
  match st with
  | Some t => if truthy t then (x - t)%Q else dflt
  | None => dflt
  end.

Definition end_operation (operation_id : string) : M unit :=
  let* end_time := time_time in
  with_lock (
    let* active := read_attr FActiveOperations active_operations in
    match active !! operation_id with
    | None => ret tt
    | Some op_info =>
        set_active_operations (delete operation_id active) ;;
        let start := a_start_time op_info in
        let dur := (end_time - start)%Q in
        let cat := a_category op_info in
        let* st := read_attr FStartTime start_time in
        let operation_record :=
          {| category := cat;
             operation_name := a_operation_name op_info;
             op_start_time := start;
             op_end_time := end_time;
             duration := dur;
             relative_start := relative_to st start 0;
             relative_end := relative_to st end_time dur;
             metadata := a_metadata op_info |} in
        let* ops := read_attr FOperations operations in
        set_operations (ops ++ [operation_record]) ;;
        let* aggs := read_attr FAggregates aggregates in
        match aggs !! cat with
        | None => raise (KeyError cat)
        | Some agg =>
            set_aggregates
              (<[cat := {| total_time := total_time agg + dur;
                           count := S (count agg);
                           min_time := py_min (min_time agg) dur;
                           max_time := Qmax (max_time agg) dur |}]> aggs)
        end
    end).

(** The context manager: [start_operation], the body, and [end_operation]
    in the [finally] clause. *)
Definition track_operation {A} (category operation_name : string)
    (metadata : option Metadata) (body : string → M A) : M A :=
  let* operation_id := start_operation category operation_name metadata in
  try_finally (body operation_id) (end_operation operation_id).

(** ** The coverage and summary engine *)

(** The statistics object of one category is a string-keyed dict. *)
Abbreviation Stats := (gmap string pynum).

Record Summary : Type := mkSummary {
  session_duration : Q;
  total_operations : nat;
  categories : gmap string Stats
}.

Definition category_ops (cat : string) (ops : list OpRecord) : list OpRecord :=
  filter (λ op, category op = cat) ops.

Definition category_intervals (cat : string) (ops : list OpRecord) : list (Q * Q) :=
  (λ op, (relative_start op, relative_end op)) <$> category_ops cat ops.

Definition _calculate_timeline_coverage (cat : string) (session_duration : Q) : M Q :=
  if Qle_bool session_duration 0 then ret 0%Q
  else
    let* ops := read_attr FOperations operations in
    match category_ops cat ops with
    | [] => ret 0%Q
    | _ :: _ =>
        let intervals := py_sort tuple_lt (category_intervals cat ops) in
        let merged := merge_intervals intervals in
        let total_coverage := sum_lengths merged in
        let* q := lift (py_truediv total_coverage session_duration) in
        ret (py_round (q * 100) 2)
    end.

(** The dict display both branches of [get_summary] build. *)
Definition mk_stats (total cnt avg mn mx cum tl : pynum) : Stats :=
  list_to_map
    [ ("total_time", total); ("count", cnt); ("average_time", avg);
      ("min_time", mn); ("max_time", mx);
      ("cumulative_percentage", cum); ("timeline_percentage", tl) ].

Definition nonzero_stats (total : Q) (cnt : nat) (avg : Q) (mn : pynum) (mx cum tl : Q)
  : Stats :=
  mk_stats (Num (py_round total 3)) (Num (inject_Z (Z.of_nat cnt)))
           (Num (py_round avg 3)) (py_round_num mn 3) (Num (py_round mx 3))
           (Num cum) (Num tl).

Definition zero_stats : Stats :=
  mk_stats (Num 0) (Num 0) (Num 0) (Num 0) (Num 0) (Num 0) (Num 0).

(** The body of the loop [for category in self.CATEGORIES] of
    [get_summary]. *)
Definition summary_category (sd : Q) (acc : gmap string Stats) (cat : string)
  : M (gmap string Stats) :=
  let* aggs := read_attr FAggregates aggregates in
  match aggs !! cat with
  | None => raise (KeyError cat)
  | Some agg =>
      if decide (0 < count agg) then
        let* cumulative_percentage :=
          (if Qlt_bool 0 sd
           then let* q := lift (py_truediv (total_time agg) sd) in
                ret (py_round (q * 100) 2)
           else ret 0%Q) in
        let* timeline_percentage := _calculate_timeline_coverage cat sd in
        let* avg := lift (py_truediv (total_time agg)
                                     (inject_Z (Z.of_nat (count agg)))) in
        ret (<[cat := nonzero_stats (total_time agg) (count agg) avg
                       (min_time agg) (max_time agg)
                       cumulative_percentage timeline_percentage]> acc)
      else ret (<[cat := zero_stats]> acc)
  end.

(** [for x in xs: acc = body(acc, x)] *)
Fixpoint for_each {A B} (body : B → A → M B) (xs : list A) (acc : B) : M B :=
  match xs with
  | [] => ret acc
  | x :: xs' => let* acc' := body acc x in for_each body xs' acc'
  end.

Definition get_summary : M Summary :=
  with_lock (
    let* st := read_attr FStartTime start_time in
    let* sd :=
      (match st with
       | Some t => if truthy t
                   then let* now := time_time in ret (now - t)%Q
                   else ret 0%Q
       | None => ret 0%Q
       end) in
    let* ops := read_attr FOperations operations in
    let* cats := for_each (summary_category sd) CATEGORIES ∅ in
    ret {| session_duration := sd;
           total_operations := length ops;
           categories := cats |}).

Record TimelineEntry : Type := mkTimelineEntry {
  t_category : string;
  t_operation_name : string;
  t_start : Q;
  t_end : Q;
  t_duration : Q;
  t_metadata : Metadata
}.

Definition get_timeline_data : M (list TimelineEntry) :=
  with_lock (
    let* ops := read_attr FOperations operations in
    let sorted_operations :=
      py_sort (λ a b, Qlt_bool (relative_start a) (relative_start b)) ops in
    ret ((λ op, {| t_category := category op;
                   t_operation_name := operation_name op;
                   t_start := py_round (relative_start op) 3;
                   t_end := py_round (relative_end op) 3;
                   t_duration := py_round (duration op) 3;
                   t_metadata := metadata op |}) <$> sorted_operations)).

Record BreakdownEntry : Type := mkBreakdownEntry {
  b_operation_name : string;
  b_duration : Q;
  b_start : Q;
  b_metadata : Metadata
}.

Definition get_category_breakdown : M (gmap string (list BreakdownEntry)) :=
  with_lock (
    let breakdown : gmap string (list BreakdownEntry) :=
      list_to_map ((λ c, (c, [])) <$> CATEGORIES) in
    let* ops := read_attr FOperations operations in
    for_each (λ (bd : gmap string (list BreakdownEntry)) op,
                match bd !! category op with
                | None => raise (KeyError (category op))
                | Some l =>
                    ret (<[category op :=
                             (l ++ [ {| b_operation_name := operation_name op;
                                        b_duration := py_round (duration op) 3;
                                        b_start := py_round (relative_start op) 3;
                                        b_metadata := metadata op |} ])%list]> bd)
                end) ops breakdown).

(** What a consumer does with a statistics object: [stats[key]]. *)
Definition getitem (stats : Stats) (key : string) : Outcome pynum :=
  match stats !! key with
  | Some v => Ok v
  | None => Raise (KeyError key)
  end.

(** [int(x)] on a float truncates toward zero. *)
Definition py_int (x : Q) : Z := Z.quot (Qnum x) (Zpos (Qden x)).

(** [l[i] = v] with Python's negative indices and bounds check. *)
Definition list_setitem {A} (l : list A) (i : Z) (v : A) : Outcome (list A) :=
  let n := Z.of_nat (length l) in
  let j := if (i <? 0)%Z then (i + n)%Z else i in
  if ((0 <=? j)%Z && (j <? n)%Z)%bool then Ok (<[Z.to_nat j := v]> l)
  else Raise IndexError.

Record StackedTimeline : Type := mkStackedTimeline {
  time_points : list Q;
  stacked_categories : gmap string (list Z)
}.

Definition get_stacked_timeline (time_resolution : Q) : M StackedTimeline :=
  with_lock (
    let empty_result :=
      {| time_points := [];
         stacked_categories := list_to_map ((λ c, (c, [])) <$> CATEGORIES) |} in
    let* ops := read_attr FOperations operations in
    match ops with
    | [] => ret empty_result
    | _ :: _ =>
        let* st := read_attr FStartTime start_time in
        match st with
        | None => ret empty_result
        | Some t =>
            let* now := time_time in
            let sd := (now - t)%Q in
            let* q := lift (py_truediv sd time_resolution) in
            let num_points := (py_int q + 1)%Z in
            let points := (λ i, inject_Z i * time_resolution)%Q <$> seqZ 0 num_points in
            let category_data : gmap string (list Z) :=
              list_to_map ((λ c, (c, replicate (Z.to_nat num_points) 0%Z))
                             <$> CATEGORIES) in
            let* data :=
              for_each (λ (cd : gmap string (list Z)) op,
                let* q1 := lift (py_truediv (relative_start op) time_resolution) in
                let* q2 := lift (py_truediv (relative_end op) time_resolution) in
                let start_idx := py_int q1 in
                let end_idx := py_int q2 in
                for_each (λ (cd' : gmap string (list Z)) i,
                  match cd' !! category op with
                  | None => raise (KeyError (category op))
                  | Some row =>
                      let* row' := lift (list_setitem row i 1%Z) in
                      ret (<[category op := row']> cd')
                  end)
                  (seqZ start_idx (Z.min (end_idx + 1) num_points - start_idx)) cd)
                ops category_data in
            ret {| time_points := points; stacked_categories := data |}
        end
    end).

(** The document [export_to_json] hands to [json.dump]. *)
Record Export : Type := mkExport {
  x_start_time : option string;
  x_duration : Q;
  x_summary : Summary;
  x_timeline : list TimelineEntry;
  x_operations : list OpRecord
}.

Definition export_to_json : M Export :=
  let* st := read_attr FStartTime start_time in
  let* iso := (λ env w, (Ok (match st with
                             | Some t => if truthy t then Some (isoformat env t) else None
                             | None => None
                             end), w)) in
  let* dur :=
    (match st with
     | Some t => if truthy t then let* now := time_time in ret (now - t)%Q else ret 0%Q
     | None => ret 0%Q
     end) in
  let* summary := get_summary in
  let* timeline := get_timeline_data in
  let* ops := read_attr FOperations operations in
  ret {| x_start_time := iso; x_duration := dur; x_summary := summary;
         x_timeline := timeline; x_operations := ops |}.

(** [print_summary] only formats what [get_summary] returns. *)
Definition print_summary : M unit := get_summary ;; ret tt.

(** ** Host programs *)

(** A host program is a sequence of calls of the public methods.  The body
    of a [with track_operation(...) as op_id:] block is a host program
    that may use [op_id]; [HostRaise] is host code that fails, [HostTry] is
    host code that catches whatever its body raises. *)
#[local] Unset Elimination Schemes.
Inductive Call : Type :=
| CReset
| CStartSession
| CStartOperation (cat name : string) (md : option Metadata)
| CEndOperation (operation_id : string)
| CTrackOperation (cat name : string) (md : option Metadata) (body : string → list Call)
| CGetSummary
| CGetTimelineData
| CGetStackedTimeline (time_resolution : Q)
| CGetCategoryBreakdown
| CExportToJson
| CPrintSummary
| HostRaise
| HostTry (body : list Call).
#[local] Set Elimination Schemes.

Definition catch (m : M unit) : M unit :=
  λ env w, match m env w with (_, w') => (Ok tt, w') end.

Fixpoint exec (c : Call) : M unit :=
  let exec_seq := fix exec_seq (l : list Call) : M unit :=
    match l with
    | [] => ret tt
    | c' :: l' => exec c' ;; exec_seq l'
    end in
  match c with
  | CReset => reset
  | CStartSession => start_session
  | CStartOperation cat name md => start_operation cat name md ;; ret tt
  | CEndOperation operation_id => end_operation operation_id
  | CTrackOperation cat name md body =>
      track_operation cat name md (λ operation_id, exec_seq (body operation_id))
  | CGetSummary => get_summary ;; ret tt
  | CGetTimelineData => get_timeline_data ;; ret tt
  | CGetStackedTimeline r => get_stacked_timeline r ;; ret tt
  | CGetCategoryBreakdown => get_category_breakdown ;; ret tt
  | CExportToJson => export_to_json ;; ret tt
  | CPrintSummary => print_summary
  | HostRaise => raise HostError
  | HostTry body => catch (exec_seq body)
  end.

(** A block of host code: the first exception ends it. *)
Fixpoint exec_seq (l : list Call) : M unit :=
  match l with
  | [] => ret tt
  | c :: l' => exec c ;; exec_seq l'
  end.

Definition init_world : World :=
  {| inst := init_instrumentor; ticks := 0; events := [] |}.

(** The world a host program leaves behind, started on a fresh instance;
    each top-level call is made on its own, so that an exception of one
    call does not keep the host from making the next. *)
Definition run_calls (env : Env) (calls : list Call) : World :=
  fold_left (λ w c, snd (exec c env w)) calls init_world.

(** A concrete environment for examples: the [n]-th clock reading is
    [start + n * step], floats print as [numerator/denominator]. *)
Definition show_Q (x : Q) : string :=
  pretty (Qnum x) +:+ "/" +:+ pretty (Zpos (Qden x)).

Definition linear_env (start step : Q) : Env :=
  {| clock := λ n, (start + inject_Z (Z.of_nat n) * step)%Q;
     float_repr := show_Q;
     isoformat := show_Q |}.

(** ** Vocabulary of the specification *)

(** Each clock reading is at least every earlier one. *)
Definition monotone_clock (env : Env) : Prop :=
  ∀ i j : nat, (i ≤ j)%nat → (clock env i <= clock env j)%Q.

(** The sweep as the specification words it: keep a current merged
    interval; the next interval is merged into it exactly when its start
    is at most the current end, otherwise the current interval is closed
    and the next one becomes current. *)
Fixpoint spec_sweep (cur : Q * Q) (rest : list (Q * Q)) : list (Q * Q) :=
  match rest with
  | [] => [cur]
  | iv :: rest' =>
      if Qle_bool (fst iv) (snd cur)
      then spec_sweep (fst cur, Qmax (snd cur) (snd iv)) rest'
      else cur :: spec_sweep iv rest'
  end.

Definition spec_merge (sorted : list (Q * Q)) : list (Q * Q) :=
  match sorted with
  | [] => []
  | iv :: rest => spec_sweep iv rest
  end.

(** The sum of the lengths of a list of intervals. *)
Definition total_length (l : list (Q * Q)) : Q :=
  foldr (λ iv acc, (snd iv - fst iv) + acc)%Q 0%Q l.

Definition ascending_by_start (l : list (Q * Q)) : Prop :=
  StronglySorted (λ a b, fst a <= fst b)%Q l.

(** The order of Python's tuple comparison on pairs of floats. *)
Definition lex_le (a b : Q * Q) : Prop :=
  (fst a < fst b ∨ (fst a == fst b ∧ snd a <= snd b))%Q.


(** An interval proper: it does not end before it starts. *)
Definition proper (iv : Q * Q) : Prop := (fst iv <= snd iv)%Q.




(** The count of each category's aggregate is the number of its completed
    records. *)
Definition count_inv (s : Instrumentor) : Prop :=
  ∀ c, c ∈ CATEGORIES →
    ∃ agg, aggregates s !! c = Some agg ∧
           count agg = length (category_ops c (operations s)).

(** [summary["categories"][cat][key]], when both keys are present. *)
Definition stat (s : Summary) (cat key : string) : option pynum :=
  categories s !! cat ≫= (λ st : Stats, st !! key).

(** The keys of a statistics object. *)
Definition stats_keys : gset string :=
  {[ "total_time"; "count"; "average_time"; "min_time"; "max_time";
     "cumulative_percentage"; "timeline_percentage" ]}.

(** ** Derived forms used in the statements *)

(** The id [start_operation] builds from a clock reading. *)
Definition operation_id_of (env : Env) (cat name : string) (t : Q) : string :=
  cat +:+ "_" +:+ name +:+ "_" +:+ float_repr env t.

(** The entry [start_operation] registers. *)
Definition new_active (cat name : string) (t : Q) (md : option Metadata) : ActiveOp :=
  {| a_category := cat; a_operation_name := name;
     a_start_time := t; a_metadata := default ∅ md |}.

(** The record [end_operation] appends for the entry [a] at [end_time]. *)
Definition completed_record (st : option Q) (a : ActiveOp) (end_time : Q) : OpRecord :=
  {| category := a_category a;
     operation_name := a_operation_name a;
     op_start_time := a_start_time a;
     op_end_time := end_time;
     duration := end_time - a_start_time a;
     relative_start := relative_to st (a_start_time a) 0;
     relative_end := relative_to st end_time (end_time - a_start_time a);
     metadata := a_metadata a |}.

(** The aggregate after one more operation of duration [dur]. *)
Definition updated_agg (agg : Agg) (dur : Q) : Agg :=
  {| total_time := total_time agg + dur;
     count := S (count agg);
     min_time := py_min (min_time agg) dur;
     max_time := Qmax (max_time agg) dur |}.

(** The instance right after [start_session] read the clock as [t]. *)
Definition session_started (t : Q) : Instrumentor :=
  {| operations := []; active_operations := ∅;
     aggregates := fresh_aggregates; start_time := Some t |}.

(** The instance with one more active entry. *)
Definition registered (id : string) (a : ActiveOp) (s : Instrumentor) : Instrumentor :=
  {| operations := operations s;
     active_operations := <[id := a]> (active_operations s);
     aggregates := aggregates s;
     start_time := start_time s |}.

(** A computation that leaves the attributes of the instance as they are
    (it may read the clock and take the lock). *)
Definition read_only {A} (m : M A) : Prop :=
  ∀ env w, inst (snd (m env w)) = inst w ∧ ticks w ≤ ticks (snd (m env w)).

(** The sum of the durations of a list of records. *)
Definition sum_durations (l : list OpRecord) : Q :=
  foldr (λ r acc, duration r + acc)%Q 0%Q l.

(** What holds of the instance however the public methods were called. *)
Definition well_formed (s : Instrumentor) : Prop :=
  count_inv s ∧
  (∀ id a, active_operations s !! id = Some a → a_category a ∈ CATEGORIES) ∧
  (start_time s = None → operations s = [] ∧ active_operations s = ∅) ∧
  (∀ r, r ∈ operations s →
     category r ∈ CATEGORIES ∧
     duration r = (op_end_time r - op_start_time r)%Q ∧
     relative_start r = relative_to (start_time s) (op_start_time r) 0 ∧
     relative_end r = relative_to (start_time s) (op_end_time r) (duration r)) ∧
  (∀ c agg, aggregates s !! c = Some agg →
     (total_time agg == sum_durations (category_ops c (operations s)))%Q).

(** What holds of the timestamps when the clock is monotone: nothing
    recorded precedes the session start or follows the next clock
    reading. *)
Definition timed (env : Env) (w : World) : Prop :=
  ∀ t, start_time (inst w) = Some t →
    (t <= clock env (ticks w))%Q ∧
    (∀ r, r ∈ operations (inst w) →
       (t <= op_start_time r ∧ op_start_time r <= op_end_time r ∧
        op_end_time r <= clock env (ticks w))%Q) ∧
    (∀ id a, active_operations (inst w) !! id = Some a →
       (t <= a_start_time a ∧ a_start_time a <= clock env (ticks w))%Q).

(** The session duration [get_summary] reports when called in [w]. *)
Definition summary_duration (env : Env) (w : World) : Q :=
  match start_time (inst w) with
  | Some t => if truthy t then (clock env (ticks w) - t)%Q else 0%Q
  | None => 0%Q
  end.

(** The value [_calculate_timeline_coverage] returns. *)
Definition coverage_value (ops : list OpRecord) (cat : string) (sd : Q) : Q :=
  if Qle_bool sd 0 then 0%Q
  else
    match category_ops cat ops with
    | [] => 0%Q
    | _ :: _ =>
        py_round
          (sum_lengths (merge_intervals (py_sort tuple_lt (category_intervals cat ops)))
             / sd * 100) 2
    end.

(** The statistics object [get_summary] builds for a category whose
    aggregate is [agg]. *)
Definition stats_of (ops : list OpRecord) (sd : Q) (cat : string) (agg : Agg) : Stats :=
  if decide (0 < count agg) then
    nonzero_stats (total_time agg) (count agg)
      (total_time agg / inject_Z (Z.of_nat (count agg)))
      (min_time agg) (max_time agg)
      (if Qlt_bool 0 sd then py_round (total_time agg / sd * 100) 2 else 0%Q)
      (coverage_value ops cat sd)
  else zero_stats.

(** [m] returns [v] and leaves the instance and the clock as they are. *)
Definition computes {A} (m : M A) (env : Env) (w : World) (v : A) : Prop :=
  ∃ w', m env w = (Ok v, w') ∧ inst w' = inst w ∧ ticks w' = ticks w.

(** ** Concrete sessions for the examples *)

(** The clock reads 100, 101, 102, ... *)
Definition demo_env : Env := linear_env 100 1.

(** A session with two overlapping [llm_calls] operations, both ended. *)
Definition demo_calls : list Call :=
  [ CStartSession;
    CStartOperation "llm_calls" "a" None;
    CStartOperation "llm_calls" "b" None;
    CEndOperation "llm_calls_a_101/1";
    CEndOperation "llm_calls_b_103/1" ].

Definition demo_world : World := run_calls demo_env demo_calls.

(** The same session while operation [b] is still in flight. *)
Definition demo_world_active : World :=
  run_calls demo_env
    [ CStartSession;
      CStartOperation "llm_calls" "a" None;
      CStartOperation "llm_calls" "b" None;
      CEndOperation "llm_calls_a_101/1" ].

(** A statistics object as [get_summary] builds them. *)
Definition is_stats (st : Stats) : Prop :=
  ∃ total cnt avg mn mx cum tl, st = mk_stats total cnt avg mn mx cum tl.

(** What [example.py]'s [main], [plot_detailed_statistics] and
    [print_text_summary] evaluate on a statistics object:
    [stats['percentage']]. *)
Definition read_percentage (stats : Stats) : Outcome pynum :=
  getitem stats "percentage".

(** The summary of the demo session, its world afterwards, and its
    [llm_calls] statistics, all computed. *)
Definition demo_summary : Summary :=
  Eval vm_compute in
    match fst (get_summary demo_env demo_world) with
    | Ok s => s
    | Raise _ => {| session_duration := 0; total_operations := 0; categories := ∅ |}
    end.

Definition demo_after_summary : World :=
  Eval vm_compute in snd (get_summary demo_env demo_world).

Definition demo_llm_stats : Stats :=
  Eval vm_compute in default ∅ (categories demo_summary !! "llm_calls").

(** Three [llm_calls] operations that overlap for most of the session. *)
Definition overlap_calls : list Call :=
  [ CStartSession;
    CStartOperation "llm_calls" "q1" None;
    CStartOperation "llm_calls" "q2" None;
    CStartOperation "llm_calls" "q3" None;
    CEndOperation "llm_calls_q1_101/1";
    CEndOperation "llm_calls_q2_103/1";
    CEndOperation "llm_calls_q3_105/1" ].

Definition overlap_world : World := run_calls demo_env overlap_calls.

Definition overlap_summary : Summary :=
  Eval vm_compute in
    match fst (get_summary demo_env overlap_world) with
    | Ok s => s
    | Raise _ => {| session_duration := 0; total_operations := 0; categories := ∅ |}
    end.

Definition overlap_after_summary : World :=
  Eval vm_compute in snd (get_summary demo_env overlap_world).




(** ** Lock discipline *)

(** The events a computation adds to the trace when run in [w]. *)
Definition trace_of {A} (m : M A) (env : Env) (w : World) : list Event :=
  drop (length (events w)) (events (snd (m env w))).

(** The attributes a thread writes while it does not hold the lock, in a
    trace that starts with the lock [held] by it or not. *)
Fixpoint unlocked_writes (held : bool) (tr : list Event) : list Field :=
  match tr with
  | [] => []
  | EvAcquire :: tr' => unlocked_writes true tr'
  | EvRelease :: tr' => unlocked_writes false tr'
  | EvWrite f :: tr' =>
      if held then unlocked_writes held tr' else f :: unlocked_writes held tr'
  | _ :: tr' => unlocked_writes held tr'
  end.

(** Threads sharing the instance: what each has yet to do, and which of
    them holds the one lock.  A thread carries the trace of its call, so
    a pool stands for calls whose trace is the same in every state, as
    those of [reset] and [start_session] are. *)
Record Pool : Type := mkPool {
  owner : option nat;
  threads : list (list Event)
}.

(** Thread [i] performs its next event; acquiring blocks while the lock is
    taken, releasing needs the lock. *)
Definition step (i : nat) (p : Pool) : option Pool :=
  match threads p !! i with
  | Some (ev :: rest) =>
      let p' (o : option nat) := {| owner := o; threads := <[i := rest]> (threads p) |} in
      match ev with
      | EvAcquire =>
          match owner p with
          | None => Some (p' (Some i))
          | Some _ => None
          end
      | EvRelease =>
          if decide (owner p = Some i) then Some (p' None) else None
      | _ => Some (p' (owner p))
      end
  | _ => None
  end.

Fixpoint run_schedule (sched : list nat) (p : Pool) : option Pool :=
  match sched with
  | [] => Some p
  | i :: sched' =>
      match step i p with
      | Some p' => run_schedule sched' p'
      | None => None
      end
  end.

(** Two different threads are both about to write an attribute. *)
Definition concurrent_writes (p : Pool) : Prop :=
  ∃ (i j : nat) f g ri rj,
    i ≠ j ∧ threads p !! i = Some (EvWrite f :: ri) ∧
    threads p !! j = Some (EvWrite g :: rj).

(** Thread [i] is about to write an attribute without holding the lock. *)
Definition unlocked_write_pending (p : Pool) (i : nat) (f : Field) : Prop :=
  ∃ rest, threads p !! i = Some (EvWrite f :: rest) ∧ owner p ≠ Some i.

(** Every thread of the pool writes only while it owns the lock. *)
Definition pool_locked (p : Pool) : Prop :=
  ∀ (i : nat) tr, threads p !! i = Some tr →
    unlocked_writes (bool_decide (owner p = Some i)) tr = [].

(** ** Further vocabulary: what a list of intervals covers *)

(** The instant [t] lies in the closed interval [iv]. *)
Definition covers (iv : Q * Q) (t : Q) : Prop := (fst iv <= t ∧ t <= snd iv)%Q.

(** Some interval of [l] covers [t]. *)
Definition covered (l : list (Q * Q)) (t : Q) : Prop := ∃ iv, iv ∈ l ∧ covers iv t.

(** Every interval ends strictly before every later one starts. *)
Definition gapped (l : list (Q * Q)) : Prop :=
  StronglySorted (λ a b, snd a < fst b)%Q l.

(** ** Further vocabulary: the entries the queries build *)

(** The entry [get_timeline_data] builds from a record. *)
Definition timeline_entry (op : OpRecord) : TimelineEntry :=
  {| t_category := category op;
     t_operation_name := operation_name op;
     t_start := py_round (relative_start op) 3;
     t_end := py_round (relative_end op) 3;
     t_duration := py_round (duration op) 3;
     t_metadata := metadata op |}.

(** The entry [get_category_breakdown] builds from a record. *)
Definition breakdown_entry (op : OpRecord) : BreakdownEntry :=
  {| b_operation_name := operation_name op;
     b_duration := py_round (duration op) 3;
     b_start := py_round (relative_start op) 3;
     b_metadata := metadata op |}.

(** The records whose [relative_start] is [==] to [k], in list order. *)
Definition started_at (k : Q) (l : list OpRecord) : list OpRecord :=
  filter (λ r, Qeq_bool (relative_start r) k = true) l.

(** ** Further vocabulary: the aggregates against the log *)




(** ** Further vocabulary: the lock as one thread sees it *)

(** The lock is a plain [threading.Lock], not re-entrant: a thread that
    acquires it while holding it blocks for ever, and releasing a lock
    that is not held is an error.  [lock_run held tr] follows the trace
    [tr] from the state [held] and gives the final state, or [None] when
    the trace does one of the two. *)
Fixpoint lock_run (held : bool) (tr : list Event) : option bool :=
  match tr with
  | [] => Some held
  | EvAcquire :: tr' => if held then None else lock_run true tr'
  | EvRelease :: tr' => if held then lock_run false tr' else None
  | _ :: tr' => lock_run held tr'
  end.

(** An event that does not touch the lock. *)
Definition plain_event (ev : Event) : Prop := ev ≠ EvAcquire ∧ ev ≠ EvRelease.

(** A computation that never touches the lock. *)
Definition lock_free {A} (m : M A) : Prop :=
  ∀ env w, ∃ tr, events (snd (m env w)) = events w ++ tr ∧ Forall plain_event tr.

(** A computation that, started with the lock free, never acquires it
    while holding it and ends with the lock free. *)
Definition lock_balanced {A} (m : M A) : Prop :=
  ∀ env w, ∃ tr, events (snd (m env w)) = events w ++ tr ∧ lock_run false tr = Some false.

(** ** Further vocabulary: the stacked timeline *)

(** The innermost statement of [get_stacked_timeline]:
    [category_data[category][i] = 1]. *)
Definition stacked_mark (cat : string) (cd : gmap string (list Z)) (i : Z)
  : M (gmap string (list Z)) :=
  match cd !! cat with
  | None => raise (KeyError cat)
  | Some row =>
      let* row' := lift (list_setitem row i 1%Z) in
      ret (<[cat := row']> cd)
  end.

(** The body of its loop over the operations. *)
Definition stacked_op (time_resolution : Q) (num_points : Z)
    (cd : gmap string (list Z)) (op : OpRecord) : M (gmap string (list Z)) :=
  let* q1 := lift (py_truediv (relative_start op) time_resolution) in
  let* q2 := lift (py_truediv (relative_end op) time_resolution) in
  let start_idx := py_int q1 in
  let end_idx := py_int q2 in
  for_each (stacked_mark (category op))
    (seqZ start_idx (Z.min (end_idx + 1) num_points - start_idx)) cd.

(** Some record of category [c] spans the grid point [i]: its start
    index is at most [i] and its end index at least [i]. *)
Definition active_at (time_resolution : Q) (c : string) (ops : list OpRecord) (i : Z)
  : bool :=
  existsb (λ op, bool_decide (category op = c)
                 && (py_int (relative_start op / time_resolution) <=? i)%Z
                 && (i <=? py_int (relative_end op / time_resolution))%Z) ops.

(** What [get_stacked_timeline] returns when there is nothing to show. *)
Definition empty_stacked : StackedTimeline :=
  {| time_points := [];
     stacked_categories := list_to_map ((λ c, (c, [])) <$> CATEGORIES) |}.

(** ** Further vocabulary: tracked blocks one after another *)





(** ** The text summary of [visualize_metrics.py] *)

(** What [print_text_summary] prints, line by line: literal text, or the
    values an f-string interpolates (how a float is rendered is left to
    the reader of the line). *)
Inductive Line : Type :=
| LText (s : string)
| LSessionStart (start : option string)
| LSessionDuration (d : Q)
| LTotalOperations (n : nat)
| LCategory (category : string)
| LTotalTime (total percentage : pynum)
| LCallCount (n : pynum)
| LAverageTime (avg : pynum)
| LMinMaxTime (mn mx : pynum).

(** Code that prints and may raise: the lines printed so far are kept
    when an exception ends it. *)
Definition Printer (A : Type) : Type := list Line → Outcome A * list Line.

Definition pret {A} (a : A) : Printer A := λ out, (Ok a, out).

Definition pbind {A B} (m : Printer A) (k : A → Printer B) : Printer B :=
  λ out,
    match m out with
    | (Ok a, out') => k a out'
    | (Raise e, out') => (Raise e, out')
    end.

Notation "'do*' x ':=' m 'in' k" := (pbind m (λ x, k))
  (at level 10, x name, m at level 100, k at level 200).

Definition print (l : Line) : Printer unit := λ out, (Ok tt, out ++ [l]).

Definition plift {A} (o : Outcome A) : Printer A := λ out, (o, out).

(** ["="*n] and the like. *)
Fixpoint str_repeat (s : string) (n : nat) : string :=
  match n with
  | 0 => EmptyString
  | S n' => s +:+ str_repeat s n'
  end.

Definition newline : string := String (Ascii.ascii_of_nat 10) EmptyString.

(** [v > 0] on a number that may be [inf]. *)
Definition num_positive (v : pynum) : bool :=
  match v with
  | Num q => Qlt_bool 0 q
  | Inf => true
  end.

(** The body of the loop over the categories. *)
Definition print_category (category : string) (stats : Stats) : Printer unit :=
  do* cnt := plift (getitem stats "count") in
  if num_positive cnt then
    do* _ := print (LCategory category) in
    do* total := plift (getitem stats "total_time") in
    do* percentage := plift (getitem stats "percentage") in
    do* _ := print (LTotalTime total percentage) in
    do* cnt' := plift (getitem stats "count") in
    do* _ := print (LCallCount cnt') in
    do* avg := plift (getitem stats "average_time") in
    do* _ := print (LAverageTime avg) in
    do* mn := plift (getitem stats "min_time") in
    do* mx := plift (getitem stats "max_time") in
    print (LMinMaxTime mn mx)
  else pret tt.

Fixpoint print_categories (items : list (string * Stats)) : Printer unit :=
  match items with
  | [] => pret tt
  | (category, stats) :: items' =>
      do* _ := print_category category stats in
      print_categories items'
  end.

(** [print_text_summary(metrics)] on a document [export_to_json] built
    (its [session_info] has the key [start_time]);
    [sorted(summary['categories'].items())] orders the entries by
    category name. *)
Definition print_text_summary (metrics : Export) : Printer unit :=
  let summary := x_summary metrics in
  do* _ := print (LText (newline +:+ str_repeat "=" 80)) in
  do* _ := print (LText "INSTRUMENTATION SUMMARY") in
  do* _ := print (LText (str_repeat "=" 80)) in
  do* _ := print (LSessionStart (x_start_time metrics)) in
  do* _ := print (LSessionDuration (session_duration summary)) in
  do* _ := print (LTotalOperations (total_operations summary)) in
  do* _ := print (LText (newline +:+ "Category Breakdown:")) in
  do* _ := print (LText (str_repeat "-" 80)) in
  do* _ := print_categories
             (py_sort (λ a b, String.ltb (fst a) (fst b))
                (map_to_list (categories summary))) in
  print (LText (str_repeat "=" 80 +:+ newline)).
(** * The coverage computation in binary64

    The session model above keeps numbers exact.  The value
    [_calculate_timeline_coverage] returns is a quotient, scaled and
    rounded to two digits, and which double that is depends on the
    rounding of each operation; here the function is modelled again on
    IEEE binary64 numbers (the kernel's primitive floats), operation by
    operation in the order of the source. *)

Module Binary64.

Abbreviation float := PrimFloat.float.

(** [float(z)] for an int [z]; exact for [|z| <= 2^53]. *)
Definition of_int (z : Z) : float :=
  match z with
  | Zneg p => PrimFloat.opp (PrimFloat.of_uint63 (Uint63Axioms.of_Z (Zpos p)))
  | _ => PrimFloat.of_uint63 (Uint63Axioms.of_Z z)
  end.

(** The rational a finite double stands for. *)
Definition exact (x : float) : Q :=
  match FloatOps.Prim2SF x with
  | SpecFloat.S754_finite s m e =>
      let v := (inject_Z (Zpos m) * Qpower 2 e)%Q in
      if s then (- v)%Q else v
  | _ => 0%Q
  end.

(** The double nearest to the positive rational [p/d], ties to even:
    [m * 2^e] with [m] the rounded quotient at the exponent [e] of the
    binade of [p/d] (at least that of the subnormals). *)
Definition nearest_pos (p d : positive) : float :=
  let r := (Zpos p # d)%Q in
  let k := (Z.log2 (Zpos p) - Z.log2 (Zpos d))%Z in
  let binade := if Qle_bool (Qpower 2 k) r then k else (k - 1)%Z in
  let e := Z.max (binade - 52) (-1074) in
  let m := round_half_even (r * Qpower 2 (- e)) in
  FloatOps.Z.ldexp (of_int m) e.

(** The double nearest to a rational: what [strtod] returns for a decimal
    string. *)
Definition nearest (q : Q) : float :=
  match Qnum q with
  | Z0 => PrimFloat.zero
  | Zpos p => nearest_pos p (Qden q)
  | Zneg p => PrimFloat.opp (nearest_pos p (Qden q))
  end.

(** [round(x, ndigits)] on a float, for [ndigits >= 0]: the exact value of
    [x] is rounded half-even to [ndigits] decimals and the decimal is read
    back as a double; non-finite values are returned as they are, and a
    result of zero keeps the sign of [x]. *)
Definition py_round (x : float) (ndigits : nat) : float :=
  if negb (PrimFloat.is_finite x) then x
  else if (323 <? ndigits)%nat then x
  else
    let scale := inject_Z (10 ^ Z.of_nat ndigits) in
    let z := round_half_even (exact x * scale) in
    if (z =? 0)%Z then PrimFloat.mul (of_int 0) x
    else nearest (inject_Z z / scale).

(** Python compares tuples lexicographically: the first component that is
    not [==] decides. *)
Definition tuple_lt (a b : float * float) : bool :=
  if negb (PrimFloat.eqb (fst a) (fst b)) then PrimFloat.ltb (fst a) (fst b)
  else if negb (PrimFloat.eqb (snd a) (snd b)) then PrimFloat.ltb (snd a) (snd b)
  else false.

(** [max(a, b)]: [b] is returned only when [b > a]. *)
Definition py_max (a b : float) : float := if PrimFloat.ltb a b then b else a.

(** One iteration of the sweep. *)
Definition merge_step (merged : list (float * float)) (iv : float * float)
  : list (float * float) :=
  let '(start, end_) := iv in
  match last merged with
  | Some (mstart, mend) =>
      if PrimFloat.leb start mend
      then <[pred (length merged) := (mstart, py_max mend end_)]> merged
      else merged ++ [(start, end_)]
  | None => merged ++ [(start, end_)]
  end.

Definition merge_intervals (intervals : list (float * float)) : list (float * float) :=
  fold_left merge_step intervals [].

(** [end - start for start, end in merged] *)
Definition lengths (merged : list (float * float)) : list float :=
  (λ iv, PrimFloat.sub (snd iv) (fst iv)) <$> merged.


(** A record of the completed log. *)
Record OpRecord : Type := mkOpRecord {
  category : string;
  operation_name : string;
  start_time : float;
  end_time : float;
  duration : float;
  relative_start : float;
  relative_end : float;
  metadata : gmap string string
}.

Definition category_ops (cat : string) (ops : list OpRecord) : list OpRecord :=
  filter (λ op, category op = cat) ops.

Definition category_intervals (cat : string) (ops : list OpRecord)
  : list (float * float) :=
  (λ op, (relative_start op, relative_end op)) <$> category_ops cat ops.

Section Coverage.
(** The builtin [sum] of the interpreter, on floats. *)
Variable py_sum : list float → float.

Definition _calculate_timeline_coverage (operations : list OpRecord)
    (cat : string) (session_duration : float) : float :=
  if PrimFloat.leb session_duration (of_int 0) then PrimFloat.zero
  else
    match category_ops cat operations with
    | [] => PrimFloat.zero
    | _ :: _ =>
        let intervals := py_sort tuple_lt (category_intervals cat operations) in
        let merged := merge_intervals intervals in
        let total_coverage := py_sum (lengths merged) in
        py_round
          (PrimFloat.mul (PrimFloat.div total_coverage session_duration) (of_int 100)) 2
    end.
End Coverage.

(** The sweep as the specification words it. *)
Fixpoint spec_sweep (cur : float * float) (rest : list (float * float))
  : list (float * float) :=
  match rest with
  | [] => [cur]
  | iv :: rest' =>
      if PrimFloat.leb (fst iv) (snd cur)
      then spec_sweep (fst cur, py_max (snd cur) (snd iv)) rest'
      else cur :: spec_sweep iv rest'
  end.

Definition spec_merge (sorted : list (float * float)) : list (float * float) :=
  match sorted with
  | [] => []
  | iv :: rest => spec_sweep iv rest
  end.




(** The starts never decrease along the list. *)
Definition ascending_by_start (l : list (float * float)) : Prop :=
  StronglySorted (λ a b, PrimFloat.leb (fst a) (fst b) = true) l.

(** The order of the doubles that are not NaN, read off the sign, the
    exponent and the mantissa: [-inf], the negative doubles, the two
    zeros, the positive doubles, [+inf]. *)
Definition key (x : float) : Z * Z * Z :=
  match FloatOps.Prim2SF x with
  | SpecFloat.S754_infinity true => (-2, 0, 0)%Z
  | SpecFloat.S754_finite true m e => (-1, - e, Zneg m)%Z
  | SpecFloat.S754_zero _ => (0, 0, 0)%Z
  | SpecFloat.S754_nan => (0, 0, 0)%Z
  | SpecFloat.S754_finite false m e => (1, e, Zpos m)%Z
  | SpecFloat.S754_infinity false => (2, 0, 0)%Z
  end.

Definition key_lt (a b : Z * Z * Z) : Prop :=
  let '(a1, a2, a3) := a in
  let '(b1, b2, b3) := b in
  (a1 < b1 ∨ (a1 = b1 ∧ (a2 < b2 ∨ (a2 = b2 ∧ a3 < b3))))%Z.

Definition key_le (a b : Z * Z * Z) : Prop := key_lt a b ∨ a = b.

(** The order of Python's tuple comparison on pairs of doubles. *)
Definition lex_le (a b : float * float) : Prop :=
  key_lt (key (fst a)) (key (fst b)) ∨
  (key (fst a) = key (fst b) ∧ key_le (key (snd a)) (key (snd b))).

(** ** Concrete logs for the examples *)





End Binary64.

(** ** Rounding *)


Lemma round_half_even_floor (x : Q) :
  (Qfloor x <= round_half_even x <= Qfloor x + 1)%Z.
Proof.
  unfold round_half_even.
  destruct (_ ?= _)%Q; [ destruct (Z.even _) | | ]; lia.
Qed.

Lemma round_half_even_lb (k : Z) (x : Q) :
  (inject_Z k <= x)%Q → (k <= round_half_even x)%Z.
Proof.
  intros H. pose proof (round_half_even_floor x) as [Hf _].
  apply Qfloor_resp_le in H. rewrite Qfloor_Z in H. lia.
Qed.

Lemma round_half_even_ub (k : Z) (x : Q) :
  (x <= inject_Z k)%Q → (round_half_even x <= k)%Z.
Proof.
  intros H. pose proof (round_half_even_floor x) as [_ Hc].
  pose proof (Qfloor_resp_le _ _ H) as Hf. rewrite Qfloor_Z in Hf.
  destruct (Z.eq_dec (Qfloor x) k) as [Heq | Hne]; [ | lia ].
  unfold round_half_even. rewrite Heq.
  assert (Hlt : (x - inject_Z k ?= 1 # 2)%Q = Lt).
  { apply (proj1 (Qlt_alt _ _)). lra. }
  rewrite Hlt. lia.
Qed.


Lemma py_round_percent_bounds (x : Q) :
  (0 <= x)%Q → (x <= 100)%Q → (0 <= py_round x 2 ∧ py_round x 2 <= 100)%Q.
Proof.
  intros H0 H100. unfold py_round.
  change (inject_Z (10 ^ Z.of_nat 2)) with 100%Q.
  change (Z.to_pos (10 ^ Z.of_nat 2)) with 100%positive.
  assert (Hlo : (0 <= round_half_even (x * 100))%Z).
  { apply round_half_even_lb. change (inject_Z 0) with 0%Q. lra. }
  assert (Hhi : (round_half_even (x * 100) <= 10000)%Z).
  { apply round_half_even_ub. change (inject_Z 10000) with 10000%Q. lra. }
  unfold Qle; simpl. lia.
Qed.

(** ** First checks of the numeric model *)

Example round_to_cents : py_round (250 # 3) 2 = (8333 # 100)%Q.
Proof. reflexivity. Qed.

Example round_ties_to_even :
  py_round (1 # 8) 2 = (12 # 100)%Q ∧ py_round (3 # 8) 2 = (38 # 100)%Q ∧
  py_round (5 # 2) 0 = 2%Q ∧ py_round (-7 # 2) 0 = (-4)%Q.
Proof. repeat split; reflexivity. Qed.

Example sort_is_lexicographic :
  py_sort tuple_lt [(5, 10); (0, 7); (5, 3); (0, 5)]%Q
  = [(0, 5); (0, 7); (5, 3); (5, 10)]%Q.
Proof. reflexivity. Qed.

Example merge_nested :
  merge_intervals (py_sort tuple_lt [(2, 3); (0, 10); (11, 12)]%Q)
  = [(0, 10); (11, 12)]%Q.
Proof. reflexivity. Qed.

(** ** Comparisons *)

Lemma Qlt_bool_true (x y : Q) : Qlt_bool x y = true ↔ (x < y)%Q.
Proof.
  unfold Qlt_bool. rewrite negb_true_iff. split.
  - intros H. apply Qnot_le_lt. intros Hle.
    apply Qle_bool_iff in Hle. congruence.
  - intros H. destruct (Qle_bool y x) eqn:E; [ | reflexivity ].
    apply Qle_bool_iff in E. lra.
Qed.

Lemma Qlt_bool_false (x y : Q) : Qlt_bool x y = false ↔ (y <= x)%Q.
Proof.
  unfold Qlt_bool. rewrite negb_false_iff. apply Qle_bool_iff.
Qed.

Lemma Qle_bool_false (x y : Q) : Qle_bool x y = false → (y < x)%Q.
Proof.
  intros H. apply Qnot_le_lt. intros Hle. apply Qle_bool_iff in Hle. congruence.
Qed.

Lemma Qeq_bool_false (x y : Q) : Qeq_bool x y = false → ¬ (x == y)%Q.
Proof. intros H Heq. apply Qeq_bool_iff in Heq. congruence. Qed.

Lemma tuple_lt_true (a b : Q * Q) : tuple_lt a b = true → lex_le a b.
Proof.
  unfold tuple_lt, lex_le.
  destruct (Qeq_bool (fst a) (fst b)) eqn:E1; simpl.
  - apply Qeq_bool_iff in E1.
    destruct (Qeq_bool (snd a) (snd b)) eqn:E2; simpl; [ discriminate | ].
    intros H%Qlt_bool_true. right. split; [ assumption | lra ].
  - intros H%Qlt_bool_true. left. assumption.
Qed.

Lemma tuple_lt_false (a b : Q * Q) : tuple_lt a b = false → lex_le b a.
Proof.
  unfold tuple_lt, lex_le.
  destruct (Qeq_bool (fst a) (fst b)) eqn:E1; simpl.
  - apply Qeq_bool_iff in E1.
    destruct (Qeq_bool (snd a) (snd b)) eqn:E2; simpl.
    + apply Qeq_bool_iff in E2. intros _. right. split; lra.
    + intros H%Qlt_bool_false. right. split; lra.
  - apply Qeq_bool_false in E1. intros H%Qlt_bool_false.
    left. destruct (Qlt_le_dec (fst b) (fst a)) as [Hlt | Hle]; [ assumption | ].
    exfalso. apply E1. lra.
Qed.

Lemma lex_le_trans (a b c : Q * Q) : lex_le a b → lex_le b c → lex_le a c.
Proof.
  unfold lex_le. intros [H1 | [H1 H1']] [H2 | [H2 H2']].
  - left. lra.
  - left. lra.
  - left. lra.
  - right. split; lra.
Qed.

Lemma lex_le_start (a b : Q * Q) : lex_le a b → (fst a <= fst b)%Q.
Proof. unfold lex_le. intros [H | [H _]]; lra. Qed.

(** ** The sort *)

Section Sorting.
Context {A : Type} (lt : A → A → bool).

Lemma insert_by_perm (x : A) (l : list A) :
  Permutation (insert_by lt x l) (x :: l).
Proof.
  induction l as [ | y l IH ]; simpl.
  - reflexivity.
  - destruct (lt y x).
    + rewrite IH. apply perm_swap.
    + reflexivity.
Qed.

Lemma py_sort_perm (l : list A) : Permutation (py_sort lt l) l.
Proof.
  induction l as [ | x l IH ]; simpl.
  - reflexivity.
  - rewrite insert_by_perm. constructor. exact IH.
Qed.


End Sorting.

Lemma insert_by_sorted (x : Q * Q) (l : list (Q * Q)) :
  StronglySorted lex_le l → StronglySorted lex_le (insert_by tuple_lt x l).
Proof.
  induction 1 as [ | y l Hl IH Hy ]; simpl.
  - constructor; constructor.
  - destruct (tuple_lt y x) eqn:E.
    + constructor; [ exact IH | ].
      rewrite insert_by_perm. constructor; [ apply tuple_lt_true, E | exact Hy ].
    + apply tuple_lt_false in E.
      constructor; [ constructor; assumption | ].
      constructor; [ exact E | ].
      eapply Forall_impl; [ exact Hy | ].
      intros z Hz. eapply lex_le_trans; eassumption.
Qed.

Lemma py_sort_sorted (l : list (Q * Q)) : StronglySorted lex_le (py_sort tuple_lt l).
Proof.
  induction l as [ | x l IH ]; simpl.
  - constructor.
  - apply insert_by_sorted, IH.
Qed.

Lemma lex_sorted_ascending (l : list (Q * Q)) :
  StronglySorted lex_le l → ascending_by_start l.
Proof.
  unfold ascending_by_start. induction 1 as [ | x l Hl IH Hx ].
  - constructor.
  - constructor; [ exact IH | ].
    eapply Forall_impl; [ exact Hx | ]. intros z. apply lex_le_start.
Qed.

(** ** The sweep *)

(** The loop of the source, run on a non-empty [merged], is the sweep of
    the specification on its last interval. *)
Lemma merge_step_sweep (l pre : list (Q * Q)) (cur : Q * Q) :
  fold_left merge_step l (pre ++ [cur]) = pre ++ spec_sweep cur l.
Proof.
  revert pre cur. induction l as [ | [s e] l IH ]; intros pre [cs ce]; simpl.
  - reflexivity.
  - rewrite last_snoc. destruct (Qle_bool s ce) eqn:E.
    + rewrite length_app. simpl.
      replace (pred (length pre + 1)) with (length pre + 0)%nat by lia.
      rewrite insert_app_r. simpl. apply IH.
    + rewrite <- app_assoc. simpl.
      replace (pre ++ (cs, ce) :: [(s, e)]) with ((pre ++ [(cs, ce)]) ++ [(s, e)])
        by (rewrite <- app_assoc; reflexivity).
      rewrite IH. rewrite <- app_assoc. reflexivity.
Qed.

Lemma merge_intervals_spec (l : list (Q * Q)) : merge_intervals l = spec_merge l.
Proof.
  unfold merge_intervals. destruct l as [ | [s e] l ]; [ reflexivity | ].
  simpl. apply (merge_step_sweep l [] (s, e)).
Qed.

Lemma sum_lengths_from (l : list (Q * Q)) (a : Q) :
  (fold_left (λ acc iv, acc + (snd iv - fst iv)) l a == a + total_length l)%Q.
Proof.
  revert a. induction l as [ | iv l IH ]; intros a; simpl.
  - lra.
  - rewrite IH. lra.
Qed.

Lemma sum_lengths_total (l : list (Q * Q)) : (sum_lengths l == total_length l)%Q.
Proof. unfold sum_lengths. rewrite sum_lengths_from. lra. Qed.


(** Proper intervals in ascending order of start that end no later than
    [hi] are swept into a total length between [0] and [hi - fst cur]. *)
Lemma sweep_total_bound (hi : Q) (rest : list (Q * Q)) (cur : Q * Q) :
  proper cur → (snd cur <= hi)%Q →
  Forall (λ iv, proper iv ∧ snd iv <= hi)%Q rest →
  ascending_by_start (cur :: rest) →
  (0 <= total_length (spec_sweep cur rest) ∧
   total_length (spec_sweep cur rest) <= hi - fst cur)%Q.
Proof.
  unfold ascending_by_start.
  revert cur. induction rest as [ | [s e] rest IH ]; intros [cs ce] Hp Hhi Hall Hsort.
  - unfold proper in Hp. simpl in *. lra.
  - inversion Hall as [ | ? ? [Hps He] Hrest ]; subst.
    inversion Hsort as [ | ? ? Hsort' Hcur ]; subst.
    inversion Hcur as [ | ? ? Hs Hcur' ]; subst.
    inversion Hsort' as [ | ? ? Hsort'' Hse ]; subst.
    unfold proper in Hp, Hps. simpl in Hp, Hps, Hs, He, Hhi. simpl.
    destruct (Qle_bool s ce) eqn:E.
    + assert (Hm1 : (ce <= Qmax ce e)%Q) by apply Q.le_max_l.
      assert (Hm2 : (Qmax ce e <= hi)%Q) by (apply Q.max_lub; assumption).
      specialize (IH (cs, Qmax ce e)). simpl in IH. apply IH.
      * unfold proper. simpl. lra.
      * exact Hm2.
      * exact Hrest.
      * constructor; [ exact Hsort'' | exact Hcur' ].
    + apply Qle_bool_false in E.
      specialize (IH (s, e)). simpl in IH.
      destruct IH as [IH0 IH1]; [ exact Hps | exact He | exact Hrest | exact Hsort' | ].
      simpl. lra.
Qed.

Lemma merge_total_bound (hi : Q) (l : list (Q * Q)) :
  (0 <= hi)%Q →
  Forall (λ iv, 0 <= fst iv ∧ proper iv ∧ snd iv <= hi)%Q l →
  ascending_by_start l →
  (0 <= total_length (spec_merge l) ∧ total_length (spec_merge l) <= hi)%Q.
Proof.
  intros Hhi Hall Hsort. destruct l as [ | cur rest ]; simpl.
  - lra.
  - inversion Hall as [ | ? ? (H0 & Hp & He) Hrest ]; subst.
    destruct (sweep_total_bound hi rest cur) as [Hlo Hup].
    + exact Hp.
    + exact He.
    + eapply Forall_impl; [ exact Hrest | ]. simpl. intros iv (? & ? & ?). auto.
    + exact Hsort.
    + split; lra.
Qed.


(** ** Non-overlapping intervals *)







(** ** The order among equal starts does not matter *)

(** The sweep only looks at the current interval up to [==]. *)
Lemma sweep_total_Qeq (rest : list (Q * Q)) (c1 c2 : Q * Q) :
  (fst c1 == fst c2)%Q → (snd c1 == snd c2)%Q →
  (total_length (spec_sweep c1 rest) == total_length (spec_sweep c2 rest))%Q.
Proof.
  revert c1 c2. induction rest as [ | [s e] rest IH ]; intros [a1 b1] [a2 b2] Ha Hb;
    simpl in Ha, Hb.
  - simpl. lra.
  - cbn [spec_sweep fst snd].
    assert (Hle : Qle_bool s b1 = Qle_bool s b2).
    { destruct (Qle_bool s b1) eqn:E1, (Qle_bool s b2) eqn:E2; try reflexivity.
      - apply Qle_bool_iff in E1. apply Qle_bool_false in E2. lra.
      - apply Qle_bool_iff in E2. apply Qle_bool_false in E1. lra. }
    rewrite Hle. destruct (Qle_bool s b2).
    + apply IH; simpl; [ exact Ha | ]. rewrite Hb. reflexivity.
    + change (total_length ((a1, b1) :: spec_sweep (s, e) rest))
        with ((b1 - a1) + total_length (spec_sweep (s, e) rest))%Q.
      change (total_length ((a2, b2) :: spec_sweep (s, e) rest))
        with ((b2 - a2) + total_length (spec_sweep (s, e) rest))%Q.
      lra.
Qed.

Lemma Qmax_swap (x y z : Q) : (Qmax (Qmax x y) z == Qmax (Qmax x z) y)%Q.
Proof.
  rewrite <- !Q.max_assoc. rewrite (Q.max_comm y z). reflexivity.
Qed.

(** Two proper intervals with the same start may be swept in either
    order. *)
Lemma sweep_swap (a b cur : Q * Q) (rest : list (Q * Q)) :
  proper a → proper b → (fst a == fst b)%Q →
  (total_length (spec_sweep cur (a :: b :: rest))
   == total_length (spec_sweep cur (b :: a :: rest)))%Q.
Proof.
  destruct a as [s1 e1], b as [s2 e2], cur as [cs ce].
  unfold proper. simpl. intros Ha Hb Hs.
  cbn [spec_sweep fst snd].
  assert (Hle : Qle_bool s1 ce = Qle_bool s2 ce).
  { destruct (Qle_bool s1 ce) eqn:E1, (Qle_bool s2 ce) eqn:E2; try reflexivity.
    - apply Qle_bool_iff in E1. apply Qle_bool_false in E2. lra.
    - apply Qle_bool_iff in E2. apply Qle_bool_false in E1. lra. }
  rewrite Hle. destruct (Qle_bool s2 ce) eqn:E.
  - apply Qle_bool_iff in E.
    assert (H1 : Qle_bool s2 (Qmax ce e1) = true).
    { apply Qle_bool_iff. pose proof (Q.le_max_l ce e1). lra. }
    assert (H2 : Qle_bool s1 (Qmax ce e2) = true).
    { apply Qle_bool_iff. pose proof (Q.le_max_l ce e2). lra. }
    rewrite H1, H2. apply sweep_total_Qeq; simpl; [ reflexivity | apply Qmax_swap ].
  - assert (H1 : Qle_bool s2 e1 = true) by (apply Qle_bool_iff; lra).
    assert (H2 : Qle_bool s1 e2 = true) by (apply Qle_bool_iff; lra).
    rewrite H1, H2.
    change (total_length ((cs, ce) :: ?l)) with ((ce - cs) + total_length l)%Q.
    cbn [total_length foldr fst snd].
    rewrite (sweep_total_Qeq rest (s1, Qmax e1 e2) (s2, Qmax e2 e1));
      [ reflexivity | exact Hs | apply Q.max_comm ].
Qed.

(** Sweeping a common prefix first keeps an equality of totals. *)
Lemma sweep_prefix (p l l' : list (Q * Q)) :
  (∀ cur, total_length (spec_sweep cur l) == total_length (spec_sweep cur l'))%Q →
  ∀ cur, (total_length (spec_sweep cur (p ++ l))
          == total_length (spec_sweep cur (p ++ l')))%Q.
Proof.
  intros H. induction p as [ | x p IH ]; intros cur; simpl.
  - apply H.
  - destruct (Qle_bool (fst x) (snd cur)).
    + apply IH.
    + cbn [total_length foldr]. rewrite (IH x). reflexivity.
Qed.

(** An interval may be moved in front of intervals with the same start. *)
Lemma sweep_bubble (x : Q * Q) (p q : list (Q * Q)) :
  proper x → Forall (λ y, proper y ∧ fst y == fst x)%Q p →
  ∀ cur, (total_length (spec_sweep cur (p ++ x :: q))
          == total_length (spec_sweep cur (x :: p ++ q)))%Q.
Proof.
  intros Hx. induction 1 as [ | y p [Hy Hyx] Hp IH ]; intros cur.
  - reflexivity.
  - change ((y :: p) ++ x :: q) with ([y] ++ (p ++ x :: q)).
    rewrite (sweep_prefix [y] _ (x :: p ++ q) IH).
    simpl app. apply sweep_swap; assumption.
Qed.

Lemma ascending_app_inv (l1 l2 : list (Q * Q)) (x : Q * Q) :
  ascending_by_start (l1 ++ x :: l2) →
  ascending_by_start (l1 ++ l2) ∧
  Forall (λ y, fst y <= fst x)%Q l1 ∧ Forall (λ y, fst x <= fst y)%Q l2.
Proof.
  unfold ascending_by_start. induction l1 as [ | y l1 IH ]; simpl; intros H.
  - inversion H as [ | ? ? Hs Hx ]; subst. split; [ exact Hs | ]. split; [ constructor | exact Hx ].
  - inversion H as [ | ? ? Hs Hy ]; subst.
    destruct (IH Hs) as (Hs' & H1 & H2).
    apply Forall_app in Hy as [Hy1 Hy2]. inversion Hy2 as [ | ? ? Hyx Hy2' ]; subst.
    split; [ | split ].
    + constructor; [ exact Hs' | ]. apply Forall_app. split; assumption.
    + constructor; assumption.
    + exact H2.
Qed.

(** Any two arrangements of the same proper intervals in ascending order
    of start are swept into the same total length. *)
Lemma sweep_arrangement (l1 : list (Q * Q)) :
  ∀ l2 cur,
    Permutation l1 l2 → Forall proper l1 →
    ascending_by_start l1 → ascending_by_start l2 →
    (total_length (spec_sweep cur l1) == total_length (spec_sweep cur l2))%Q.
Proof.
  induction l1 as [ | x l1 IH ]; intros l2 cur Hperm Hp Hs1 Hs2.
  - apply Permutation_nil in Hperm. subst. reflexivity.
  - assert (Hin : x ∈ l2) by (rewrite <- Hperm; left).
    apply list_elem_of_split in Hin as (p & q & ->).
    apply Permutation_cons_app_inv in Hperm.
    inversion Hp as [ | ? ? Hx Hp' ]; subst.
    inversion Hs1 as [ | ? ? Hs1' Hmin ]; subst.
    destruct (ascending_app_inv _ _ _ Hs2) as (Hs2' & Hbefore & _).
    assert (Hties : Forall (λ y, proper y ∧ fst y == fst x)%Q p).
    { apply Forall_forall. intros y Hy.
      assert (Hy1 : y ∈ l1) by (rewrite Hperm; apply elem_of_app; left; exact Hy).
      rewrite Forall_forall in Hp', Hmin, Hbefore.
      split; [ apply Hp', Hy1 | ].
      pose proof (Hmin y Hy1). pose proof (Hbefore y Hy). lra. }
    rewrite (sweep_bubble x p q Hx Hties cur).
    cbn [spec_sweep]. destruct (Qle_bool (fst x) (snd cur)).
    + apply IH; assumption.
    + cbn [total_length foldr]. rewrite (IH (p ++ q) x); [ reflexivity | assumption .. ].
Qed.

Lemma merge_as_sweep (x : Q * Q) (l : list (Q * Q)) :
  proper x →
  (total_length (spec_merge (x :: l))
   == total_length (spec_sweep (fst x, fst x) (x :: l)))%Q.
Proof.
  intros Hx. unfold proper in Hx. cbn [spec_merge spec_sweep fst snd].
  rewrite (proj2 (Qle_bool_iff (fst x) (fst x))) by lra.
  apply sweep_total_Qeq; simpl; [ reflexivity | ].
  symmetry. apply Q.max_r. exact Hx.
Qed.

Lemma merge_arrangement (l1 l2 : list (Q * Q)) :
  Permutation l1 l2 → Forall proper l1 →
  ascending_by_start l1 → ascending_by_start l2 →
  (total_length (spec_merge l1) == total_length (spec_merge l2))%Q.
Proof.
  intros Hperm Hp Hs1 Hs2.
  destruct l1 as [ | x l1 ].
  { apply Permutation_nil in Hperm. subst. reflexivity. }
  destruct l2 as [ | y l2 ].
  { symmetry in Hperm. apply Permutation_nil in Hperm. discriminate. }
  assert (Hp2 : Forall proper (y :: l2)) by (rewrite <- Hperm; exact Hp).
  rewrite merge_as_sweep by (inversion Hp; assumption).
  rewrite merge_as_sweep by (inversion Hp2; assumption).
  assert (Hxy : (fst x == fst y)%Q).
  { assert (H1 : (fst x <= fst y)%Q).
    { assert (Hy : y ∈ x :: l1) by (rewrite Hperm; left).
      inversion Hs1 as [ | ? ? _ Hmin ]; subst.
      apply elem_of_cons in Hy as [-> | Hy]; [ lra | ].
      rewrite Forall_forall in Hmin. apply Hmin, Hy. }
    assert (H2 : (fst y <= fst x)%Q).
    { assert (Hx : x ∈ y :: l2) by (rewrite <- Hperm; left).
      inversion Hs2 as [ | ? ? _ Hmin ]; subst.
      apply elem_of_cons in Hx as [-> | Hx]; [ lra | ].
      rewrite Forall_forall in Hmin. apply Hmin, Hx. }
    lra. }
  rewrite (sweep_total_Qeq (y :: l2) (fst y, fst y) (fst x, fst x))
    by (simpl; symmetry; exact Hxy).
  apply sweep_arrangement; assumption.
Qed.
(** ** The order of the doubles *)








Section Order.
Variables x y : Binary64.float.
Hypothesis Hx : PrimFloat.is_nan x = false.
Hypothesis Hy : PrimFloat.is_nan y = false.



End Order.

(** ** The sort of the intervals *)








(** ** The sweep on doubles *)




(** ** What each method does to the instance *)

Ltac unfold_monad :=
  unfold bind, ret, raise, lift, with_lock, try_finally, time_time, emit,
    format_float, set_operations, set_active_operations, set_aggregates,
    set_start_time, read_attr, write_attr in *.

Ltac run_monad := unfold_monad; cbn [inst ticks events fst snd].

Lemma reset_effect (env : Env) (w : World) :
  fst (reset env w) = Ok tt ∧
  inst (snd (reset env w)) = init_instrumentor ∧
  ticks (snd (reset env w)) = ticks w.
Proof. repeat split. Qed.

Lemma start_session_effect (env : Env) (w : World) :
  fst (start_session env w) = Ok tt ∧
  inst (snd (start_session env w)) = session_started (clock env (ticks w)) ∧
  ticks (snd (start_session env w)) = S (ticks w).
Proof. repeat split. Qed.

Lemma start_operation_invalid (env : Env) (w : World) (cat name : string)
    (md : option Metadata) :
  cat ∉ CATEGORIES → start_operation cat name md env w = (Raise ValueError, w).
Proof.
  intros H. unfold start_operation. destruct (decide (cat ∈ CATEGORIES)); [ contradiction | ].
  reflexivity.
Qed.

Lemma start_operation_fresh (env : Env) (w : World) (cat name : string)
    (md : option Metadata) :
  cat ∈ CATEGORIES → start_time (inst w) = None →
  let n := ticks w in
  let id := operation_id_of env cat name (clock env (S n)) in
  fst (start_operation cat name md env w) = Ok id ∧
  inst (snd (start_operation cat name md env w))
    = registered id (new_active cat name (clock env (S (S n))) md)
        (session_started (clock env n)) ∧
  ticks (snd (start_operation cat name md env w)) = S (S (S n)).
Proof.
  intros H Hst. unfold start_operation.
  destruct (decide (cat ∈ CATEGORIES)); [ | contradiction ].
  unfold start_session, reset. run_monad. rewrite Hst. repeat split.
Qed.

Lemma start_operation_running (env : Env) (w : World) (cat name : string)
    (md : option Metadata) (t : Q) :
  cat ∈ CATEGORIES → start_time (inst w) = Some t →
  let n := ticks w in
  let id := operation_id_of env cat name (clock env n) in
  fst (start_operation cat name md env w) = Ok id ∧
  inst (snd (start_operation cat name md env w))
    = registered id (new_active cat name (clock env (S n)) md) (inst w) ∧
  ticks (snd (start_operation cat name md env w)) = S (S n).
Proof.
  intros H Hst. unfold start_operation.
  destruct (decide (cat ∈ CATEGORIES)); [ | contradiction ].
  run_monad. rewrite Hst. repeat split.
Qed.

Lemma end_operation_unknown (env : Env) (w : World) (id : string) :
  active_operations (inst w) !! id = None →
  fst (end_operation id env w) = Ok tt ∧
  inst (snd (end_operation id env w)) = inst w ∧
  ticks (snd (end_operation id env w)) = S (ticks w).
Proof.
  intros H. unfold end_operation. run_monad. rewrite H. repeat split.
Qed.

Lemma end_operation_known (env : Env) (w : World) (id : string) (a : ActiveOp) (agg : Agg) :
  active_operations (inst w) !! id = Some a →
  aggregates (inst w) !! a_category a = Some agg →
  let end_time := clock env (ticks w) in
  fst (end_operation id env w) = Ok tt ∧
  inst (snd (end_operation id env w))
    = {| operations :=
           operations (inst w) ++ [completed_record (start_time (inst w)) a end_time];
         active_operations := delete id (active_operations (inst w));
         aggregates :=
           <[a_category a := updated_agg agg (end_time - a_start_time a)]>
             (aggregates (inst w));
         start_time := start_time (inst w) |} ∧
  ticks (snd (end_operation id env w)) = S (ticks w).
Proof.
  intros H Hagg. unfold end_operation. run_monad. rewrite H.
  cbn [inst ticks events fst snd aggregates]. rewrite Hagg. repeat split.
Qed.

Lemma end_operation_nokey (env : Env) (w : World) (id : string) (a : ActiveOp) :
  active_operations (inst w) !! id = Some a →
  aggregates (inst w) !! a_category a = None →
  fst (end_operation id env w) = Raise (KeyError (a_category a)) ∧
  inst (snd (end_operation id env w))
    = {| operations :=
           operations (inst w)
             ++ [completed_record (start_time (inst w)) a (clock env (ticks w))];
         active_operations := delete id (active_operations (inst w));
         aggregates := aggregates (inst w);
         start_time := start_time (inst w) |} ∧
  ticks (snd (end_operation id env w)) = S (ticks w).
Proof.
  intros H Hagg. unfold end_operation. run_monad. rewrite H.
  cbn [inst ticks events fst snd aggregates]. rewrite Hagg. repeat split.
Qed.

(** ** Read-only computations *)

Lemma read_only_ret {A} (a : A) : read_only (ret a).
Proof. intros env w. simpl. split; [ reflexivity | lia ]. Qed.

Lemma read_only_raise {A} (e : exn) : read_only (@raise A e).
Proof. intros env w. simpl. split; [ reflexivity | lia ]. Qed.

Lemma read_only_lift {A} (o : Outcome A) : read_only (lift o).
Proof. intros env w. simpl. split; [ reflexivity | lia ]. Qed.

Lemma read_only_time : read_only time_time.
Proof. intros env w. simpl. split; [ reflexivity | lia ]. Qed.

Lemma read_only_read_attr {A} (f : Field) (proj : Instrumentor → A) :
  read_only (read_attr f proj).
Proof. intros env w. simpl. split; [ reflexivity | lia ]. Qed.

Lemma read_only_bind {A B} (m : M A) (k : A → M B) :
  read_only m → (∀ a, read_only (k a)) → read_only (bind m k).
Proof.
  intros Hm Hk env w. unfold bind.
  specialize (Hm env w). destruct (m env w) as [[a | e] w1]; simpl in Hm.
  - specialize (Hk a env w1). destruct Hk as [Hi Ht]. destruct Hm as [Hi' Ht'].
    split; [ congruence | lia ].
  - exact Hm.
Qed.

Lemma read_only_with_lock {A} (m : M A) : read_only m → read_only (with_lock m).
Proof.
  intros Hm env w. unfold with_lock, emit.
  match goal with |- context [m env ?w1] => specialize (Hm env w1) end.
  destruct (m env _) as [r w2]. simpl in *. exact Hm.
Qed.

Lemma read_only_for_each {A B} (body : B → A → M B) (xs : list A) (acc : B) :
  (∀ b a, read_only (body b a)) → read_only (for_each body xs acc).
Proof.
  intros Hb. revert acc. induction xs as [ | x xs IH ]; intros acc; simpl.
  - apply read_only_ret.
  - apply read_only_bind; [ apply Hb | intros b; apply IH ].
Qed.

Ltac read_only_step :=
  first
    [ apply read_only_ret
    | apply read_only_raise
    | apply read_only_lift
    | apply read_only_time
    | apply read_only_read_attr
    | apply read_only_with_lock
    | apply read_only_for_each; intros
    | apply read_only_bind; [ | intros ]
    | match goal with
      | |- read_only (match ?x with _ => _ end) => destruct x
      | |- read_only (if ?b then _ else _) => destruct b
      end ].

Lemma read_only_coverage (cat : string) (sd : Q) :
  read_only (_calculate_timeline_coverage cat sd).
Proof. unfold _calculate_timeline_coverage. repeat read_only_step. Qed.

Lemma read_only_summary_category (sd : Q) (acc : gmap string Stats) (cat : string) :
  read_only (summary_category sd acc cat).
Proof.
  unfold summary_category.
  repeat first [ apply read_only_coverage | read_only_step ].
Qed.

Lemma read_only_get_summary : read_only get_summary.
Proof.
  unfold get_summary.
  repeat first [ apply read_only_summary_category | read_only_step ].
Qed.

Lemma read_only_get_timeline_data : read_only get_timeline_data.
Proof. unfold get_timeline_data. repeat read_only_step. Qed.

Lemma read_only_get_category_breakdown : read_only get_category_breakdown.
Proof. unfold get_category_breakdown. repeat read_only_step. Qed.

Lemma read_only_get_stacked_timeline (r : Q) : read_only (get_stacked_timeline r).
Proof. unfold get_stacked_timeline. repeat read_only_step. Qed.

Lemma read_only_export_to_json : read_only export_to_json.
Proof.
  unfold export_to_json.
  apply read_only_bind; [ apply read_only_read_attr | intros st ].
  apply read_only_bind; [ intros env w; simpl; split; [ reflexivity | lia ] | intros iso ].
  repeat first
    [ apply read_only_get_summary | apply read_only_get_timeline_data | read_only_step ].
Qed.

Lemma read_only_print_summary : read_only print_summary.
Proof. unfold print_summary. repeat first [ apply read_only_get_summary | read_only_step ]. Qed.

(** ** Host programs: induction and invariants *)

Lemma Call_ind' (P : Call → Prop) :
  P CReset → P CStartSession →
  (∀ cat name md, P (CStartOperation cat name md)) →
  (∀ id, P (CEndOperation id)) →
  (∀ cat name md body, (∀ id, Forall P (body id)) → P (CTrackOperation cat name md body)) →
  P CGetSummary → P CGetTimelineData → (∀ r, P (CGetStackedTimeline r)) →
  P CGetCategoryBreakdown → P CExportToJson → P CPrintSummary → P HostRaise →
  (∀ body, Forall P body → P (HostTry body)) →
  ∀ c, P c.
Proof.
  intros H1 H2 H3 H4 H5 H6 H7 H8 H9 H10 H11 H12 H13.
  fix IH 1. intros c.
  destruct c as [ | | cat name md | id | cat name md body | | | r | | | | | body ];
    try assumption.
  - apply H3.
  - apply H4.
  - apply H5. intros id.
    exact ((fix go (l : list Call) : Forall P l :=
              match l return Forall P l with
              | [] => @List.Forall_nil _ P
              | c' :: l' => @List.Forall_cons _ P c' l' (IH c') (go l')
              end) (body id)).
  - apply H8.
  - apply H13.
    exact ((fix go (l : list Call) : Forall P l :=
              match l return Forall P l with
              | [] => @List.Forall_nil _ P
              | c' :: l' => @List.Forall_cons _ P c' l' (IH c') (go l')
              end) body).
Qed.

Lemma exec_track (cat name : string) (md : option Metadata) (body : string → list Call) :
  exec (CTrackOperation cat name md body)
  = track_operation cat name md (λ id, exec_seq (body id)).
Proof. reflexivity. Qed.

Lemma exec_try (body : list Call) : exec (HostTry body) = catch (exec_seq body).
Proof. reflexivity. Qed.

Lemma bind_ret_world {A} (m : M A) (env : Env) (w : World) :
  snd (bind m (λ _, ret tt) env w) = snd (m env w).
Proof. unfold bind, ret. destruct (m env w) as [[a | e] w']; reflexivity. Qed.

Section Invariant.
Variable P : World → Prop.
Variable env : Env.
Hypothesis P_reset : ∀ w, P w → P (snd (reset env w)).
Hypothesis P_start_session : ∀ w, P w → P (snd (start_session env w)).
Hypothesis P_start_operation :
  ∀ w cat name md, P w → P (snd (start_operation cat name md env w)).
Hypothesis P_end_operation : ∀ w id, P w → P (snd (end_operation id env w)).
Hypothesis P_frame :
  ∀ w w', P w → inst w' = inst w → ticks w ≤ ticks w' → P w'.

Lemma read_only_preserves {A} (m : M A) (w : World) :
  read_only m → P w → P (snd (bind m (λ _, ret tt) env w)).
Proof.
  intros Hm Hw. rewrite bind_ret_world.
  destruct (Hm env w) as [Hi Ht]. eapply P_frame; eassumption.
Qed.

Lemma exec_seq_preserves (l : list Call) :
  Forall (λ c, ∀ w, P w → P (snd (exec c env w))) l →
  ∀ w, P w → P (snd (exec_seq l env w)).
Proof.
  induction 1 as [ | c l Hc _ IH ]; intros w Hw; simpl.
  - exact Hw.
  - unfold bind. specialize (Hc w Hw).
    destruct (exec c env w) as [[[] | e] w1]; simpl in Hc.
    + apply IH, Hc.
    + exact Hc.
Qed.

Lemma exec_preserves (c : Call) : ∀ w, P w → P (snd (exec c env w)).
Proof.
  induction c as [ | | cat name md | id | cat name md body IH | | | r | | | | | body IH ]
    using Call_ind'; intros w Hw.
  - apply P_reset, Hw.
  - apply P_start_session, Hw.
  - simpl. rewrite bind_ret_world. apply P_start_operation, Hw.
  - apply P_end_operation, Hw.
  - rewrite exec_track. unfold track_operation, bind, try_finally.
    pose proof (P_start_operation w cat name md Hw) as H1.
    destruct (start_operation cat name md env w) as [[id | e] w1]; simpl in H1.
    + pose proof (exec_seq_preserves (body id) (IH id) w1 H1) as H2.
      destruct (exec_seq (body id) env w1) as [r w2]. simpl in H2.
      pose proof (P_end_operation w2 id H2) as H3.
      destruct (end_operation id env w2) as [[[] | e] w3]; exact H3.
    + exact H1.
  - apply (read_only_preserves get_summary), Hw. apply read_only_get_summary.
  - apply (read_only_preserves get_timeline_data), Hw. apply read_only_get_timeline_data.
  - apply (read_only_preserves (get_stacked_timeline r)), Hw.
    apply read_only_get_stacked_timeline.
  - apply (read_only_preserves get_category_breakdown), Hw.
    apply read_only_get_category_breakdown.
  - apply (read_only_preserves export_to_json), Hw. apply read_only_export_to_json.
  - destruct (read_only_print_summary env w) as [Hi Ht].
    eapply P_frame; [ exact Hw | exact Hi | exact Ht ].
  - exact Hw.
  - rewrite exec_try. unfold catch.
    pose proof (exec_seq_preserves body IH w Hw) as H.
    destruct (exec_seq body env w) as [r w1]. exact H.
Qed.

Lemma run_from_preserves (calls : list Call) (w : World) :
  P w → P (fold_left (λ w c, snd (exec c env w)) calls w).
Proof.
  revert w. induction calls as [ | c calls IH ]; intros w Hw; simpl.
  - exact Hw.
  - apply IH, exec_preserves, Hw.
Qed.

Lemma run_calls_preserves (calls : list Call) : P init_world → P (run_calls env calls).
Proof. apply run_from_preserves. Qed.
End Invariant.

(** ** The structural invariant *)

Lemma fresh_aggregates_lookup (c : string) :
  c ∈ CATEGORIES → fresh_aggregates !! c = Some init_agg.
Proof.
  unfold CATEGORIES. rewrite !elem_of_cons, elem_of_nil.
  intros [-> | [-> | [-> | [-> | [-> | [-> | []]]]]]]; reflexivity.
Qed.

Lemma fresh_aggregates_Some (c : string) (agg : Agg) :
  fresh_aggregates !! c = Some agg → c ∈ CATEGORIES ∧ agg = init_agg.
Proof.
  unfold fresh_aggregates. intros H%elem_of_list_to_map_2.
  apply list_elem_of_fmap in H as (c' & Heq & Hin).
  injection Heq as -> ->. split; [ exact Hin | reflexivity ].
Qed.

Lemma sum_durations_app (l1 l2 : list OpRecord) :
  (sum_durations (l1 ++ l2) == sum_durations l1 + sum_durations l2)%Q.
Proof.
  induction l1 as [ | r l1 IH ]; simpl.
  - lra.
  - rewrite IH. lra.
Qed.

Lemma category_ops_snoc (c : string) (ops : list OpRecord) (r : OpRecord) :
  category_ops c (ops ++ [r])
  = category_ops c ops ++ (if decide (category r = c) then [r] else []).
Proof. unfold category_ops. rewrite filter_app. reflexivity. Qed.

Lemma well_formed_empty (st : option Q) :
  well_formed {| operations := []; active_operations := ∅;
                 aggregates := fresh_aggregates; start_time := st |}.
Proof.
  unfold well_formed, count_inv. simpl.
  refine (conj _ (conj _ (conj _ (conj _ _)))).
  - intros c Hc. exists init_agg. split; [ apply fresh_aggregates_lookup, Hc | reflexivity ].
  - intros id a H. rewrite lookup_empty in H. discriminate.
  - intros _. split; reflexivity.
  - intros r H%elem_of_nil. contradiction.
  - intros c agg H. apply fresh_aggregates_Some in H as [_ ->]. reflexivity.
Qed.

Lemma well_formed_registered (id : string) (a : ActiveOp) (s : Instrumentor) :
  well_formed s → is_Some (start_time s) → a_category a ∈ CATEGORIES →
  well_formed (registered id a s).
Proof.
  intros (Hc & Ha & Hn & Hr & Ht) [t Hst] Hcat.
  unfold well_formed, registered, count_inv. simpl.
  refine (conj _ (conj _ (conj _ (conj _ _)))).
  - exact Hc.
  - intros id' a' H. apply lookup_insert_Some in H as [[_ <-] | [_ H]].
    + exact Hcat.
    + eapply Ha, H.
  - intros H. rewrite Hst in H. discriminate.
  - exact Hr.
  - exact Ht.
Qed.

Lemma well_formed_completed (s : Instrumentor) (id : string) (a : ActiveOp)
    (agg : Agg) (end_time : Q) :
  well_formed s →
  active_operations s !! id = Some a →
  aggregates s !! a_category a = Some agg →
  well_formed
    {| operations := operations s ++ [completed_record (start_time s) a end_time];
       active_operations := delete id (active_operations s);
       aggregates :=
         <[a_category a := updated_agg agg (end_time - a_start_time a)]> (aggregates s);
       start_time := start_time s |}.
Proof.
  intros (Hc & Ha & Hn & Hr & Ht) Hact Hagg.
  unfold well_formed, count_inv. simpl.
  refine (conj _ (conj _ (conj _ (conj _ _)))).
  - intros c Hcin. rewrite category_ops_snoc. simpl.
    destruct (decide (a_category a = c)) as [<- | Hne].
    + exists (updated_agg agg (end_time - a_start_time a)).
      rewrite lookup_insert_eq. split; [ reflexivity | ].
      destruct (Hc _ Hcin) as (agg' & Hl & Hcount).
      rewrite Hagg in Hl. injection Hl as <-.
      rewrite length_app. simpl. lia.
    + rewrite lookup_insert_ne by exact Hne.
      rewrite app_nil_r. apply Hc, Hcin.
  - intros id' a' H. apply lookup_delete_Some in H as [_ H]. eapply Ha, H.
  - intros H. destruct (Hn H) as [_ He]. rewrite He, lookup_empty in Hact. discriminate.
  - intros r [H | ->%list_elem_of_singleton]%elem_of_app.
    + apply Hr, H.
    + simpl. split; [ eapply Ha, Hact | repeat split ].
  - intros c agg' H. rewrite category_ops_snoc, sum_durations_app. simpl.
    apply lookup_insert_Some in H as [[<- <-] | [Hne H]].
    + rewrite decide_True by reflexivity. simpl.
      rewrite (Ht _ _ Hagg). lra.
    + rewrite decide_False by exact Hne. simpl.
      rewrite (Ht _ _ H). lra.
Qed.

Lemma well_formed_aggregate (s : Instrumentor) (id : string) (a : ActiveOp) :
  well_formed s → active_operations s !! id = Some a →
  ∃ agg, aggregates s !! a_category a = Some agg.
Proof.
  intros (Hc & Ha & _) Hact.
  destruct (Hc (a_category a) (Ha _ _ Hact)) as (agg & H & _). eauto.
Qed.

Section WellFormed.
Variable env : Env.

Lemma well_formed_reset (w : World) : well_formed (inst (snd (reset env w))).
Proof.
  destruct (reset_effect env w) as (_ & -> & _). apply well_formed_empty.
Qed.

Lemma well_formed_start_session (w : World) :
  well_formed (inst (snd (start_session env w))).
Proof.
  destruct (start_session_effect env w) as (_ & -> & _). apply well_formed_empty.
Qed.

Lemma well_formed_start_operation (w : World) (cat name : string)
    (md : option Metadata) :
  well_formed (inst w) → well_formed (inst (snd (start_operation cat name md env w))).
Proof.
  intros Hw. destruct (decide (cat ∈ CATEGORIES)) as [Hin | Hout].
  - destruct (start_time (inst w)) as [t | ] eqn:Hst.
    + destruct (start_operation_running env w cat name md t Hin Hst) as (_ & -> & _).
      apply well_formed_registered; [ exact Hw | rewrite Hst; eauto | exact Hin ].
    + destruct (start_operation_fresh env w cat name md Hin Hst) as (_ & -> & _).
      apply well_formed_registered;
        [ apply well_formed_empty | simpl; eauto | exact Hin ].
  - rewrite start_operation_invalid by exact Hout. exact Hw.
Qed.

Lemma well_formed_end_operation (w : World) (id : string) :
  well_formed (inst w) → well_formed (inst (snd (end_operation id env w))).
Proof.
  intros Hw. destruct (active_operations (inst w) !! id) as [a | ] eqn:Hact.
  - destruct (well_formed_aggregate _ _ _ Hw Hact) as [agg Hagg].
    destruct (end_operation_known env w id a agg Hact Hagg) as (_ & -> & _).
    apply well_formed_completed; assumption.
  - destruct (end_operation_unknown env w id Hact) as (_ & -> & _). exact Hw.
Qed.

Lemma well_formed_exec (c : Call) (w : World) :
  well_formed (inst w) → well_formed (inst (snd (exec c env w))).
Proof.
  apply (exec_preserves (λ w, well_formed (inst w)) env).
  - intros w0 _. apply well_formed_reset.
  - intros w0 _. apply well_formed_start_session.
  - intros w0 cat name md. apply well_formed_start_operation.
  - intros w0 id. apply well_formed_end_operation.
  - intros w0 w1 H Hi _. rewrite Hi. exact H.
Qed.

Lemma well_formed_run (calls : list Call) : well_formed (inst (run_calls env calls)).
Proof.
  apply (run_calls_preserves (λ w, well_formed (inst w)) env).
  - intros w0 _. apply well_formed_reset.
  - intros w0 _. apply well_formed_start_session.
  - intros w0 cat name md. apply well_formed_start_operation.
  - intros w0 id. apply well_formed_end_operation.
  - intros w0 w1 H Hi _. rewrite Hi. exact H.
  - apply (well_formed_empty None).
Qed.
End WellFormed.

(** ** Timestamps under a monotone clock *)

Section Timed.
Variable env : Env.
Hypothesis clock_mono : monotone_clock env.

Lemma timed_frame (w w' : World) :
  timed env w → inst w' = inst w → ticks w ≤ ticks w' → timed env w'.
Proof.
  intros H Hi Ht t Hst. rewrite Hi in *.
  destruct (H t Hst) as (H0 & Hr & Ha).
  pose proof (clock_mono _ _ Ht) as Hc.
  split; [ lra | split ].
  - intros r Hin. destruct (Hr r Hin) as (? & ? & ?). repeat split; lra.
  - intros id a Hact. destruct (Ha id a Hact) as (? & ?). split; lra.
Qed.

Lemma timed_reset (w : World) : timed env (snd (reset env w)).
Proof.
  intros t. destruct (reset_effect env w) as (_ & -> & _). discriminate.
Qed.

Lemma timed_session_started (w' : World) (n : nat) :
  inst w' = session_started (clock env n) → n ≤ ticks w' → timed env w'.
Proof.
  intros Hi Ht t. rewrite Hi. simpl. intros [= <-].
  split; [ apply clock_mono, Ht | split ].
  - intros r H%elem_of_nil. contradiction.
  - intros id a H. rewrite lookup_empty in H. discriminate.
Qed.

Lemma timed_start_session (w : World) : timed env (snd (start_session env w)).
Proof.
  destruct (start_session_effect env w) as (_ & Hi & Ht).
  apply (timed_session_started _ (ticks w)); [ exact Hi | lia ].
Qed.

Lemma timed_registered (w w' : World) (id : string) (a : ActiveOp) (n : nat) :
  timed env w → inst w' = registered id a (inst w) →
  ticks w ≤ n → n < ticks w' → a_start_time a = clock env n →
  timed env w'.
Proof.
  intros H Hi Hn Hn' Hstart t. rewrite Hi. simpl. intros Hst.
  destruct (H t Hst) as (H0 & Hr & Ha).
  assert (Hc1 : (clock env (ticks w) <= clock env n)%Q) by apply clock_mono, Hn.
  assert (Hc2 : (clock env n <= clock env (ticks w'))%Q) by (apply clock_mono; lia).
  split; [ lra | split ].
  - intros r Hin. destruct (Hr r Hin) as (? & ? & ?). repeat split; lra.
  - intros id' a' [[_ <-] | [_ Hact]]%lookup_insert_Some.
    + rewrite Hstart. split; lra.
    + destruct (Ha id' a' Hact) as (? & ?). split; lra.
Qed.

Lemma timed_start_operation (w : World) (cat name : string) (md : option Metadata) :
  timed env w → timed env (snd (start_operation cat name md env w)).
Proof.
  intros H. destruct (decide (cat ∈ CATEGORIES)) as [Hin | Hout].
  - destruct (start_time (inst w)) as [t | ] eqn:Hst.
    + destruct (start_operation_running env w cat name md t Hin Hst) as (_ & Hi & Ht).
      apply (timed_registered w _ _ _ (S (ticks w)) H Hi); [ lia | lia | reflexivity ].
    + destruct (start_operation_fresh env w cat name md Hin Hst) as (_ & Hi & Ht).
      set (w0 := {| inst := session_started (clock env (ticks w));
                    ticks := S (ticks w); events := [] |}).
      eapply (timed_registered w0 _ _ _ (S (S (ticks w)))).
      * apply (timed_session_started _ (ticks w)); [ reflexivity | simpl; lia ].
      * exact Hi.
      * simpl. lia.
      * lia.
      * reflexivity.
  - rewrite start_operation_invalid by exact Hout. exact H.
Qed.

Lemma timed_end_operation (w : World) (id : string) :
  well_formed (inst w) → timed env w → timed env (snd (end_operation id env w)).
Proof.
  intros Hw H. destruct (active_operations (inst w) !! id) as [a | ] eqn:Hact.
  - destruct (well_formed_aggregate _ _ _ Hw Hact) as [agg Hagg].
    destruct (end_operation_known env w id a agg Hact Hagg) as (_ & Hi & Ht).
    intros t. rewrite Hi, Ht. simpl. intros Hst.
    destruct (H t Hst) as (H0 & Hr & Ha).
    assert (Hc : (clock env (ticks w) <= clock env (S (ticks w)))%Q)
      by (apply clock_mono; lia).
    destruct (Ha id a Hact) as (Ha1 & Ha2).
    split; [ lra | split ].
    + intros r [Hin | ->%list_elem_of_singleton]%elem_of_app.
      * destruct (Hr r Hin) as (? & ? & ?). repeat split; lra.
      * simpl. repeat split; lra.
    + intros id' a' [_ Hact']%lookup_delete_Some.
      destruct (Ha id' a' Hact') as (? & ?). split; lra.
  - destruct (end_operation_unknown env w id Hact) as (_ & Hi & Ht).
    apply (timed_frame w); [ exact H | exact Hi | lia ].
Qed.

Lemma timed_run (calls : list Call) :
  well_formed (inst (run_calls env calls)) ∧ timed env (run_calls env calls).
Proof.
  apply (run_calls_preserves (λ w, well_formed (inst w) ∧ timed env w) env).
  - intros w _. split; [ apply well_formed_reset | apply timed_reset ].
  - intros w _. split; [ apply well_formed_start_session | apply timed_start_session ].
  - intros w cat name md [Hw Ht].
    split; [ apply well_formed_start_operation, Hw | apply timed_start_operation, Ht ].
  - intros w id [Hw Ht].
    split; [ apply well_formed_end_operation, Hw | apply timed_end_operation; assumption ].
  - intros w w' [Hw Ht] Hi Hticks.
    split; [ rewrite Hi; exact Hw | eapply timed_frame; eassumption ].
  - split; [ apply (well_formed_empty None) | intros t; discriminate ].
Qed.
End Timed.

(** ** What [get_summary] returns *)

Lemma computes_ret {A} (a : A) (env : Env) (w : World) : computes (ret a) env w a.
Proof. exists w. repeat split. Qed.

Lemma computes_read_attr {A} (f : Field) (proj : Instrumentor → A) (env : Env) (w : World) :
  computes (read_attr f proj) env w (proj (inst w)).
Proof. eexists. repeat split. Qed.

Lemma computes_lift {A} (a : A) (env : Env) (w : World) : computes (lift (Ok a)) env w a.
Proof. exists w. repeat split. Qed.

Lemma computes_bind {A B} (m : M A) (k : A → M B) (env : Env) (w : World) (a : A) (b : B) :
  computes m env w a →
  (∀ w', inst w' = inst w → ticks w' = ticks w → computes (k a) env w' b) →
  computes (bind m k) env w b.
Proof.
  intros (w1 & Hm & Hi & Ht) Hk. destruct (Hk w1 Hi Ht) as (w2 & Hk' & Hi' & Ht').
  exists w2. unfold bind. rewrite Hm. repeat split; congruence.
Qed.

Lemma py_truediv_ok (x y : Q) : ¬ (y == 0)%Q → py_truediv x y = Ok (x / y)%Q.
Proof.
  intros H. unfold py_truediv. destruct (Qeq_bool y 0) eqn:E; [ | reflexivity ].
  apply Qeq_bool_iff in E. contradiction.
Qed.

Lemma coverage_computes (cat : string) (sd : Q) (env : Env) (w : World) :
  computes (_calculate_timeline_coverage cat sd) env w
           (coverage_value (operations (inst w)) cat sd).
Proof.
  unfold _calculate_timeline_coverage, coverage_value.
  destruct (Qle_bool sd 0) eqn:E; [ apply computes_ret | ].
  apply Qle_bool_false in E.
  eapply computes_bind; [ apply computes_read_attr | ]. intros w1 Hi Ht.
  destruct (category_ops cat (operations (inst w))); [ apply computes_ret | ].
  rewrite py_truediv_ok by lra.
  eapply computes_bind; [ apply computes_lift | ]. intros w2 _ _. apply computes_ret.
Qed.

Lemma summary_category_computes (sd : Q) (acc : gmap string Stats) (cat : string)
    (agg : Agg) (env : Env) (w : World) :
  aggregates (inst w) !! cat = Some agg →
  computes (summary_category sd acc cat) env w
           (<[cat := stats_of (operations (inst w)) sd cat agg]> acc).
Proof.
  intros Hagg. unfold summary_category, stats_of.
  eapply computes_bind; [ apply computes_read_attr | ]. intros w1 Hi1 Ht1.
  rewrite Hagg. destruct (decide (0 < count agg)) as [Hpos | Hz ]; [ | apply computes_ret ].
  eapply computes_bind.
  { instantiate (1 := if Qlt_bool 0 sd then py_round (total_time agg / sd * 100) 2 else 0%Q).
    destruct (Qlt_bool 0 sd) eqn:E; [ | apply computes_ret ].
    apply Qlt_bool_true in E. rewrite py_truediv_ok by lra.
    eapply computes_bind; [ apply computes_lift | ]. intros w2 _ _. apply computes_ret. }
  intros w2 Hi2 Ht2.
  apply (computes_bind _ _ _ _ (coverage_value (operations (inst w)) cat sd)).
  { replace (inst w) with (inst w2) by congruence. apply coverage_computes. }
  intros w3 Hi3 Ht3.
  rewrite py_truediv_ok.
  - eapply computes_bind; [ apply computes_lift | ]. intros w4 _ _. apply computes_ret.
  - intros H. unfold Qeq in H. simpl in H. lia.
Qed.

(** The dict the loop of [get_summary] builds over the categories [cats],
    starting from [acc]. *)
Lemma for_each_summary (sd : Q) (env : Env) (cats : list string) :
  ∀ (acc : gmap string Stats) (w : World),
  (∀ c, c ∈ cats → is_Some (aggregates (inst w) !! c)) →
  ∃ res,
    computes (for_each (summary_category sd) cats acc) env w res ∧
    ∀ c, res !! c =
         if decide (c ∈ cats)
         then stats_of (operations (inst w)) sd c <$> aggregates (inst w) !! c
         else acc !! c.
Proof.
  induction cats as [ | x cats IH ]; intros acc w Hall.
  - exists acc. split; [ apply computes_ret | ].
    intros c. rewrite decide_False by apply not_elem_of_nil. reflexivity.
  - destruct (Hall x) as [agg Hagg]; [ left | ].
    pose proof (summary_category_computes sd acc x agg env w Hagg) as (w1 & Hrun & Hi & Ht).
    destruct (IH (<[x := stats_of (operations (inst w)) sd x agg]> acc) w1) as (res & Hres & Hlook).
    { intros c Hc. rewrite Hi. apply Hall. right. exact Hc. }
    exists res. split.
    + destruct Hres as (w2 & Hrun2 & Hi2 & Ht2). exists w2.
      simpl. unfold bind. rewrite Hrun. repeat split; congruence.
    + intros c. rewrite Hlook, Hi.
      destruct (decide (c ∈ cats)) as [Hin | Hnin].
      * rewrite decide_True by (right; exact Hin). reflexivity.
      * destruct (decide (c = x)) as [-> | Hne].
        -- rewrite decide_True by left. rewrite lookup_insert_eq, Hagg. reflexivity.
        -- rewrite lookup_insert_ne by congruence.
           rewrite decide_False; [ reflexivity | ].
           intros [? | ?]%elem_of_cons; contradiction.
Qed.

Lemma get_summary_returns (env : Env) (w : World) :
  (∀ c, c ∈ CATEGORIES → is_Some (aggregates (inst w) !! c)) →
  ∃ s w',
    get_summary env w = (Ok s, w') ∧
    inst w' = inst w ∧
    session_duration s = summary_duration env w ∧
    total_operations s = length (operations (inst w)) ∧
    ∀ c, categories s !! c =
         if decide (c ∈ CATEGORIES)
         then stats_of (operations (inst w)) (summary_duration env w) c
                <$> aggregates (inst w) !! c
         else None.
Proof.
  intros Hall. unfold get_summary, summary_duration. run_monad.
  destruct (start_time (inst w)) as [t | ] eqn:Hst;
    [ destruct (truthy t) eqn:Htr | ]; cbn [inst ticks events fst snd].
  all: match goal with
       | |- context [for_each (summary_category ?sd) CATEGORIES ∅ ?e ?w0] =>
           destruct (for_each_summary sd e CATEGORIES ∅ w0 Hall)
             as (res & (w1 & Hrun & Hi & Ht) & Hlook);
           rewrite Hrun
       end.
  all: eexists _, _; split; [ reflexivity | ]; cbn [inst ticks events fst snd ret];
    cbn [session_duration total_operations categories];
    split; [ exact Hi | split; [ reflexivity | split; [ reflexivity | ] ] ].
  all: intros c; rewrite Hlook; cbn [inst]; destruct (decide (c ∈ CATEGORIES));
    [ reflexivity | apply lookup_empty ].
Qed.

(** * The claims *)

(** ** C3: ending an operation that is not active *)

(** C3.  For every session state and every [operationId] that is not a key
    of the active-operation map, [end_operation] raises nothing and leaves
    the whole instance (completed log, aggregates, active map, start time)
    as it was.  Consequently a second [end_operation] on the same id is
    such a no-op, whatever the first one did; and on an id that is active
    in a well-formed instance the two calls together append exactly one
    record and raise exactly one count by one. *)
Theorem end_operation_stale_noop (env : Env) (w : World) (id : string) :
  (active_operations (inst w) !! id = None →
     fst (end_operation id env w) = Ok tt ∧
     inst (snd (end_operation id env w)) = inst w) ∧
  (let w1 := snd (end_operation id env w) in
   fst (end_operation id env w1) = Ok tt ∧
   inst (snd (end_operation id env w1)) = inst w1) ∧
  (∀ a agg,
     active_operations (inst w) !! id = Some a →
     aggregates (inst w) !! a_category a = Some agg →
     let w2 := snd (end_operation id env (snd (end_operation id env w))) in
     operations (inst w2)
       = operations (inst w)
           ++ [completed_record (start_time (inst w)) a (clock env (ticks w))] ∧
     aggregates (inst w2)
       = <[a_category a := updated_agg agg (clock env (ticks w) - a_start_time a)]>
           (aggregates (inst w)) ∧
     count (updated_agg agg (clock env (ticks w) - a_start_time a)) = S (count agg)).
Proof.
  split; [ | split ].
  - intros H. destruct (end_operation_unknown env w id H) as (Hr & Hi & _).
    split; assumption.
  - assert (Hgone : active_operations (inst (snd (end_operation id env w))) !! id = None).
    { destruct (active_operations (inst w) !! id) as [a | ] eqn:Hact.
      - destruct (aggregates (inst w) !! a_category a) as [agg | ] eqn:Hagg.
        + destruct (end_operation_known env w id a agg Hact Hagg) as (_ & -> & _).
          simpl. apply lookup_delete_eq.
        + destruct (end_operation_nokey env w id a Hact Hagg) as (_ & -> & _).
          simpl. apply lookup_delete_eq.
      - destruct (end_operation_unknown env w id Hact) as (_ & -> & _). exact Hact. }
    destruct (end_operation_unknown env _ id Hgone) as (Hr & Hi & _).
    split; assumption.
  - intros a agg Hact Hagg.
    destruct (end_operation_known env w id a agg Hact Hagg) as (_ & Hi & _).
    assert (Hgone : active_operations (inst (snd (end_operation id env w))) !! id = None).
    { rewrite Hi. simpl. apply lookup_delete_eq. }
    destruct (end_operation_unknown env _ id Hgone) as (_ & Hi2 & _).
    cbv zeta. rewrite Hi2, Hi. simpl. repeat split.
Qed.

(** A fabricated id on a session with a completed and an active
    operation, and the active id ended twice. *)
Lemma end_operation_stale_noop_witness :
  active_operations (inst demo_world_active) !! "no_such_id" = None ∧
  inst (snd (end_operation "no_such_id" demo_env demo_world_active))
    = inst demo_world_active ∧
  length (operations (inst (snd (end_operation "llm_calls_b_103/1" demo_env
            (snd (end_operation "llm_calls_b_103/1" demo_env demo_world_active))))))
    = 2.
Proof.
  assert (H : active_operations (inst demo_world_active) !! "no_such_id" = None)
    by (reflexivity).
  split; [ exact H | split ].
  - exact (proj2 (proj1 (end_operation_stale_noop demo_env demo_world_active "no_such_id") H)).
  - reflexivity.
Defined.

(** ** C4: starting an operation *)

(** C4.  [start_operation] raises exactly when the category is not one of
    the six of [CATEGORIES]; when it raises, it raises [ValueError] and
    nothing at all has changed (no session started, no entry created).
    With a valid category it returns an id; if no session was started it
    first starts one (the instance is that of [start_session] at the
    current clock reading), and in both cases the only change to that
    instance is that the returned id is bound to the new entry: every
    other id is bound as before. *)
Theorem start_operation_raises_iff_invalid (env : Env) (w : World)
    (cat name : string) (md : option Metadata) :
  ((∃ e, fst (start_operation cat name md env w) = Raise e) ↔ cat ∉ CATEGORIES) ∧
  (cat ∉ CATEGORIES → start_operation cat name md env w = (Raise ValueError, w)) ∧
  (cat ∈ CATEGORIES →
     ∃ id a,
       fst (start_operation cat name md env w) = Ok id ∧
       a_category a = cat ∧ a_operation_name a = name ∧
       a_metadata a = default ∅ md ∧
       let before :=
         match start_time (inst w) with
         | None => session_started (clock env (ticks w))
         | Some _ => inst w
         end in
       let after := inst (snd (start_operation cat name md env w)) in
       after = registered id a before ∧
       active_operations after !! id = Some a ∧
       (∀ id', id' ≠ id →
          active_operations after !! id' = active_operations before !! id') ∧
       size (active_operations after)
         = (if decide (id ∈ dom (active_operations before))
            then size (active_operations before)
            else S (size (active_operations before)))).
Proof.
  assert (Hvalid : cat ∈ CATEGORIES →
     ∃ id a,
       fst (start_operation cat name md env w) = Ok id ∧
       a_category a = cat ∧ a_operation_name a = name ∧
       a_metadata a = default ∅ md ∧
       inst (snd (start_operation cat name md env w))
         = registered id a
             match start_time (inst w) with
             | None => session_started (clock env (ticks w))
             | Some _ => inst w
             end).
  { intros Hin. destruct (start_time (inst w)) as [t | ] eqn:Hst.
    - destruct (start_operation_running env w cat name md t Hin Hst) as (Hr & Hi & _).
      exists (operation_id_of env cat name (clock env (ticks w))),
             (new_active cat name (clock env (S (ticks w))) md).
      split; [ exact Hr | ]. do 3 (split; [ reflexivity | ]). exact Hi.
    - destruct (start_operation_fresh env w cat name md Hin Hst) as (Hr & Hi & _).
      exists (operation_id_of env cat name (clock env (S (ticks w)))),
             (new_active cat name (clock env (S (S (ticks w)))) md).
      split; [ exact Hr | ]. do 3 (split; [ reflexivity | ]). exact Hi. }
  split; [ | split ].
  - split.
    + intros [e He] Hin. destruct (Hvalid Hin) as (id & a & Hr & _). congruence.
    + intros Hout. exists ValueError. rewrite start_operation_invalid by exact Hout.
      reflexivity.
  - apply start_operation_invalid.
  - intros Hin. destruct (Hvalid Hin) as (id & a & Hr & Hc & Hn & Hm & Hi).
    exists id, a. split; [ exact Hr | ]. split; [ exact Hc | ].
    split; [ exact Hn | ]. split; [ exact Hm | ]. cbv zeta. rewrite Hi.
    split; [ reflexivity | ]. unfold registered. simpl.
    split; [ apply lookup_insert_eq | split ].
    + intros id' Hne. apply lookup_insert_ne. congruence.
    + destruct (decide (id ∈ dom _)) as [Hd | Hd].
      * apply elem_of_dom in Hd. apply map_size_insert_Some, Hd.
      * apply not_elem_of_dom in Hd. apply map_size_insert_None, Hd.
Qed.

(** A valid start on a running session and an invalid one. *)
Lemma start_operation_raises_iff_invalid_witness :
  ("llm_calls" ∈ CATEGORIES) ∧ ("gpu_calls" ∉ CATEGORIES) ∧
  start_operation "gpu_calls" "x" None demo_env demo_world_active
    = (Raise ValueError, demo_world_active) ∧
  size (active_operations
          (inst (snd (start_operation "llm_calls" "c" None demo_env demo_world_active))))
    = 2.
Proof.
  assert (Hin : "llm_calls" ∈ CATEGORIES)
    by (apply (bool_decide_unpack _); vm_compute; exact I).
  assert (Hout : "gpu_calls" ∉ CATEGORIES)
    by (apply (bool_decide_unpack _); vm_compute; exact I).
  split; [ exact Hin | split; [ exact Hout | split ] ].
  - exact (proj1 (proj2 (start_operation_raises_iff_invalid
                           demo_env demo_world_active "gpu_calls" "x" None)) Hout).
  - reflexivity.
Defined.

(** ** C5: the keys of a statistics object *)

Lemma mk_stats_dom (v1 v2 v3 v4 v5 v6 v7 : pynum) :
  dom (mk_stats v1 v2 v3 v4 v5 v6 v7) = stats_keys.
Proof.
  unfold mk_stats, stats_keys. rewrite dom_list_to_map_L. simpl. set_solver.
Qed.

Lemma mk_stats_percentage (v1 v2 v3 v4 v5 v6 v7 : pynum) :
  mk_stats v1 v2 v3 v4 v5 v6 v7 !! "percentage" = None.
Proof. reflexivity. Qed.

Lemma mk_stats_timeline (v1 v2 v3 v4 v5 v6 v7 : pynum) :
  mk_stats v1 v2 v3 v4 v5 v6 v7 !! "timeline_percentage" = Some v7.
Proof. reflexivity. Qed.


Lemma summary_category_shape (sd : Q) (acc acc' : gmap string Stats) (cat : string)
    (env : Env) (w w' : World) :
  summary_category sd acc cat env w = (Ok acc', w') →
  ∃ st, is_stats st ∧ acc' = <[cat := st]> acc.
Proof.
  unfold summary_category, bind at 1, read_attr at 1. cbn [inst].
  destruct (aggregates (inst w) !! cat) as [agg | ]; [ | discriminate ].
  destruct (decide (0 < count agg)).
  - unfold bind, lift, ret.
    destruct (Qlt_bool 0 sd);
      [ destruct (py_truediv (total_time agg) sd) as [q | e]; [ | discriminate ] | ].
    all: destruct (_calculate_timeline_coverage cat sd env _) as [[tl | e] w2];
      [ | discriminate ].
    all: destruct (py_truediv _ _) as [avg | e]; [ | discriminate ].
    all: intros [= <- _].
    all: eexists; split; [ | reflexivity ]; unfold nonzero_stats; do 7 eexists; reflexivity.
  - unfold ret. intros [= <- _].
    eexists. split; [ | reflexivity ]. unfold zero_stats. do 7 eexists. reflexivity.
Qed.

Lemma for_each_summary_shape (sd : Q) (env : Env) (cats : list string) :
  ∀ (acc res : gmap string Stats) (w w' : World),
  for_each (summary_category sd) cats acc env w = (Ok res, w') →
  (∀ c st, acc !! c = Some st → is_stats st) →
  ∀ c st, res !! c = Some st → is_stats st.
Proof.
  induction cats as [ | x cats IH ]; intros acc res w w' Hrun Hacc; simpl in Hrun.
  - injection Hrun as <- _. exact Hacc.
  - unfold bind in Hrun.
    destruct (summary_category sd acc x env w) as [[acc1 | e] w1] eqn:Hstep;
      [ | discriminate ].
    apply summary_category_shape in Hstep as (st0 & Hst0 & ->).
    apply (IH _ _ _ _ Hrun).
    intros c st [[_ <-] | [_ H]]%lookup_insert_Some; [ exact Hst0 | eapply Hacc, H ].
Qed.

Lemma get_summary_shape (env : Env) (w w' : World) (s : Summary) :
  get_summary env w = (Ok s, w') →
  ∀ c st, categories s !! c = Some st → is_stats st.
Proof.
  unfold get_summary, with_lock, emit. cbn [fst snd].
  unfold bind at 1, read_attr at 1. cbn [inst ticks events].
  unfold bind at 1.
  match goal with |- context [?m env ?w0] =>
    destruct (m env w0) as [[sd | e] w1]
  end; [ | discriminate ].
  unfold bind at 1, read_attr at 1. unfold bind at 1.
  match goal with |- context [for_each ?b ?cs ?a env ?w0] =>
    destruct (for_each b cs a env w0) as [[cats | e] w2] eqn:Hloop
  end; [ | discriminate ].
  unfold ret. intros [= <- _]. cbn [categories].
  apply (for_each_summary_shape _ _ _ _ _ _ _ Hloop).
  intros c st H. rewrite lookup_empty in H. discriminate.
Qed.

(** C5.  In every session state, every per-category statistics object of
    the summary [get_summary] returns has exactly the keys [total_time],
    [count], [average_time], [min_time], [max_time],
    [cumulative_percentage] and [timeline_percentage]; there is no key
    [percentage], so the read [stats['percentage']] of the consumers
    raises [KeyError]. *)
Theorem summary_stats_keys (env : Env) (w w' : World) (s : Summary)
    (c : string) (stats : Stats) :
  get_summary env w = (Ok s, w') →
  categories s !! c = Some stats →
  dom stats = stats_keys ∧
  ("percentage" ∉ dom stats) ∧
  read_percentage stats = Raise (KeyError "percentage").
Proof.
  intros Hrun Hc.
  destruct (get_summary_shape env w w' s Hrun c stats Hc)
    as (v1 & v2 & v3 & v4 & v5 & v6 & v7 & ->).
  split; [ apply mk_stats_dom | split ].
  - apply not_elem_of_dom, mk_stats_percentage.
  - unfold read_percentage, getitem. rewrite mk_stats_percentage. reflexivity.
Qed.

(** The [llm_calls] statistics of the demo session. *)
Lemma summary_stats_keys_witness :
  get_summary demo_env demo_world = (Ok demo_summary, demo_after_summary) ∧
  categories demo_summary !! "llm_calls" = Some demo_llm_stats ∧
  demo_llm_stats !! "count" = Some (Num 2) ∧
  dom demo_llm_stats = stats_keys ∧
  read_percentage demo_llm_stats = Raise (KeyError "percentage").
Proof.
  assert (Hrun : get_summary demo_env demo_world = (Ok demo_summary, demo_after_summary))
    by (reflexivity).
  assert (Hc : categories demo_summary !! "llm_calls" = Some demo_llm_stats)
    by (reflexivity).
  split; [ exact Hrun | split; [ exact Hc | split; [ reflexivity | ] ] ].
  destruct (summary_stats_keys demo_env demo_world demo_after_summary demo_summary
              "llm_calls" demo_llm_stats Hrun Hc) as (Hd & _ & Hp).
  split; assumption.
Defined.

(** ** C6: counts and the completed log *)

Lemma count_inv_fields (s s' : Instrumentor) :
  operations s' = operations s → aggregates s' = aggregates s →
  count_inv s → count_inv s'.
Proof. unfold count_inv. intros -> ->. auto. Qed.

Lemma count_inv_empty (st : option Q) (act : gmap string ActiveOp) :
  count_inv {| operations := []; active_operations := act;
               aggregates := fresh_aggregates; start_time := st |}.
Proof.
  intros c Hc. exists init_agg. split; [ apply fresh_aggregates_lookup, Hc | reflexivity ].
Qed.

Lemma count_inv_start_operation (env : Env) (w : World) (cat name : string)
    (md : option Metadata) :
  count_inv (inst w) → count_inv (inst (snd (start_operation cat name md env w))).
Proof.
  intros H. destruct (decide (cat ∈ CATEGORIES)) as [Hin | Hout].
  - destruct (start_time (inst w)) as [t | ] eqn:Hst.
    + destruct (start_operation_running env w cat name md t Hin Hst) as (_ & -> & _).
      exact H.
    + destruct (start_operation_fresh env w cat name md Hin Hst) as (_ & -> & _).
      apply count_inv_empty.
  - rewrite start_operation_invalid by exact Hout. exact H.
Qed.

Lemma count_inv_end_operation (env : Env) (w : World) (id : string) :
  count_inv (inst w) → count_inv (inst (snd (end_operation id env w))).
Proof.
  intros H. destruct (active_operations (inst w) !! id) as [a | ] eqn:Hact.
  - destruct (aggregates (inst w) !! a_category a) as [agg | ] eqn:Hagg.
    + destruct (end_operation_known env w id a agg Hact Hagg) as (_ & -> & _).
      intros c Hc. simpl. rewrite category_ops_snoc. simpl.
      destruct (H c Hc) as (agg' & Hl & Hcount).
      destruct (decide (a_category a = c)) as [<- | Hne].
      * rewrite lookup_insert_eq. eexists. split; [ reflexivity | ].
        rewrite Hagg in Hl. injection Hl as <-.
        rewrite length_app. simpl. lia.
      * rewrite lookup_insert_ne by exact Hne. rewrite app_nil_r. eauto.
    + destruct (end_operation_nokey env w id a Hact Hagg) as (_ & -> & _).
      intros c Hc. simpl. rewrite category_ops_snoc. simpl.
      destruct (H c Hc) as (agg' & Hl & Hcount).
      rewrite decide_False by congruence. rewrite app_nil_r. eauto.
  - destruct (end_operation_unknown env w id Hact) as (_ & -> & _). exact H.
Qed.

Lemma count_inv_exec (env : Env) (call : Call) (w : World) :
  count_inv (inst w) → count_inv (inst (snd (exec call env w))).
Proof.
  apply (exec_preserves (λ w, count_inv (inst w)) env).
  - intros w0 _. destruct (reset_effect env w0) as (_ & -> & _). apply count_inv_empty.
  - intros w0 _. destruct (start_session_effect env w0) as (_ & -> & _).
    apply count_inv_empty.
  - intros w0 cat name md. apply count_inv_start_operation.
  - intros w0 id. apply count_inv_end_operation.
  - intros w0 w1 H Hi _. rewrite Hi. exact H.
Qed.

Lemma count_inv_run (env : Env) (calls : list Call) :
  count_inv (inst (run_calls env calls)).
Proof.
  apply (run_calls_preserves (λ w, count_inv (inst w)) env).
  - intros w0 _. destruct (reset_effect env w0) as (_ & -> & _). apply count_inv_empty.
  - intros w0 _. destruct (start_session_effect env w0) as (_ & -> & _).
    apply count_inv_empty.
  - intros w0 cat name md. apply count_inv_start_operation.
  - intros w0 id. apply count_inv_end_operation.
  - intros w0 w1 H Hi _. rewrite Hi. exact H.
  - apply count_inv_empty.
Qed.

(** C6.  After every sequence of calls of the public methods on a fresh
    instance, the count stored for each category is the number of records
    of that category in the completed log.  The equality is kept by every
    single call made in a state where it holds: [reset] leaves an empty log
    and all counts at zero, an [end_operation] that finds its id appends
    one record and raises the count of its category by one in the same
    call, leaving the other aggregates alone, and [start_operation] on a
    started session touches neither the log nor the aggregates. *)
Theorem count_matches_log (env : Env) :
  (∀ calls c, c ∈ CATEGORIES →
     ∃ agg, aggregates (inst (run_calls env calls)) !! c = Some agg ∧
            count agg
            = length (category_ops c (operations (inst (run_calls env calls))))) ∧
  (∀ call w, count_inv (inst w) → count_inv (inst (snd (exec call env w)))) ∧
  (∀ w, operations (inst (snd (reset env w))) = [] ∧
        ∀ c, c ∈ CATEGORIES →
             count <$> aggregates (inst (snd (reset env w))) !! c = Some 0) ∧
  (∀ w id a agg,
     active_operations (inst w) !! id = Some a →
     aggregates (inst w) !! a_category a = Some agg →
     let w' := snd (end_operation id env w) in
     (∃ r, operations (inst w') = operations (inst w) ++ [r] ∧
           category r = a_category a) ∧
     count <$> aggregates (inst w') !! a_category a = Some (S (count agg)) ∧
     ∀ c, c ≠ a_category a → aggregates (inst w') !! c = aggregates (inst w) !! c) ∧
  (∀ w cat name md,
     is_Some (start_time (inst w)) →
     let w' := snd (start_operation cat name md env w) in
     operations (inst w') = operations (inst w) ∧
     aggregates (inst w') = aggregates (inst w)).
Proof.
  split; [ | split; [ | split; [ | split ] ] ].
  - intros calls. apply count_inv_run.
  - intros call w. apply count_inv_exec.
  - intros w. destruct (reset_effect env w) as (_ & -> & _). split; [ reflexivity | ].
    intros c Hc. simpl. rewrite (fresh_aggregates_lookup c Hc). reflexivity.
  - intros w id a agg Hact Hagg.
    destruct (end_operation_known env w id a agg Hact Hagg) as (_ & Hi & _).
    cbv zeta. rewrite Hi. simpl. split; [ | split ].
    + eexists. split; reflexivity.
    + rewrite lookup_insert_eq. reflexivity.
    + intros c Hne. apply lookup_insert_ne. congruence.
  - intros w cat name md [t Hst]. cbv zeta.
    destruct (decide (cat ∈ CATEGORIES)) as [Hin | Hout].
    + destruct (start_operation_running env w cat name md t Hin Hst) as (_ & -> & _).
      split; reflexivity.
    + rewrite start_operation_invalid by exact Hout. split; reflexivity.
Qed.

(** ** C7: the summary of a session without completed operations *)

Lemma mk_stats_lookup_zero (key : string) (v : pynum) :
  zero_stats !! key = Some v → v = Num 0.
Proof.
  unfold zero_stats, mk_stats. intros H%elem_of_list_to_map_2.
  repeat (apply elem_of_cons in H as [[= _ <-] | H]; [ reflexivity | ]).
  apply elem_of_nil in H. contradiction.
Qed.

(** C7.  On an instance whose counts match an empty completed log (a fresh
    one, one just reset, or a session without completed operations),
    [get_summary] returns normally: no exception, in particular no
    [ZeroDivisionError].  It reports [total_operations = 0], a session
    duration of [0] when [start_time] is unset, and for every category the
    statistics object with all seven fields [0]; [min_time] is [0] and not
    the [inf] the aggregate starts from. *)
Theorem empty_session_summary (env : Env) (w : World) :
  count_inv (inst w) → operations (inst w) = [] →
  ∃ s w',
    get_summary env w = (Ok s, w') ∧
    inst w' = inst w ∧
    total_operations s = 0 ∧
    (start_time (inst w) = None → session_duration s = 0%Q) ∧
    ∀ c, c ∈ CATEGORIES →
      categories s !! c = Some zero_stats ∧
      (∀ key v, zero_stats !! key = Some v → v = Num 0) ∧
      stat s c "min_time" = Some (Num 0) ∧
      stat s c "max_time" = Some (Num 0) ∧
      (inst w = init_instrumentor →
       min_time <$> aggregates (inst w) !! c = Some Inf).
Proof.
  intros Hcount Hops.
  destruct (get_summary_returns env w) as (s & w' & Hrun & Hi & Hsd & Htot & Hcats).
  { intros c Hc. destruct (Hcount c Hc) as (agg & -> & _). eauto. }
  exists s, w'. split; [ exact Hrun | ]. split; [ exact Hi | ].
  split; [ rewrite Htot, Hops; reflexivity | ].
  split.
  { intros Hst. rewrite Hsd. unfold summary_duration. rewrite Hst. reflexivity. }
  intros c Hc.
  assert (Hz : categories s !! c = Some zero_stats).
  { rewrite Hcats, decide_True by exact Hc.
    destruct (Hcount c Hc) as (agg & -> & Hn). simpl.
    rewrite Hops in Hn. simpl in Hn. unfold stats_of.
    rewrite decide_False by lia. reflexivity. }
  split; [ exact Hz | ]. split; [ apply mk_stats_lookup_zero | ].
  unfold stat. rewrite Hz. simpl.
  split; [ reflexivity | ]. split; [ reflexivity | ].
  intros ->. simpl. rewrite (fresh_aggregates_lookup c Hc). reflexivity.
Qed.

(** The summary of the demo session after a [reset]. *)
Lemma empty_session_summary_witness :
  count_inv (inst (snd (reset demo_env demo_world))) ∧
  operations (inst (snd (reset demo_env demo_world))) = [] ∧
  ∃ s w',
    get_summary demo_env (snd (reset demo_env demo_world)) = (Ok s, w') ∧
    total_operations s = 0 ∧
    session_duration s = 0%Q ∧
    stat s "llm_calls" "min_time" = Some (Num 0).
Proof.
  assert (Hc : count_inv (inst (snd (reset demo_env demo_world))))
    by apply (count_inv_empty None ∅).
  assert (Ho : operations (inst (snd (reset demo_env demo_world))) = [])
    by reflexivity.
  split; [ exact Hc | split; [ exact Ho | ] ].
  destruct (empty_session_summary demo_env (snd (reset demo_env demo_world)) Hc Ho)
    as (s & w' & Hrun & _ & Htot & Hsd & Hcats).
  exists s, w'. split; [ exact Hrun | split; [ exact Htot | split ] ].
  - apply Hsd. reflexivity.
  - apply (Hcats "llm_calls"). apply (bool_decide_unpack _). vm_compute. exact I.
Defined.

(** ** C1: the timeline coverage formula *)



Lemma coverage_value_empty (ops : list OpRecord) (c : string) (sd : Q) :
  category_ops c ops = [] → coverage_value ops c sd = 0%Q.
Proof.
  intros H. unfold coverage_value. rewrite H. destruct (Qle_bool sd 0); reflexivity.
Qed.

Lemma stats_of_timeline (ops : list OpRecord) (sd : Q) (c : string) (agg : Agg) :
  count agg = length (category_ops c ops) →
  ∃ v, stats_of ops sd c agg !! "timeline_percentage" = Some (Num v) ∧
       (v == coverage_value ops c sd)%Q.
Proof.
  intros Hn. unfold stats_of. destruct (decide (0 < count agg)) as [Hpos | Hz].
  - exists (coverage_value ops c sd). split; [ apply mk_stats_timeline | reflexivity ].
  - exists 0%Q. split; [ apply mk_stats_timeline | ].
    rewrite coverage_value_empty; [ reflexivity | ].
    apply length_zero_iff_nil. lia.
Qed.

(** ** The value returned *)









(** ** C2: the timeline percentage lies between 0 and 100 *)

Lemma coverage_value_bounds (ops : list OpRecord) (c : string) (sd : Q) :
  ((0 < sd)%Q →
   Forall (λ iv, 0 <= fst iv ∧ proper iv ∧ snd iv <= sd)%Q (category_intervals c ops)) →
  (0 <= coverage_value ops c sd ∧ coverage_value ops c sd <= 100)%Q.
Proof.
  intros Hall. unfold coverage_value.
  destruct (Qle_bool sd 0) eqn:E; [ split; lra | ].
  apply Qle_bool_false in E. specialize (Hall E).
  destruct (category_ops c ops) as [ | r l ] eqn:Hops; [ split; lra | ].
  set (sorted := py_sort tuple_lt (category_intervals c ops)).
  destruct (merge_total_bound sd sorted) as [Hlo Hhi].
  - lra.
  - unfold sorted. rewrite py_sort_perm. exact Hall.
  - apply lex_sorted_ascending, py_sort_sorted.
  - apply py_round_percent_bounds.
    + rewrite merge_intervals_spec, sum_lengths_total.
      apply Qmult_le_0_compat; [ | lra ].
      apply Qle_shift_div_l; [ exact E | lra ].
    + rewrite merge_intervals_spec, sum_lengths_total.
      assert (H1 : (total_length (spec_merge sorted) / sd <= 1)%Q).
      { apply Qle_shift_div_r; [ exact E | lra ]. }
      lra.
Qed.

Lemma timed_intervals (env : Env) (w : World) (c : string) :
  well_formed (inst w) → timed env w →
  (0 < summary_duration env w)%Q →
  Forall (λ iv, 0 <= fst iv ∧ proper iv ∧ snd iv <= summary_duration env w)%Q
         (category_intervals c (operations (inst w))).
Proof.
  intros (_ & _ & _ & Hr & _) Ht Hsd. unfold summary_duration in *.
  destruct (start_time (inst w)) as [t | ] eqn:Hst; [ | lra ].
  destruct (truthy t) eqn:Htr; [ | lra ].
  destruct (Ht t Hst) as (_ & Hrec & _).
  unfold category_intervals, category_ops.
  apply Forall_fmap, Forall_forall. intros r [_ Hin]%list_elem_of_filter.
  destruct (Hr r Hin) as (_ & _ & Hs & He).
  destruct (Hrec r Hin) as (H1 & H2 & H3).
  unfold proper. simpl. rewrite Hs, He. unfold relative_to. rewrite Htr.
  repeat split; lra.
Qed.

(** C2.  After every sequence of calls run under a monotone clock,
    [get_summary] returns a summary in which the [timeline_percentage] of
    every category entry is a number between 0 and 100 inclusive. *)
Theorem timeline_percentage_bounded (env : Env) (calls : list Call) :
  monotone_clock env →
  ∃ s w',
    get_summary env (run_calls env calls) = (Ok s, w') ∧
    (∀ c, c ∈ CATEGORIES → is_Some (categories s !! c)) ∧
    ∀ c stats, categories s !! c = Some stats →
      ∃ q, stats !! "timeline_percentage" = Some (Num q) ∧ (0 <= q ∧ q <= 100)%Q.
Proof.
  intros Hmono.
  destruct (timed_run env Hmono calls) as [Hw Ht].
  set (w := run_calls env calls) in *.
  assert (Hcount : count_inv (inst w)) by apply Hw.
  destruct (get_summary_returns env w) as (s & w' & Hrun & Hi & Hsd & Htot & Hcats).
  { intros c Hc. destruct (Hcount c Hc) as (agg & -> & _). eauto. }
  exists s, w'. split; [ exact Hrun | ]. split.
  { intros c Hc. rewrite Hcats, decide_True by exact Hc.
    destruct (Hcount c Hc) as (agg & -> & _). simpl. eauto. }
  intros c stats. rewrite Hcats.
  destruct (decide (c ∈ CATEGORIES)) as [Hc | Hc]; [ | discriminate ].
  destruct (Hcount c Hc) as (agg & Hagg & Hn). rewrite Hagg. simpl. intros [= <-].
  destruct (stats_of_timeline (operations (inst w)) (summary_duration env w) c agg Hn)
    as (v & Hv & Heq).
  exists v. split; [ exact Hv | ].
  rewrite Heq. apply coverage_value_bounds.
  intros Hpos. apply timed_intervals; assumption.
Qed.

Lemma linear_env_monotone (start step : Q) :
  (0 <= step)%Q → monotone_clock (linear_env start step).
Proof.
  intros Hstep i j Hij. simpl.
  assert (H : (inject_Z (Z.of_nat i) <= inject_Z (Z.of_nat j))%Q).
  { rewrite <- Zle_Qle. lia. }
  nra.
Qed.

(** Three overlapping operations: the cumulative percentage is 120, the
    timeline percentage 70. *)
Lemma timeline_percentage_bounded_witness :
  monotone_clock demo_env ∧
  get_summary demo_env (run_calls demo_env overlap_calls)
    = (Ok overlap_summary, overlap_after_summary) ∧
  stat overlap_summary "llm_calls" "cumulative_percentage" = Some (Num (12000 # 100)) ∧
  ∃ q, stat overlap_summary "llm_calls" "timeline_percentage" = Some (Num q) ∧
       (0 <= q ∧ q <= 100)%Q.
Proof.
  assert (Hm : monotone_clock demo_env) by (apply linear_env_monotone; discriminate).
  assert (Hrun : get_summary demo_env (run_calls demo_env overlap_calls)
                 = (Ok overlap_summary, overlap_after_summary)) by reflexivity.
  split; [ exact Hm | split; [ exact Hrun | split; [ reflexivity | ] ] ].
  destruct (timeline_percentage_bounded demo_env overlap_calls Hm)
    as (s & w' & Hrun' & _ & Hb).
  rewrite Hrun in Hrun'. injection Hrun' as <- _.
  destruct (Hb "llm_calls" (default ∅ (categories overlap_summary !! "llm_calls")))
    as (q & Hq & Hbound); [ reflexivity | ].
  exists q. split; [ exact Hq | exact Hbound ].
Defined.

(** ** C8: without overlap the two percentages agree *)







(** ** C10: no record without a session start *)

(** C10.  After every sequence of calls of the public methods ([reset],
    [start_session], [start_operation], [end_operation],
    [track_operation] and the queries), an unset [start_time] means that
    both the completed log and the active map are empty.  Hence whenever
    [end_operation] finds an active entry, and for every record of the
    log, [start_time] is set: the record's relative timestamps are those
    computed from it, and they are [start - start_time] and
    [end - start_time] unless that reading is the float [0.0], which
    Python's truth test cannot tell from an unset one. *)
Theorem unset_start_time_means_empty (env : Env) (calls : list Call) :
  let s := inst (run_calls env calls) in
  (start_time s = None → operations s = [] ∧ active_operations s = ∅) ∧
  (∀ id a, active_operations s !! id = Some a → is_Some (start_time s)) ∧
  (∀ r, r ∈ operations s →
     ∃ t, start_time s = Some t ∧
          relative_start r = relative_to (Some t) (op_start_time r) 0 ∧
          relative_end r = relative_to (Some t) (op_end_time r) (duration r) ∧
          (¬ (t == 0)%Q →
           relative_start r = (op_start_time r - t)%Q ∧
           relative_end r = (op_end_time r - t)%Q)).
Proof.
  cbv zeta. destruct (well_formed_run env calls) as (_ & _ & Hn & Hr & _).
  set (s := inst (run_calls env calls)) in *.
  split; [ exact Hn | split ].
  - intros id a Hact. destruct (start_time s) as [t | ]; [ eauto | ].
    destruct (Hn eq_refl) as [_ He]. rewrite He, lookup_empty in Hact. discriminate.
  - intros r Hin. destruct (Hr r Hin) as (_ & _ & Hs & He).
    destruct (start_time s) as [t | ].
    + exists t. split; [ reflexivity | ]. split; [ exact Hs | ]. split; [ exact He | ].
      intros Ht. rewrite Hs, He. unfold relative_to, truthy.
      destruct (Qeq_bool t 0) eqn:E; [ apply Qeq_bool_iff in E; contradiction | ].
      split; reflexivity.
    + destruct (Hn eq_refl) as [He' _]. rewrite He' in Hin.
      apply elem_of_nil in Hin. contradiction.
Qed.

(** A [with track_operation(...)] block whose body asks for the summary
    and then fails: the session is started implicitly, and the record the
    [finally] clause appends is relative to that start. *)
Lemma unset_start_time_means_empty_witness :
  let s := inst (run_calls demo_env
                   [ CTrackOperation "llm_calls" "t" None
                       (λ _, [ CGetSummary; HostRaise ]) ]) in
  start_time s = Some 100%Q ∧
  active_operations s = ∅ ∧
  length (operations s) = 1 ∧
  Forall (λ r, relative_start r = (op_start_time r - 100)%Q ∧
               relative_end r = (op_end_time r - 100)%Q) (operations s).
Proof.
  cbv zeta.
  pose proof (unset_start_time_means_empty demo_env
                [ CTrackOperation "llm_calls" "t" None
                    (λ _, [ CGetSummary; HostRaise ]) ]) as (_ & _ & Hr).
  cbv zeta in Hr.
  set (s := inst (run_calls demo_env _)) in *.
  assert (Hst : start_time s = Some 100%Q) by reflexivity.
  split; [ exact Hst | split; [ reflexivity | split; [ reflexivity | ] ] ].
  apply Forall_forall. intros r Hin.
  destruct (Hr r Hin) as (t & Ht & _ & _ & Hex).
  rewrite Hst in Ht. injection Ht as <-.
  apply Hex. discriminate.
Defined.

(** The one start reading the truth test of [end_operation] and
    [get_summary] cannot tell from an unset one: with a clock that reads
    [0.0] at the session start, the record of an operation that ran from
    [2] to [3] gets the default relative timestamps [0] and [duration]. *)
Example zero_start_reading_takes_default :
  let s := inst (run_calls (linear_env 0 1)
                   [ CStartSession;
                     CStartOperation "llm_calls" "a" None;
                     CEndOperation "llm_calls_a_1/1" ]) in
  start_time s = Some 0%Q ∧
  op_start_time <$> operations s = [2%Q] ∧
  op_end_time <$> operations s = [3%Q] ∧
  relative_start <$> operations s = [0%Q] ∧
  relative_end <$> operations s = [(3 - 2)%Q].
Proof. cbv zeta. repeat split; reflexivity. Qed.

(** ** C9: which mutations hold the lock *)

Lemma trace_of_app {A} (m : M A) (env : Env) (w : World) (tr : list Event) :
  events (snd (m env w)) = events w ++ tr → trace_of m env w = tr.
Proof. intros H. unfold trace_of. rewrite H. apply drop_app_length. Qed.

Lemma reset_trace (env : Env) (w : World) :
  trace_of reset env w
  = [ EvAcquire; EvWrite FOperations; EvWrite FActiveOperations;
      EvWrite FAggregates; EvWrite FStartTime; EvRelease ].
Proof.
  apply trace_of_app. unfold reset. run_monad. rewrite <- !app_assoc. reflexivity.
Qed.

Lemma start_session_trace (env : Env) (w : World) :
  trace_of start_session env w
  = [ EvAcquire; EvWrite FOperations; EvWrite FActiveOperations;
      EvWrite FAggregates; EvWrite FStartTime; EvRelease;
      EvClock; EvWrite FStartTime ].
Proof.
  apply trace_of_app. unfold start_session, reset. run_monad.
  rewrite <- !app_assoc. reflexivity.
Qed.

Lemma end_operation_trace_locked (env : Env) (w : World) (id : string) :
  unlocked_writes false (trace_of (end_operation id) env w) = [].
Proof.
  destruct (active_operations (inst w) !! id) as [a | ] eqn:Hact;
    [ destruct (aggregates (inst w) !! a_category a) as [agg | ] eqn:Hagg | ].
  - erewrite trace_of_app; [ | unfold end_operation; run_monad; rewrite Hact;
      cbn [inst ticks events fst snd aggregates]; rewrite Hagg;
      cbn [inst ticks events fst snd]; rewrite <- !app_assoc; reflexivity ].
    reflexivity.
  - erewrite trace_of_app; [ | unfold end_operation; run_monad; rewrite Hact;
      cbn [inst ticks events fst snd aggregates]; rewrite Hagg;
      cbn [inst ticks events fst snd]; rewrite <- !app_assoc; reflexivity ].
    reflexivity.
  - erewrite trace_of_app; [ | unfold end_operation; run_monad; rewrite Hact;
      cbn [inst ticks events fst snd]; rewrite <- !app_assoc; reflexivity ].
    reflexivity.
Qed.

Lemma start_operation_trace_running (env : Env) (w : World) (cat name : string)
    (md : option Metadata) :
  is_Some (start_time (inst w)) →
  unlocked_writes false (trace_of (start_operation cat name md) env w) = [].
Proof.
  intros [t Hst]. unfold start_operation.
  destruct (decide (cat ∈ CATEGORIES)).
  - erewrite trace_of_app; [ | run_monad; rewrite Hst;
      cbn [inst ticks events fst snd]; rewrite <- !app_assoc; reflexivity ].
    reflexivity.
  - unfold trace_of, raise. simpl. rewrite drop_all. reflexivity.
Qed.

Lemma start_operation_trace_fresh (env : Env) (w : World) (cat name : string)
    (md : option Metadata) :
  cat ∈ CATEGORIES → start_time (inst w) = None →
  unlocked_writes false (trace_of (start_operation cat name md) env w) = [FStartTime].
Proof.
  intros Hin Hst. unfold start_operation.
  destruct (decide (cat ∈ CATEGORIES)); [ | contradiction ].
  erewrite trace_of_app; [ | unfold start_session, reset; run_monad; rewrite Hst;
    cbn [inst ticks events fst snd]; rewrite <- !app_assoc; reflexivity ].
  reflexivity.
Qed.

(** What the lock buys: threads whose traces write only under the lock
    never reach a state where one of them writes without owning it, nor
    one where two of them are about to write. *)
Lemma step_pool_locked (i : nat) (p p' : Pool) :
  pool_locked p → step i p = Some p' → pool_locked p'.
Proof.
  intros Hinv. unfold step.
  destruct (threads p !! i) as [[ | ev rest] | ] eqn:Hi; try discriminate.
  pose proof (Hinv i _ Hi) as Hown.
  assert (Hother : ∀ o j tr,
            threads {| owner := o; threads := <[i := rest]> (threads p) |} !! j = Some tr →
            j ≠ i → threads p !! j = Some tr).
  { intros o j tr Hj Hne. simpl in Hj. rewrite list_lookup_insert_ne in Hj by congruence.
    exact Hj. }
  assert (Hself : ∀ o tr,
            threads {| owner := o; threads := <[i := rest]> (threads p) |} !! i = Some tr →
            tr = rest).
  { intros o tr Hj. simpl in Hj.
    rewrite list_lookup_insert_eq in Hj by (eapply lookup_lt_Some; exact Hi).
    congruence. }
  destruct ev as [ | | f | f | ].
  - destruct (owner p) as [o | ] eqn:Ho; [ discriminate | ].
    intros [= <-] j tr Hj. cbn [owner]. destruct (decide (j = i)) as [-> | Hne].
    + rewrite (Hself _ _ Hj). rewrite bool_decide_eq_true_2 by reflexivity.
      rewrite bool_decide_eq_false_2 in Hown by discriminate. exact Hown.
    + rewrite bool_decide_eq_false_2 by congruence.
      pose proof (Hinv j tr (Hother _ _ _ Hj Hne)) as H.
      rewrite Ho, bool_decide_eq_false_2 in H by discriminate. exact H.
  - destruct (decide (owner p = Some i)) as [Ho | ]; [ | discriminate ].
    intros [= <-] j tr Hj. cbn [owner]. rewrite bool_decide_eq_false_2 by discriminate.
    destruct (decide (j = i)) as [-> | Hne].
    + rewrite (Hself _ _ Hj). rewrite bool_decide_eq_true_2 in Hown by exact Ho.
      exact Hown.
    + pose proof (Hinv j tr (Hother _ _ _ Hj Hne)) as H.
      rewrite bool_decide_eq_false_2 in H by congruence. exact H.
  - intros [= <-] j tr Hj. cbn [owner]. destruct (decide (j = i)) as [-> | Hne].
    + rewrite (Hself _ _ Hj). exact Hown.
    + apply Hinv, (Hother _ _ _ Hj Hne).
  - intros [= <-] j tr Hj. cbn [owner]. destruct (decide (j = i)) as [-> | Hne].
    + rewrite (Hself _ _ Hj). simpl in Hown.
      destruct (bool_decide (owner p = Some i)); [ exact Hown | discriminate ].
    + apply Hinv, (Hother _ _ _ Hj Hne).
  - intros [= <-] j tr Hj. cbn [owner]. destruct (decide (j = i)) as [-> | Hne].
    + rewrite (Hself _ _ Hj). exact Hown.
    + apply Hinv, (Hother _ _ _ Hj Hne).
Qed.

Lemma run_schedule_pool_locked (sched : list nat) (p p' : Pool) :
  pool_locked p → run_schedule sched p = Some p' → pool_locked p'.
Proof.
  revert p. induction sched as [ | i sched IH ]; intros p Hinv; simpl.
  - intros [= <-]. exact Hinv.
  - destruct (step i p) as [p1 | ] eqn:Hstep; [ | discriminate ].
    apply IH. eapply step_pool_locked; eassumption.
Qed.

Lemma pool_locked_exclusive (p : Pool) :
  pool_locked p →
  (∀ i f, ¬ unlocked_write_pending p i f) ∧ ¬ concurrent_writes p.
Proof.
  intros Hinv.
  assert (Hw : ∀ i f rest, threads p !! i = Some (EvWrite f :: rest) → owner p = Some i).
  { intros i f rest Hi. pose proof (Hinv i _ Hi) as H. simpl in H.
    destruct (bool_decide (owner p = Some i)) eqn:E; [ | discriminate ].
    apply bool_decide_eq_true_1 in E. exact E. }
  split.
  - intros i f (rest & Hi & Hno). apply Hno. eapply Hw, Hi.
  - intros (i & j & f & g & ri & rj & Hne & Hi & Hj).
    apply Hw in Hi. apply Hw in Hj. congruence.
Qed.

(** C9, evaluated.  [reset], [end_operation] and [start_operation] on a
    started session write the attributes only while holding the lock, but
    [start_session] writes [start_time] after [reset] has released it, and
    so does a [start_operation] that starts the session.  What
    [start_session] and [reset] do does not depend on the state they are
    called in, so their traces are those of the calls whenever the threads
    run.  With one thread in [start_session] and another in [reset], the
    schedule that lets the first finish its own [reset] and read the
    clock, and the second take the lock, leaves both about to write: the
    first writes [start_time] while the second owns the lock; three steps
    of the second later, both are about to write [start_time]. *)
Theorem start_session_writes_unlocked :
  (∀ env w, unlocked_writes false (trace_of start_session env w) = [FStartTime]) ∧
  (∀ env w cat name md,
     cat ∈ CATEGORIES → start_time (inst w) = None →
     unlocked_writes false (trace_of (start_operation cat name md) env w)
     = [FStartTime]) ∧
  (∀ env w, unlocked_writes false (trace_of reset env w) = []) ∧
  (∀ env w id, unlocked_writes false (trace_of (end_operation id) env w) = []) ∧
  (∀ env w cat name md,
     is_Some (start_time (inst w)) →
     unlocked_writes false (trace_of (start_operation cat name md) env w) = []) ∧
  (∀ env w,
     trace_of start_session env w
     = [ EvAcquire; EvWrite FOperations; EvWrite FActiveOperations;
         EvWrite FAggregates; EvWrite FStartTime; EvRelease;
         EvClock; EvWrite FStartTime ] ∧
     trace_of reset env w
     = [ EvAcquire; EvWrite FOperations; EvWrite FActiveOperations;
         EvWrite FAggregates; EvWrite FStartTime; EvRelease ]) ∧
  ∀ env wa wb,
    let pool := {| owner := None;
                   threads := [ trace_of start_session env wa;
                                trace_of reset env wb ] |} in
    (∃ p,
       run_schedule [0; 0; 0; 0; 0; 0; 0; 1] pool = Some p ∧
       owner p = Some 1 ∧
       unlocked_write_pending p 0 FStartTime ∧
       concurrent_writes p) ∧
    (∃ p,
       run_schedule [0; 0; 0; 0; 0; 0; 0; 1; 1; 1; 1] pool = Some p ∧
       owner p = Some 1 ∧
       threads p = [ [EvWrite FStartTime]; [EvWrite FStartTime; EvRelease] ]).
Proof.
  split; [ | split; [ | split; [ | split; [ | split; [ | split ] ] ] ] ].
  - intros env w. rewrite start_session_trace. reflexivity.
  - intros env w cat name md. apply start_operation_trace_fresh.
  - intros env w. rewrite reset_trace. reflexivity.
  - intros env w id. apply end_operation_trace_locked.
  - intros env w cat name md. apply start_operation_trace_running.
  - intros env w. split; [ apply start_session_trace | apply reset_trace ].
  - intros env wa wb. cbv zeta. rewrite start_session_trace, reset_trace. split.
    + eexists. split; [ reflexivity | ]. split; [ reflexivity | ]. split.
      * eexists. split; [ reflexivity | discriminate ].
      * exists 0, 1, FStartTime, FOperations. eexists _, _.
        split; [ discriminate | split; reflexivity ].
    + eexists. split; [ reflexivity | ]. split; reflexivity.
Qed.

(** * Further properties of the code *)

(** ** The merged intervals *)

Lemma sweep_starts (rest : list (Q * Q)) (cur : Q * Q) :
  ascending_by_start (cur :: rest) →
  Forall (λ m, fst cur <= fst m)%Q (spec_sweep cur rest).
Proof.
  unfold ascending_by_start.
  revert cur. induction rest as [ | iv rest IH ]; intros cur Hs; simpl.
  - constructor; [ lra | constructor ].
  - inversion Hs as [ | ? ? Hs' Hcur ]; subst.
    inversion Hcur as [ | ? ? Hiv Hcur' ]; subst.
    inversion Hs' as [ | ? ? Hs'' Hivs ]; subst.
    destruct (Qle_bool (fst iv) (snd cur)).
    + apply (IH (fst cur, Qmax (snd cur) (snd iv))).
      constructor; [ exact Hs'' | exact Hcur' ].
    + constructor; [ lra | ].
      eapply Forall_impl; [ apply (IH iv Hs') | ]. simpl. intros m Hm. lra.
Qed.

Lemma sweep_gapped (rest : list (Q * Q)) (cur : Q * Q) :
  proper cur → Forall proper rest → ascending_by_start (cur :: rest) →
  gapped (spec_sweep cur rest) ∧ Forall proper (spec_sweep cur rest).
Proof.
  unfold ascending_by_start, gapped.
  revert cur. induction rest as [ | iv rest IH ]; intros cur Hp Hall Hs; simpl.
  - split; repeat constructor. exact Hp.
  - inversion Hall as [ | ? ? Hiv Hall' ]; subst.
    inversion Hs as [ | ? ? Hs' Hcur ]; subst.
    inversion Hcur as [ | ? ? Hci Hcur' ]; subst.
    inversion Hs' as [ | ? ? Hs'' Hivs ]; subst.
    destruct (Qle_bool (fst iv) (snd cur)) eqn:E.
    + apply (IH (fst cur, Qmax (snd cur) (snd iv))).
      * unfold proper in *. simpl. pose proof (Q.le_max_l (snd cur) (snd iv)). lra.
      * exact Hall'.
      * constructor; [ exact Hs'' | exact Hcur' ].
    + apply Qle_bool_false in E.
      destruct (IH iv Hiv Hall' Hs') as [Hg Hpr].
      split; [ | constructor; assumption ].
      constructor; [ exact Hg | ].
      eapply Forall_impl; [ apply (sweep_starts rest iv Hs') | ].
      simpl. intros m Hm. lra.
Qed.

Lemma sweep_covers (rest : list (Q * Q)) (cur : Q * Q) (t : Q) :
  proper cur → Forall proper rest → ascending_by_start (cur :: rest) →
  covered (spec_sweep cur rest) t ↔ covered (cur :: rest) t.
Proof.
  unfold ascending_by_start, covered.
  revert cur. induction rest as [ | iv rest IH ]; intros cur Hp Hall Hs; simpl.
  - reflexivity.
  - inversion Hall as [ | ? ? Hiv Hall' ]; subst.
    inversion Hs as [ | ? ? Hs' Hcur ]; subst.
    inversion Hcur as [ | ? ? Hci Hcur' ]; subst.
    inversion Hs' as [ | ? ? Hs'' Hivs ]; subst.
    destruct (Qle_bool (fst iv) (snd cur)) eqn:E.
    + apply Qle_bool_iff in E.
      rewrite (IH (fst cur, Qmax (snd cur) (snd iv))).
      * unfold proper, covers in *.
        pose proof (Q.max_spec (snd cur) (snd iv)) as Hmax. simpl.
        split.
        -- intros (m & [-> | Hm]%elem_of_cons & Hc).
           ++ simpl in Hc. destruct (Qlt_le_dec (snd cur) t) as [Hlt | Hle].
              ** exists iv. split; [ right; left | ]. destruct Hmax as [[? ?] | [? ?]]; lra.
              ** exists cur. split; [ left | lra ].
           ++ exists m. split; [ right; right; exact Hm | exact Hc ].
        -- intros (m & [-> | [-> | Hm]%elem_of_cons]%elem_of_cons & Hc).
           ++ eexists. split; [ left | ]. simpl. destruct Hmax as [[? ?] | [? ?]]; lra.
           ++ eexists. split; [ left | ]. simpl. destruct Hmax as [[? ?] | [? ?]]; lra.
           ++ exists m. split; [ right; exact Hm | exact Hc ].
      * unfold proper in *. simpl. pose proof (Q.le_max_l (snd cur) (snd iv)). lra.
      * exact Hall'.
      * constructor; [ exact Hs'' | exact Hcur' ].
    + split.
      * intros (m & [-> | Hm]%elem_of_cons & Hc).
        -- exists cur. split; [ left | exact Hc ].
        -- destruct (proj1 (IH iv Hiv Hall' Hs')) as (m' & Hm' & Hc'); [ eauto | ].
           exists m'. split; [ right; exact Hm' | exact Hc' ].
      * intros (m & [-> | Hm]%elem_of_cons & Hc).
        -- exists cur. split; [ left | exact Hc ].
        -- destruct (proj2 (IH iv Hiv Hall' Hs')) as (m' & Hm' & Hc'); [ eauto | ].
           exists m'. split; [ right; exact Hm' | exact Hc' ].
Qed.

(** X1.  The merge of [_calculate_timeline_coverage] (sort, then sweep),
    run on proper intervals, returns proper intervals that cover exactly
    the instants the given ones cover, each ending strictly before the
    next one starts. *)
Theorem merge_covers_union (l : list (Q * Q)) :
  Forall proper l →
  let merged := merge_intervals (py_sort tuple_lt l) in
  (∀ t, covered merged t ↔ covered l t) ∧ gapped merged ∧ Forall proper merged.
Proof.
  intros Hp merged. unfold merged. rewrite merge_intervals_spec.
  assert (Hps : Forall proper (py_sort tuple_lt l)) by (rewrite py_sort_perm; exact Hp).
  pose proof (lex_sorted_ascending _ (py_sort_sorted l)) as Hs.
  assert (Hcov : ∀ t, covered (py_sort tuple_lt l) t ↔ covered l t).
  { intros t. unfold covered. split; intros (iv & Hin & Hc); exists iv; split; try exact Hc.
    - rewrite <- (py_sort_perm tuple_lt l). exact Hin.
    - rewrite (py_sort_perm tuple_lt l). exact Hin. }
  destruct (py_sort tuple_lt l) as [ | cur rest ]; simpl.
  - split; [ exact Hcov | split; constructor ].
  - inversion Hps as [ | ? ? Hc Hr ]; subst.
    split; [ | apply sweep_gapped; assumption ].
    intros t. rewrite <- Hcov. apply sweep_covers; assumption.
Qed.

(** Four intervals, two of them merged with a third nested one. *)
Lemma merge_covers_union_witness :
  Forall proper [(4, 6); (0, 5); (1, 2); (8, 9)]%Q ∧
  merge_intervals (py_sort tuple_lt [(4, 6); (0, 5); (1, 2); (8, 9)]%Q)
    = [(0, 6); (8, 9)]%Q ∧
  gapped (merge_intervals (py_sort tuple_lt [(4, 6); (0, 5); (1, 2); (8, 9)]%Q)).
Proof.
  assert (Hp : Forall proper [(4, 6); (0, 5); (1, 2); (8, 9)]%Q)
    by (repeat constructor; unfold proper; simpl; lra).
  split; [ exact Hp | split; [ reflexivity | ] ].
  exact (proj1 (proj2 (merge_covers_union _ Hp))).
Defined.

(** ** Merging what is already merged *)

Lemma sort_gapped_id (l : list (Q * Q)) :
  gapped l → Forall proper l → py_sort tuple_lt l = l.
Proof.
  unfold gapped. induction 1 as [ | x l Hl IH Hx ]; intros Hp; simpl.
  - reflexivity.
  - inversion Hp as [ | ? ? Hpx Hpl ]; subst. rewrite (IH Hpl).
    destruct l as [ | y l ]; [ reflexivity | ]. simpl.
    inversion Hx as [ | ? ? Hxy _ ]; subst. unfold proper in Hpx.
    unfold tuple_lt.
    destruct (Qeq_bool (fst y) (fst x)) eqn:E1.
    + apply Qeq_bool_iff in E1. lra.
    + simpl. rewrite (proj2 (Qlt_bool_false (fst y) (fst x))) by lra. reflexivity.
Qed.

Lemma sweep_gapped_id (rest : list (Q * Q)) (cur : Q * Q) :
  gapped (cur :: rest) → spec_sweep cur rest = cur :: rest.
Proof.
  unfold gapped. revert cur. induction rest as [ | iv rest IH ]; intros cur Hg; simpl.
  - reflexivity.
  - inversion Hg as [ | ? ? Hg' Hcur ]; subst.
    inversion Hcur as [ | ? ? Hci _ ]; subst.
    destruct (Qle_bool (fst iv) (snd cur)) eqn:E.
    + apply Qle_bool_iff in E. lra.
    + rewrite (IH iv Hg'). reflexivity.
Qed.

(** X8.  Merging is idempotent: the merged intervals of
    [_calculate_timeline_coverage], sorted and swept once more, come back
    unchanged. *)
Theorem merge_idempotent (l : list (Q * Q)) :
  Forall proper l →
  let merged := merge_intervals (py_sort tuple_lt l) in
  merge_intervals (py_sort tuple_lt merged) = merged.
Proof.
  intros Hp merged.
  assert (Hg : gapped merged ∧ Forall proper merged).
  { unfold merged. rewrite merge_intervals_spec.
    assert (Hps : Forall proper (py_sort tuple_lt l)) by (rewrite py_sort_perm; exact Hp).
    pose proof (lex_sorted_ascending _ (py_sort_sorted l)) as Hs.
    destruct (py_sort tuple_lt l) as [ | cur rest ]; simpl.
    - split; constructor.
    - inversion Hps; subst. apply sweep_gapped; assumption. }
  destruct Hg as [Hg Hpm].
  rewrite (sort_gapped_id merged Hg Hpm), merge_intervals_spec.
  destruct merged as [ | cur rest ]; [ reflexivity | ].
  simpl. apply sweep_gapped_id, Hg.
Qed.

Lemma merge_idempotent_witness :
  Forall proper [(4, 6); (0, 5); (1, 2); (8, 9)]%Q ∧
  merge_intervals
    (py_sort tuple_lt
       (merge_intervals (py_sort tuple_lt [(4, 6); (0, 5); (1, 2); (8, 9)]%Q)))
  = merge_intervals (py_sort tuple_lt [(4, 6); (0, 5); (1, 2); (8, 9)]%Q).
Proof.
  assert (Hp : Forall proper [(4, 6); (0, 5); (1, 2); (8, 9)]%Q)
    by (repeat constructor; unfold proper; simpl; lra).
  split; [ exact Hp | ]. exact (merge_idempotent _ Hp).
Defined.

(** ** Operations that all overlap *)

Lemma sweep_all_merge (rest : list (Q * Q)) (cur : Q * Q) :
  Forall (λ iv, fst iv <= snd cur)%Q rest →
  ∃ hi, spec_sweep cur rest = [(fst cur, hi)] ∧
        (snd cur <= hi)%Q ∧
        Forall (λ iv, snd iv <= hi)%Q rest ∧
        (hi == snd cur ∨ Exists (λ iv, snd iv == hi) rest)%Q.
Proof.
  revert cur. induction rest as [ | iv rest IH ]; intros cur Hall; simpl.
  - exists (snd cur). split; [ destruct cur; reflexivity | ].
    split; [ lra | ]. split; [ constructor | left; reflexivity ].
  - inversion Hall as [ | ? ? Hiv Hrest ]; subst.
    rewrite (proj2 (Qle_bool_iff _ _) Hiv).
    pose proof (Q.max_spec (snd cur) (snd iv)) as Hmax.
    pose proof (Q.le_max_l (snd cur) (snd iv)) as Hl.
    pose proof (Q.le_max_r (snd cur) (snd iv)) as Hr.
    destruct (IH (fst cur, Qmax (snd cur) (snd iv))) as (hi & Heq & Hle & Hends & Hex).
    { eapply Forall_impl; [ exact Hrest | ]. simpl. intros z Hz. lra. }
    simpl in Hle, Hex. exists hi. split; [ exact Heq | ].
    split; [ lra | ]. split; [ constructor; [ lra | exact Hends ] | ].
    destruct Hex as [Hhi | Hsome].
    + destruct Hmax as [[Hlt Hm] | [Hge Hm]].
      * right. left. rewrite Hhi, Hm. reflexivity.
      * left. rewrite Hhi, Hm. reflexivity.
    + right. right. exact Hsome.
Qed.

(** X9.  When every two of the given intervals intersect (each starts no
    later than any of them ends), the merge of
    [_calculate_timeline_coverage] returns the single interval from the
    earliest start to the latest end. *)
Theorem overlapping_merge_to_span (l : list (Q * Q)) :
  l ≠ [] →
  (∀ a b, a ∈ l → b ∈ l → (fst a <= snd b)%Q) →
  ∃ lo hi,
    merge_intervals (py_sort tuple_lt l) = [(lo, hi)] ∧
    Forall (λ iv, lo <= fst iv ∧ snd iv <= hi)%Q l ∧
    Exists (λ iv, fst iv == lo)%Q l ∧
    Exists (λ iv, snd iv == hi)%Q l.
Proof.
  intros Hne Hov. rewrite merge_intervals_spec.
  pose proof (lex_sorted_ascending _ (py_sort_sorted l)) as Hs.
  pose proof (py_sort_perm tuple_lt l) as Hperm.
  destruct (py_sort tuple_lt l) as [ | cur rest ] eqn:Hsort.
  { apply Permutation_nil in Hperm. congruence. }
  assert (Hin : ∀ iv, iv ∈ cur :: rest → iv ∈ l).
  { intros iv H. rewrite <- Hperm. exact H. }
  destruct (sweep_all_merge rest cur) as (hi & Heq & Hle & Hends & Hex).
  { apply Forall_forall. intros iv Hiv.
    apply Hov; apply Hin; [ right; exact Hiv | left ]. }
  unfold ascending_by_start in Hs.
  inversion Hs as [ | ? ? _ Hstarts ]; subst.
  exists (fst cur), hi. simpl. split; [ exact Heq | ].
  split; [ | split ].
  - rewrite <- Hperm. constructor; [ split; lra | ].
    apply Forall_forall. intros iv Hiv.
    rewrite Forall_forall in Hstarts, Hends.
    split; [ apply Hstarts, Hiv | apply Hends, Hiv ].
  - rewrite <- Hperm. left. reflexivity.
  - rewrite <- Hperm. destruct Hex as [Hhi | Hsome].
    + left. rewrite Hhi. reflexivity.
    + right. exact Hsome.
Qed.

(** Three operations started before any of them ended, as in
    [test_parallel_metrics.py]. *)
Lemma overlapping_merge_to_span_witness :
  merge_intervals (py_sort tuple_lt [(2, 7); (4, 9); (6, 11)]%Q) = [(2, 11)]%Q ∧
  ∃ lo hi,
    merge_intervals (py_sort tuple_lt [(2, 7); (4, 9); (6, 11)]%Q) = [(lo, hi)] ∧
    Forall (λ iv, lo <= fst iv ∧ snd iv <= hi)%Q [(2, 7); (4, 9); (6, 11)]%Q.
Proof.
  split; [ reflexivity | ].
  destruct (overlapping_merge_to_span [(2, 7); (4, 9); (6, 11)]%Q)
    as (lo & hi & Heq & Hall & _).
  - discriminate.
  - intros a b Ha Hb.
    repeat (apply elem_of_cons in Ha as [-> | Ha]);
      repeat (apply elem_of_cons in Hb as [-> | Hb]);
      try (apply elem_of_nil in Ha; contradiction);
      try (apply elem_of_nil in Hb; contradiction); simpl; lra.
  - exists lo, hi. split; [ exact Heq | exact Hall ].
Defined.

(** ** Rounding is monotone *)

Lemma round_half_even_mono (x y : Q) :
  (x <= y)%Q → (round_half_even x <= round_half_even y)%Z.
Proof.
  intros H. pose proof (Qfloor_resp_le _ _ H) as Hf.
  pose proof (round_half_even_floor x) as [Hx1 Hx2].
  pose proof (round_half_even_floor y) as [Hy1 Hy2].
  destruct (Z.eq_dec (Qfloor x) (Qfloor y)) as [Heq | Hne]; [ | lia ].
  unfold round_half_even. rewrite <- Heq.
  destruct (x - inject_Z (Qfloor x) ?= 1 # 2)%Q eqn:Ex;
    destruct (y - inject_Z (Qfloor x) ?= 1 # 2)%Q eqn:Ey;
    try (destruct (Z.even (Qfloor x)); lia); try lia.
  - apply Qeq_alt in Ex. apply Qlt_alt in Ey. lra.
  - apply Qgt_alt in Ex. apply Qeq_alt in Ey. lra.
  - apply Qgt_alt in Ex. apply Qlt_alt in Ey. lra.
Qed.

Lemma py_round_mono (x y : Q) (n : nat) : (x <= y)%Q → (py_round x n <= py_round y n)%Q.
Proof.
  intros H. unfold py_round.
  assert (Hp : (0 <= inject_Z (10 ^ Z.of_nat n))%Q).
  { change 0%Q with (inject_Z 0). rewrite <- Zle_Qle. apply Z.pow_nonneg. lia. }
  assert (Hz : (round_half_even (x * inject_Z (10 ^ Z.of_nat n))
                <= round_half_even (y * inject_Z (10 ^ Z.of_nat n)))%Z).
  { apply round_half_even_mono. apply Qmult_le_compat_r; assumption. }
  unfold Qle. simpl. apply Z.mul_le_mono_nonneg_r; [ lia | exact Hz ].
Qed.


(** ** Merging never adds length *)



(** ** The timeline percentage never exceeds the cumulative one *)




(** ** The timeline is the log, sorted by start *)

Lemma insert_by_start_sorted (x : OpRecord) (l : list OpRecord) :
  StronglySorted (λ a b, relative_start a <= relative_start b)%Q l →
  StronglySorted (λ a b, relative_start a <= relative_start b)%Q
    (insert_by (λ a b, Qlt_bool (relative_start a) (relative_start b)) x l).
Proof.
  induction 1 as [ | y l Hl IH Hy ]; simpl.
  - constructor; constructor.
  - destruct (Qlt_bool (relative_start y) (relative_start x)) eqn:E.
    + apply Qlt_bool_true in E.
      constructor; [ exact IH | ].
      rewrite insert_by_perm. constructor; [ lra | exact Hy ].
    + apply Qlt_bool_false in E.
      constructor; [ constructor; assumption | ].
      constructor; [ exact E | ].
      eapply Forall_impl; [ exact Hy | ]. simpl. intros z Hz. lra.
Qed.

Lemma insert_by_start_stable (k : Q) (x : OpRecord) (l : list OpRecord) :
  started_at k (insert_by (λ a b, Qlt_bool (relative_start a) (relative_start b)) x l)
  = started_at k (x :: l).
Proof.
  unfold started_at. induction l as [ | y l IH ]; simpl.
  - reflexivity.
  - destruct (Qlt_bool (relative_start y) (relative_start x)) eqn:E; [ | reflexivity ].
    apply Qlt_bool_true in E.
    rewrite (filter_cons _ y), IH, !filter_cons.
    destruct (decide (Qeq_bool (relative_start y) k = true)) as [Hy | Hy];
      [ | reflexivity ].
    destruct (decide (Qeq_bool (relative_start x) k = true)) as [Hx | Hx];
      [ | reflexivity ].
    apply Qeq_bool_iff in Hx, Hy. lra.
Qed.

Lemma sorted_rounded_starts (l : list OpRecord) :
  StronglySorted (λ a b, relative_start a <= relative_start b)%Q l →
  StronglySorted (λ a b, t_start a <= t_start b)%Q (timeline_entry <$> l).
Proof.
  induction 1 as [ | x l Hl IH Hx ]; simpl.
  - constructor.
  - constructor; [ exact IH | ].
    apply Forall_fmap. eapply Forall_impl; [ exact Hx | ].
    intros y Hy. simpl. apply py_round_mono, Hy.
Qed.

(** X3.  In every state [get_timeline_data] returns, leaving the instance
    as it is, one entry per completed record: the entries of the records
    arranged in ascending order of [relative_start], records with equal
    starts in the order of the log.  The rounded [start] fields of the
    returned entries never decrease. *)
Theorem timeline_sorted_by_start (env : Env) (w : World) :
  ∃ sorted w',
    get_timeline_data env w = (Ok (timeline_entry <$> sorted), w') ∧
    inst w' = inst w ∧
    Permutation sorted (operations (inst w)) ∧
    StronglySorted (λ a b, relative_start a <= relative_start b)%Q sorted ∧
    (∀ k, started_at k sorted = started_at k (operations (inst w))) ∧
    StronglySorted (λ a b, t_start a <= t_start b)%Q (timeline_entry <$> sorted).
Proof.
  set (lt := λ a b : OpRecord, Qlt_bool (relative_start a) (relative_start b)).
  assert (Hs : ∀ l, StronglySorted (λ a b, relative_start a <= relative_start b)%Q
                      (py_sort lt l)).
  { induction l as [ | x l IH ]; simpl; [ constructor | ].
    apply insert_by_start_sorted, IH. }
  assert (Hst : ∀ k l, started_at k (py_sort lt l) = started_at k l).
  { intros k. induction l as [ | x l IH ]; simpl; [ reflexivity | ].
    unfold lt at 1. rewrite insert_by_start_stable.
    unfold started_at in *. rewrite !filter_cons, IH. reflexivity. }
  exists (py_sort lt (operations (inst w))). eexists.
  split; [ reflexivity | ]. split; [ reflexivity | ].
  split; [ apply py_sort_perm | ]. split; [ apply Hs | ].
  split; [ intros k; apply Hst | ].
  apply sorted_rounded_starts, Hs.
Qed.

(** Operation [a] starts first and ends last: the log has [b] before [a],
    the timeline [a] before [b]. *)
Example timeline_reorders_log :
  let w := run_calls demo_env
             [ CStartSession;
               CStartOperation "llm_calls" "a" None;
               CStartOperation "llm_calls" "b" None;
               CEndOperation "llm_calls_b_103/1";
               CEndOperation "llm_calls_a_101/1" ] in
  operation_name <$> operations (inst w) = ["b"; "a"] ∧
  ∃ tl w', get_timeline_data demo_env w = (Ok tl, w') ∧
           t_operation_name <$> tl = ["a"; "b"] ∧
           t_start <$> tl = [2000 # 1000; 4000 # 1000]%Q.
Proof. cbv zeta. split; [ reflexivity | ]. eexists _, _. repeat split. Qed.

(** ** The breakdown groups the log by category *)

(** The loop of [get_category_breakdown]: each record is appended to the
    list of its category. *)
Lemma breakdown_loop (env : Env) (ops : list OpRecord) :
  ∀ (acc : gmap string (list BreakdownEntry)) (w : World),
  (∀ r, r ∈ ops → is_Some (acc !! category r)) →
  ∃ res,
    for_each (λ (bd : gmap string (list BreakdownEntry)) op,
                match bd !! category op with
                | None => raise (KeyError (category op))
                | Some l => ret (<[category op := (l ++ [breakdown_entry op])%list]> bd)
                end) ops acc env w = (Ok res, w) ∧
    ∀ c, res !! c = (λ l, l ++ (breakdown_entry <$> category_ops c ops)) <$> acc !! c.
Proof.
  induction ops as [ | op ops IH ]; intros acc w Hall.
  - exists acc. split; [ reflexivity | ].
    intros c. simpl. destruct (acc !! c) as [l | ]; simpl; [ | reflexivity ].
    rewrite app_nil_r. reflexivity.
  - destruct (Hall op) as [l Hl]; [ left | ].
    destruct (IH (<[category op := l ++ [breakdown_entry op]]> acc) w) as (res & Hrun & Hres).
    { intros r Hr. destruct (decide (category op = category r)) as [<- | Hne].
      - rewrite lookup_insert_eq. eauto.
      - rewrite lookup_insert_ne by exact Hne. apply Hall. right. exact Hr. }
    exists res. split.
    + simpl. unfold bind at 1. rewrite Hl. unfold ret at 1. exact Hrun.
    + intros c. rewrite Hres. unfold category_ops. rewrite filter_cons.
      destruct (decide (category op = c)) as [<- | Hne].
      * rewrite lookup_insert_eq, Hl. simpl. rewrite <- app_assoc. reflexivity.
      * rewrite lookup_insert_ne by exact Hne. reflexivity.
Qed.

Lemma breakdown_init_lookup (c : string) :
  (list_to_map ((λ c, (c, [])) <$> CATEGORIES) : gmap string (list BreakdownEntry)) !! c
  = if decide (c ∈ CATEGORIES) then Some [] else None.
Proof.
  destruct (decide (c ∈ CATEGORIES)) as [Hin | Hout].
  - revert Hin. unfold CATEGORIES. rewrite !elem_of_cons, elem_of_nil.
    intros [-> | [-> | [-> | [-> | [-> | [-> | []]]]]]]; reflexivity.
  - apply not_elem_of_list_to_map_1. rewrite <- list_fmap_compose.
    intros H. apply Hout. apply list_elem_of_fmap in H as (c' & -> & H). exact H.
Qed.

Lemma breakdown_returns (env : Env) (w : World) :
  (∀ r, r ∈ operations (inst w) → category r ∈ CATEGORIES) →
  ∃ bd w',
    get_category_breakdown env w = (Ok bd, w') ∧
    inst w' = inst w ∧
    ∀ c, bd !! c =
         if decide (c ∈ CATEGORIES)
         then Some (breakdown_entry <$> category_ops c (operations (inst w)))
         else None.
Proof.
  intros Hr. unfold get_category_breakdown.
  match goal with |- context [for_each ?body] => set (B := body) end.
  unfold with_lock, bind, emit, read_attr. cbn [inst ticks events fst snd].
  match goal with
  | |- context [for_each B ?ops ?acc ?e ?w0] =>
      destruct (breakdown_loop e ops acc w0) as (res & Hrun & Hres);
      [ | change (for_each B ops acc e w0 = (Ok res, w0)) in Hrun ]
  end.
  { intros r Hin. rewrite breakdown_init_lookup.
    rewrite decide_True by (apply (Hr r Hin)). eauto. }
  exists res. eexists. split; [ rewrite Hrun; reflexivity | ].
  split; [ reflexivity | ].
  intros c. rewrite Hres, breakdown_init_lookup.
  destruct (decide (c ∈ CATEGORIES)); reflexivity.
Qed.

(** X4.  After every sequence of calls [get_category_breakdown] returns,
    leaving the instance as it is, a dict whose keys are the six
    categories; the list of a category holds one entry per completed
    record of that category, in the order of the log, so its length is the
    category's [count]. *)
Theorem breakdown_groups_log (env : Env) (calls : list Call) :
  let w := run_calls env calls in
  ∃ bd w',
    get_category_breakdown env w = (Ok bd, w') ∧
    inst w' = inst w ∧
    (∀ c, bd !! c =
          if decide (c ∈ CATEGORIES)
          then Some (breakdown_entry <$> category_ops c (operations (inst w)))
          else None) ∧
    (∀ c l agg, bd !! c = Some l → aggregates (inst w) !! c = Some agg →
                length l = count agg).
Proof.
  cbv zeta. pose proof (well_formed_run env calls) as Hw.
  set (w := run_calls env calls) in *.
  destruct Hw as (Hcount & _ & _ & Hr & _).
  destruct (breakdown_returns env w) as (bd & w' & Hrun & Hi & Hlook).
  { intros r Hin. apply (Hr r Hin). }
  exists bd, w'. split; [ exact Hrun | ]. split; [ exact Hi | ].
  split; [ exact Hlook | ].
  intros c l agg Hl Hagg. rewrite Hlook in Hl.
  destruct (decide (c ∈ CATEGORIES)) as [Hc | Hc]; [ | discriminate ].
  injection Hl as <-. rewrite length_fmap.
  destruct (Hcount c Hc) as (agg' & Hagg' & Hn). congruence.
Qed.

(** ** The aggregates against the log *)



Section Extremes.
Variable env : Env.


End Extremes.





(** ** The summary's minimum, average and maximum *)




Lemma mk_stats_count (v1 v2 v3 v4 v5 v6 v7 : pynum) :
  mk_stats v1 v2 v3 v4 v5 v6 v7 !! "count" = Some v2.
Proof. reflexivity. Qed.


(** ** The total is the sum of the counts *)

Lemma CATEGORIES_NoDup : NoDup CATEGORIES.
Proof. apply (bool_decide_unpack _). vm_compute. exact I. Qed.

Lemma length_by_category (cats : list string) (ops : list OpRecord) :
  NoDup cats → Forall (λ r, category r ∈ cats) ops →
  length ops = sum_list ((λ c, length (category_ops c ops)) <$> cats).
Proof.
  intros Hnd. revert ops. induction Hnd as [ | c cats Hnotin Hnd IH ]; intros ops Hall.
  - destruct ops as [ | r ops ]; [ reflexivity | ].
    inversion Hall as [ | ? ? Hr _ ]; subst. apply elem_of_nil in Hr. contradiction.
  - cbn [fmap list_fmap sum_list].
    assert (Hsplit : length ops
                     = length (category_ops c ops)
                       + length (filter (λ r, category r ≠ c) ops)).
    { unfold category_ops. clear. induction ops as [ | r ops IH ]; [ reflexivity | ].
      rewrite !filter_cons.
      destruct (decide (category r = c)) as [Heq | Hne].
      - rewrite decide_False by (intros H; apply H, Heq). simpl. lia.
      - rewrite decide_True by exact Hne. simpl. lia. }
    rewrite Hsplit. f_equal.
    rewrite (IH (filter (λ r, category r ≠ c) ops)).
    + f_equal. apply Forall_fmap_ext, Forall_forall. intros c' Hc'. f_equal.
      unfold category_ops. rewrite list_filter_filter.
      apply list_filter_iff. intros r. split; [ intros [H _]; exact H | ].
      intros H. split; [ exact H | ]. intros Heq. apply Hnotin. congruence.
    + apply Forall_forall. intros r [Hne Hin]%list_elem_of_filter.
      rewrite Forall_forall in Hall. specialize (Hall r Hin).
      apply elem_of_cons in Hall as [Heq | Hin']; [ contradiction | exact Hin' ].
Qed.

(** X7.  After every sequence of calls, the [total_operations] of the
    summary is the sum of the [count] fields of its six category
    entries. *)
Theorem total_operations_is_sum_of_counts (env : Env) (calls : list Call) :
  ∃ s w' counts,
    get_summary env (run_calls env calls) = (Ok s, w') ∧
    Forall2 (λ c n, stat s c "count" = Some (Num (inject_Z (Z.of_nat n))))
            CATEGORIES counts ∧
    total_operations s = sum_list counts.
Proof.
  pose proof (well_formed_run env calls) as Hw.
  set (w := run_calls env calls) in *.
  assert (Hcount : count_inv (inst w)) by apply Hw.
  destruct Hw as (_ & _ & _ & Hr & _).
  destruct (get_summary_returns env w) as (s & w' & Hrun & Hi & Hsd & Hn & Hcats).
  { intros c Hc. destruct (Hcount c Hc) as (agg & -> & _). eauto. }
  exists s, w', ((λ c, length (category_ops c (operations (inst w)))) <$> CATEGORIES).
  split; [ exact Hrun | split ].
  - apply Forall2_fmap_r, Forall_Forall2_diag, Forall_forall. intros c Hc.
    destruct (Hcount c Hc) as (agg & Hagg & Hlen).
    unfold stat. rewrite Hcats, decide_True, Hagg by exact Hc. simpl.
    unfold stats_of. destruct (decide (0 < count agg)) as [Hpos | Hz].
    + unfold nonzero_stats. rewrite mk_stats_count, Hlen. reflexivity.
    + unfold zero_stats. rewrite mk_stats_count.
      replace (length (category_ops c (operations (inst w)))) with 0 by lia.
      reflexivity.
  - rewrite Hn. apply length_by_category; [ apply CATEGORIES_NoDup | ].
    apply Forall_forall. intros r Hin. apply (Hr r Hin).
Qed.

(** ** Tracking an operation from start to end *)

Lemma well_formed_exec_seq (env : Env) (l : list Call) (w : World) :
  well_formed (inst w) → well_formed (inst (snd (exec_seq l env w))).
Proof.
  apply (exec_seq_preserves (λ w, well_formed (inst w)) env).
  apply Forall_forall. intros c _ w0. apply well_formed_exec.
Qed.

Lemma end_operation_ok (env : Env) (w : World) (id : string) :
  well_formed (inst w) →
  fst (end_operation id env w) = Ok tt ∧
  active_operations (inst (snd (end_operation id env w))) !! id = None.
Proof.
  intros Hw. destruct (active_operations (inst w) !! id) as [a | ] eqn:Hact.
  - destruct (well_formed_aggregate _ _ _ Hw Hact) as [agg Hagg].
    destruct (end_operation_known env w id a agg Hact Hagg) as (Hr & Hi & _).
    split; [ exact Hr | ]. rewrite Hi. simpl. apply lookup_delete_eq.
  - destruct (end_operation_unknown env w id Hact) as (Hr & Hi & _).
    split; [ exact Hr | ]. rewrite Hi. exact Hact.
Qed.

Lemma start_operation_valid (env : Env) (w : World) (cat name : string)
    (md : option Metadata) :
  cat ∈ CATEGORIES →
  ∃ id w1, start_operation cat name md env w = (Ok id, w1).
Proof.
  intros Hin.
  destruct (start_time (inst w)) as [t | ] eqn:Hst.
  - destruct (start_operation_running env w cat name md t Hin Hst) as (Hr & _).
    destruct (start_operation cat name md env w) as [r w1]. simpl in Hr. subst r. eauto.
  - destruct (start_operation_fresh env w cat name md Hin Hst) as (Hr & _).
    destruct (start_operation cat name md env w) as [r w1]. simpl in Hr. subst r. eauto.
Qed.

(** X10.  A [with track_operation(...)] block entered in a state the
    public methods can reach: with a category outside [CATEGORIES] it
    raises [ValueError] before the body runs and changes nothing;
    otherwise the block ends as its body ends (returning, or raising the
    body's exception), [end_operation] has run on the id handed to the
    body, and that id is no longer active afterwards, whatever the body
    did. *)
Theorem track_operation_always_ends (env : Env) (w : World) (cat name : string)
    (md : option Metadata) (body : string → list Call) :
  well_formed (inst w) →
  (cat ∉ CATEGORIES →
   exec (CTrackOperation cat name md body) env w = (Raise ValueError, w)) ∧
  (cat ∈ CATEGORIES →
   ∃ id w1,
     start_operation cat name md env w = (Ok id, w1) ∧
     fst (exec (CTrackOperation cat name md body) env w)
       = fst (exec_seq (body id) env w1) ∧
     snd (exec (CTrackOperation cat name md body) env w)
       = snd (end_operation id env (snd (exec_seq (body id) env w1))) ∧
     active_operations (inst (snd (exec (CTrackOperation cat name md body) env w)))
       !! id = None).
Proof.
  intros Hw. rewrite exec_track. unfold track_operation. split.
  - intros Hout. unfold bind. rewrite start_operation_invalid by exact Hout. reflexivity.
  - intros Hin.
    destruct (start_operation_valid env w cat name md Hin) as (id & w1 & Hstart).
    exists id, w1. split; [ exact Hstart | ].
    assert (Hw1 : well_formed (inst w1)).
    { pose proof (well_formed_start_operation env w cat name md Hw) as H.
      rewrite Hstart in H. exact H. }
    pose proof (well_formed_exec_seq env (body id) w1 Hw1) as Hw2.
    unfold bind. rewrite Hstart. unfold try_finally.
    destruct (exec_seq (body id) env w1) as [rb w2]. cbn [fst snd] in *.
    destruct (end_operation_ok env w2 id Hw2) as [Hok Hgone].
    destruct (end_operation id env w2) as [re w3]. simpl in Hok, Hgone. subst re.
    simpl. repeat split. exact Hgone.
Qed.

(** A block whose body asks for the summary and then fails: the host
    error comes out of the block, and the operation was recorded. *)
Lemma track_operation_always_ends_witness :
  let call := CTrackOperation "llm_calls" "t" None (λ _, [ CGetSummary; HostRaise ]) in
  well_formed (inst init_world) ∧
  ("llm_calls" ∈ CATEGORIES) ∧
  fst (exec call demo_env init_world) = Raise HostError ∧
  length (operations (inst (snd (exec call demo_env init_world)))) = 1 ∧
  ∃ id w1,
    start_operation "llm_calls" "t" None demo_env init_world = (Ok id, w1) ∧
    active_operations (inst (snd (exec call demo_env init_world))) !! id = None.
Proof.
  cbv zeta.
  assert (Hw : well_formed (inst init_world)) by apply (well_formed_empty None).
  assert (Hin : "llm_calls" ∈ CATEGORIES)
    by (apply (bool_decide_unpack _); vm_compute; exact I).
  split; [ exact Hw | split; [ exact Hin | do 2 (split; [ reflexivity | ]) ] ].
  destruct (proj2 (track_operation_always_ends demo_env init_world "llm_calls" "t" None
                     (λ _, [ CGetSummary; HostRaise ]) Hw) Hin)
    as (id & w1 & Hstart & _ & _ & Hgone).
  exists id, w1. split; [ exact Hstart | exact Hgone ].
Defined.

(** X11.  [start_operation] followed by [end_operation] on the id it
    returned, in a state the public methods can reach and with a valid
    category: both return, the log grows by exactly one record, which
    carries the category, the name and the metadata given (the empty dict
    when none was given) and whose duration is the difference of its two
    clock readings; the active map is the one of before, without that
    id. *)
Theorem start_end_round_trip (env : Env) (w : World) (cat name : string)
    (md : option Metadata) :
  well_formed (inst w) → cat ∈ CATEGORIES →
  let s0 := match start_time (inst w) with
            | Some _ => inst w
            | None => session_started (clock env (ticks w))
            end in
  ∃ id w1 w2 r,
    start_operation cat name md env w = (Ok id, w1) ∧
    end_operation id env w1 = (Ok tt, w2) ∧
    operations (inst w2) = operations s0 ++ [r] ∧
    active_operations (inst w2) = delete id (active_operations s0) ∧
    start_time (inst w2) = start_time s0 ∧
    category r = cat ∧ operation_name r = name ∧ metadata r = default ∅ md ∧
    op_end_time r = clock env (ticks w1) ∧
    duration r = (op_end_time r - op_start_time r)%Q.
Proof.
  intros Hw Hin s0.
  destruct (start_operation_valid env w cat name md Hin) as (id & w1 & Hstart).
  assert (Hw1 : well_formed (inst w1)).
  { pose proof (well_formed_start_operation env w cat name md Hw) as H.
    rewrite Hstart in H. exact H. }
  assert (Hreg : ∃ t, inst w1 = registered id (new_active cat name t md) s0).
  { unfold s0. destruct (start_time (inst w)) as [t | ] eqn:Hst.
    - destruct (start_operation_running env w cat name md t Hin Hst) as (Hr & Hi & _).
      rewrite Hstart in Hr, Hi. simpl in Hr, Hi. injection Hr as ->. eauto.
    - destruct (start_operation_fresh env w cat name md Hin Hst) as (Hr & Hi & _).
      rewrite Hstart in Hr, Hi. simpl in Hr, Hi. injection Hr as ->. eauto. }
  destruct Hreg as (t & Hi1).
  assert (Hact : active_operations (inst w1) !! id = Some (new_active cat name t md)).
  { rewrite Hi1. simpl. apply lookup_insert_eq. }
  destruct (well_formed_aggregate _ _ _ Hw1 Hact) as [agg Hagg].
  destruct (end_operation_known env w1 id _ agg Hact Hagg) as (Hr & Hi2 & _).
  destruct (end_operation id env w1) as [re w2] eqn:Hend. simpl in Hr, Hi2. subst re.
  exists id, w1, w2, (completed_record (start_time (inst w1))
                        (new_active cat name t md) (clock env (ticks w1))).
  split; [ exact Hstart | ]. split; [ exact Hend | ].
  rewrite Hi2, Hi1. simpl.
  split; [ reflexivity | ]. split; [ apply delete_insert_eq | ].
  repeat split.
Qed.

(** On the fresh instance the session is started implicitly and the log
    holds the one record afterwards. *)
Lemma start_end_round_trip_witness :
  well_formed (inst init_world) ∧
  ("llm_calls" ∈ CATEGORIES) ∧
  ∃ id w1 w2 r,
    start_operation "llm_calls" "q" None demo_env init_world = (Ok id, w1) ∧
    end_operation id demo_env w1 = (Ok tt, w2) ∧
    operations (inst w2) = [r] ∧
    active_operations (inst w2) = ∅ ∧
    category r = "llm_calls" ∧ operation_name r = "q" ∧ metadata r = ∅.
Proof.
  assert (Hw : well_formed (inst init_world)) by apply (well_formed_empty None).
  assert (Hin : "llm_calls" ∈ CATEGORIES)
    by (apply (bool_decide_unpack _); vm_compute; exact I).
  split; [ exact Hw | split; [ exact Hin | ] ].
  destruct (start_end_round_trip demo_env init_world "llm_calls" "q" None Hw Hin)
    as (id & w1 & w2 & r & Hs & He & Hops & Hact & _ & Hc & Hn & Hm & _).
  exists id, w1, w2, r. simpl in Hops, Hact.
  rewrite delete_empty in Hact.
  split; [ exact Hs | split; [ exact He | split; [ exact Hops | split; [ exact Hact | ] ] ] ].
  split; [ exact Hc | split; [ exact Hn | exact Hm ] ].
Defined.

(** ** The exported document *)

Lemma timeline_data_returns (env : Env) (w : World) :
  ∃ w',
    get_timeline_data env w
      = (Ok (timeline_entry
               <$> py_sort (λ a b, Qlt_bool (relative_start a) (relative_start b))
                     (operations (inst w))), w') ∧
    inst w' = inst w ∧ ticks w' = ticks w.
Proof. eexists. repeat split. Qed.

Lemma export_returns (env : Env) (w : World) :
  (∀ c, c ∈ CATEGORIES → is_Some (aggregates (inst w) !! c)) →
  ∃ x w',
    export_to_json env w = (Ok x, w') ∧
    inst w' = inst w ∧
    x_operations x = operations (inst w) ∧
    total_operations (x_summary x) = length (operations (inst w)) ∧
    x_timeline x
      = timeline_entry
          <$> py_sort (λ a b, Qlt_bool (relative_start a) (relative_start b))
                (operations (inst w)) ∧
    x_duration x = summary_duration env w ∧
    session_duration (x_summary x)
      = match start_time (inst w) with
        | Some t => if truthy t then (clock env (S (ticks w)) - t)%Q else 0%Q
        | None => 0%Q
        end ∧
    x_start_time x
      = match start_time (inst w) with
        | Some t => if truthy t then Some (isoformat env t) else None
        | None => None
        end ∧
    ∀ c, categories (x_summary x) !! c =
         if decide (c ∈ CATEGORIES)
         then stats_of (operations (inst w)) (session_duration (x_summary x)) c
                <$> aggregates (inst w) !! c
         else None.
Proof.
  intros Hall.
  assert (Haggs : ∀ w1, inst w1 = inst w →
                        ∀ c, c ∈ CATEGORIES → is_Some (aggregates (inst w1) !! c)).
  { intros w1 Hi c Hc. rewrite Hi. apply Hall, Hc. }
  unfold export_to_json, summary_duration.
  unfold bind at 1. unfold read_attr at 1. cbn [inst ticks events].
  unfold bind at 1.
  destruct (start_time (inst w)) as [t | ] eqn:Hst; [ destruct (truthy t) eqn:Htr | ].
  1: unfold bind at 1; unfold bind at 1; unfold time_time at 1; cbn [inst ticks events];
     unfold ret at 1; unfold bind at 1.
  2, 3: unfold bind at 1; unfold ret at 1; unfold bind at 1.
  all: match goal with
       | |- context [get_summary ?e ?w1] =>
           destruct (get_summary_returns e w1 (Haggs w1 eq_refl))
             as (s & w2 & Hrun & Hi2 & Hsd & Hn & Hcats);
           rewrite Hrun
       end;
    unfold bind at 1;
    match goal with
    | |- context [get_timeline_data ?e ?w0] =>
        destruct (timeline_data_returns e w0) as (w3 & Htl & Hi3 & _); rewrite Htl
    end;
    unfold bind at 1; unfold read_attr at 1; unfold ret at 1;
    cbn [inst ticks events] in *;
    eexists _, _; split; [ reflexivity | ];
    cbn [inst x_operations x_summary x_timeline x_duration x_start_time];
    rewrite Hi3, Hi2;
    rewrite <- Hsd in Hcats;
    unfold summary_duration in Hsd; cbn [inst ticks] in Hsd; rewrite Hst in Hsd;
    try rewrite Htr in Hsd;
    repeat (split; [ first [ reflexivity | exact Hn | exact Hsd ] | ]); exact Hcats.
Qed.

(** X12.  After every sequence of calls run under a monotone clock,
    [export_to_json] builds its document without changing the instance:
    [operations] is the log, [timeline] has one entry per record of the
    log, [summary.total_operations] is the number of exported operations,
    and [session_info.duration], read from the clock before the summary
    is taken, is non-negative and at most [summary.session_duration].
    With no session started, [session_info.start_time] is [None] and both
    durations are [0]. *)
Theorem export_consistent (env : Env) (calls : list Call) :
  monotone_clock env →
  let w := run_calls env calls in
  ∃ x w',
    export_to_json env w = (Ok x, w') ∧
    inst w' = inst w ∧
    x_operations x = operations (inst w) ∧
    total_operations (x_summary x) = length (x_operations x) ∧
    (∃ sorted, x_timeline x = timeline_entry <$> sorted ∧
               Permutation sorted (x_operations x)) ∧
    (0 <= x_duration x ∧ x_duration x <= session_duration (x_summary x))%Q ∧
    (start_time (inst w) = None →
     x_start_time x = None ∧ x_duration x = 0%Q ∧
     session_duration (x_summary x) = 0%Q).
Proof.
  intros Hmono. cbv zeta.
  destruct (timed_run env Hmono calls) as [Hw Ht].
  set (w := run_calls env calls) in *.
  assert (Hcount : count_inv (inst w)) by apply Hw.
  destruct (export_returns env w)
    as (x & w' & Hrun & Hi & Hops & Hn & Htl & Hdur & Hsd & Hiso & _).
  { intros c Hc. destruct (Hcount c Hc) as (agg & -> & _). eauto. }
  exists x, w'. split; [ exact Hrun | ]. split; [ exact Hi | ].
  split; [ exact Hops | ]. split; [ rewrite Hops; exact Hn | ].
  split; [ eexists; split; [ exact Htl | rewrite Hops; apply py_sort_perm ] | ].
  rewrite Hdur, Hsd, Hiso. unfold summary_duration.
  destruct (start_time (inst w)) as [t | ] eqn:Hst.
  - split; [ | discriminate ].
    destruct (truthy t); [ | split; lra ].
    destruct (Ht t Hst) as (H0 & _).
    assert (Hc : (clock env (ticks w) <= clock env (S (ticks w)))%Q)
      by (apply Hmono; lia).
    split; lra.
  - split; [ split; lra | ]. intros _. repeat split.
Qed.

(** The demo session, exported: the duration of [session_info] is taken
    one clock reading before that of the summary. *)
Lemma export_consistent_witness :
  monotone_clock demo_env ∧
  ∃ x w',
    export_to_json demo_env (run_calls demo_env demo_calls) = (Ok x, w') ∧
    x_operations x = operations (inst demo_world) ∧
    x_duration x = 7%Q ∧
    session_duration (x_summary x) = 8%Q ∧
    (x_duration x <= session_duration (x_summary x))%Q.
Proof.
  assert (Hm : monotone_clock demo_env) by (apply linear_env_monotone; discriminate).
  split; [ exact Hm | ].
  destruct (export_consistent demo_env demo_calls Hm)
    as (x & w' & Hrun & _ & Hops & _ & _ & [_ Hle] & _).
  exists x, w'. split; [ exact Hrun | ]. split; [ exact Hops | ].
  assert (Hx : fst (export_to_json demo_env (run_calls demo_env demo_calls)) = Ok x)
    by (rewrite Hrun; reflexivity).
  assert (Hd : match fst (export_to_json demo_env (run_calls demo_env demo_calls)) with
               | Ok x0 => Some (x_duration x0, session_duration (x_summary x0))
               | Raise _ => None
               end = Some (7%Q, 8%Q)) by (vm_compute; reflexivity).
  rewrite Hx in Hd. injection Hd as Hd1 Hd2.
  split; [ exact Hd1 | split; [ exact Hd2 | exact Hle ] ].
Defined.

(** ** The lock is taken and released in turn *)

Lemma lock_run_plain (tr : list Event) (held : bool) :
  Forall plain_event tr → lock_run held tr = Some held.
Proof.
  induction 1 as [ | ev tr [Ha Hr] _ IH ]; [ reflexivity | ].
  destruct ev; try contradiction; exact IH.
Qed.

Lemma lock_run_app (tr1 tr2 : list Event) (h h' : bool) :
  lock_run h tr1 = Some h' → lock_run h (tr1 ++ tr2) = lock_run h' tr2.
Proof.
  revert h. induction tr1 as [ | ev tr1 IH ]; intros h; simpl.
  - intros [= ->]. reflexivity.
  - destruct ev; try apply IH; destruct h; try discriminate; apply IH.
Qed.

Lemma lock_free_ret {A} (a : A) : lock_free (ret a).
Proof. intros env w. exists []. simpl. rewrite app_nil_r. split; constructor. Qed.

Lemma lock_free_raise {A} (e : exn) : lock_free (@raise A e).
Proof. intros env w. exists []. simpl. rewrite app_nil_r. split; constructor. Qed.

Lemma lock_free_lift {A} (o : Outcome A) : lock_free (lift o).
Proof. intros env w. exists []. simpl. rewrite app_nil_r. split; constructor. Qed.

Lemma lock_free_format (x : Q) : lock_free (format_float x).
Proof. intros env w. exists []. simpl. rewrite app_nil_r. split; constructor. Qed.

Lemma lock_free_time : lock_free time_time.
Proof.
  intros env w. exists [EvClock]. split; [ reflexivity | ].
  repeat constructor; discriminate.
Qed.

Lemma lock_free_read_attr {A} (f : Field) (proj : Instrumentor → A) :
  lock_free (read_attr f proj).
Proof.
  intros env w. exists [EvRead f]. split; [ reflexivity | ].
  repeat constructor; discriminate.
Qed.

Lemma lock_free_write_attr (f : Field) (upd : Instrumentor → Instrumentor) :
  lock_free (write_attr f upd).
Proof.
  intros env w. exists [EvWrite f]. split; [ reflexivity | ].
  repeat constructor; discriminate.
Qed.

Lemma lock_free_bind {A B} (m : M A) (k : A → M B) :
  lock_free m → (∀ a, lock_free (k a)) → lock_free (bind m k).
Proof.
  intros Hm Hk env w. unfold bind.
  destruct (Hm env w) as (tr1 & He1 & Hp1).
  destruct (m env w) as [[a | e] w1]; simpl in He1.
  - destruct (Hk a env w1) as (tr2 & He2 & Hp2).
    exists (tr1 ++ tr2). rewrite He2, He1, app_assoc.
    split; [ reflexivity | apply Forall_app; split; assumption ].
  - exists tr1. split; assumption.
Qed.

Lemma lock_free_for_each {A B} (body : B → A → M B) (xs : list A) (acc : B) :
  (∀ b a, lock_free (body b a)) → lock_free (for_each body xs acc).
Proof.
  intros Hb. revert acc. induction xs as [ | x xs IH ]; intros acc; simpl.
  - apply lock_free_ret.
  - apply lock_free_bind; [ apply Hb | intros b; apply IH ].
Qed.

Lemma lock_free_balanced {A} (m : M A) : lock_free m → lock_balanced m.
Proof.
  intros Hm env w. destruct (Hm env w) as (tr & He & Hp).
  exists tr. split; [ exact He | apply lock_run_plain, Hp ].
Qed.

Lemma lock_balanced_with_lock {A} (m : M A) : lock_free m → lock_balanced (with_lock m).
Proof.
  intros Hm env w. unfold with_lock, emit.
  match goal with |- context [m env ?w1] => destruct (Hm env w1) as (tr & He & Hp) end.
  destruct (m env _) as [r w2]. cbn [fst snd events] in *.
  exists (EvAcquire :: tr ++ [EvRelease]). split.
  - rewrite He, <- !app_assoc. reflexivity.
  - simpl. rewrite (lock_run_app tr [EvRelease] true true); [ reflexivity | ].
    apply lock_run_plain, Hp.
Qed.

Lemma lock_balanced_bind {A B} (m : M A) (k : A → M B) :
  lock_balanced m → (∀ a, lock_balanced (k a)) → lock_balanced (bind m k).
Proof.
  intros Hm Hk env w. unfold bind.
  destruct (Hm env w) as (tr1 & He1 & Hp1).
  destruct (m env w) as [[a | e] w1]; simpl in He1.
  - destruct (Hk a env w1) as (tr2 & He2 & Hp2).
    exists (tr1 ++ tr2). rewrite He2, He1, app_assoc.
    split; [ reflexivity | ]. rewrite (lock_run_app tr1 tr2 false false Hp1). exact Hp2.
  - exists tr1. split; assumption.
Qed.

Lemma lock_balanced_try_finally {A} (m : M A) (fin : M unit) :
  lock_balanced m → lock_balanced fin → lock_balanced (try_finally m fin).
Proof.
  intros Hm Hf env w. unfold try_finally.
  destruct (Hm env w) as (tr1 & He1 & Hp1).
  destruct (m env w) as [r w1]. simpl in He1.
  destruct (Hf env w1) as (tr2 & He2 & Hp2).
  exists (tr1 ++ tr2).
  destruct (fin env w1) as [[[] | e] w2]; simpl in *;
    (split; [ rewrite He2, He1, app_assoc; reflexivity
            | rewrite (lock_run_app tr1 tr2 false false Hp1); exact Hp2 ]).
Qed.

Lemma lock_balanced_catch (m : M unit) : lock_balanced m → lock_balanced (catch m).
Proof.
  intros Hm env w. unfold catch. destruct (Hm env w) as (tr & He & Hp).
  destruct (m env w) as [r w1]. exists tr. split; assumption.
Qed.

Ltac lock_free_step :=
  first
    [ apply lock_free_ret
    | apply lock_free_raise
    | apply lock_free_lift
    | apply lock_free_format
    | apply lock_free_time
    | apply lock_free_read_attr
    | apply lock_free_write_attr
    | apply lock_free_for_each; intros
    | apply lock_free_bind; [ | intros ]
    | match goal with
      | |- lock_free (match ?x with _ => _ end) => destruct x
      | |- lock_free (if ?b then _ else _) => destruct b
      end ].

Ltac lock_free_all :=
  unfold set_operations, set_active_operations, set_aggregates, set_start_time;
  repeat lock_free_step.

Lemma lock_free_coverage (cat : string) (sd : Q) :
  lock_free (_calculate_timeline_coverage cat sd).
Proof. unfold _calculate_timeline_coverage. lock_free_all. Qed.

Lemma lock_balanced_reset : lock_balanced reset.
Proof. unfold reset. apply lock_balanced_with_lock. lock_free_all. Qed.

Lemma lock_balanced_start_session : lock_balanced start_session.
Proof.
  unfold start_session.
  apply lock_balanced_bind; [ apply lock_balanced_reset | intros _ ].
  apply lock_free_balanced. lock_free_all.
Qed.

Lemma lock_balanced_start_operation (cat name : string) (md : option Metadata) :
  lock_balanced (start_operation cat name md).
Proof.
  unfold start_operation.
  destruct (decide (cat ∈ CATEGORIES)); [ | apply lock_free_balanced, lock_free_raise ].
  apply lock_balanced_bind; [ apply lock_free_balanced, lock_free_read_attr | intros st ].
  apply lock_balanced_bind.
  { destruct st; [ apply lock_free_balanced, lock_free_ret
                 | apply lock_balanced_start_session ]. }
  intros _.
  apply lock_balanced_bind; [ apply lock_free_balanced, lock_free_time | intros t ].
  apply lock_balanced_bind; [ apply lock_free_balanced, lock_free_format | intros ts ].
  apply lock_balanced_bind; [ | intros _; apply lock_free_balanced, lock_free_ret ].
  apply lock_balanced_with_lock. lock_free_all.
Qed.

Lemma lock_balanced_end_operation (id : string) : lock_balanced (end_operation id).
Proof.
  unfold end_operation.
  apply lock_balanced_bind; [ apply lock_free_balanced, lock_free_time | intros t ].
  apply lock_balanced_with_lock. lock_free_all.
Qed.

Lemma lock_balanced_get_summary : lock_balanced get_summary.
Proof.
  unfold get_summary. apply lock_balanced_with_lock.
  unfold summary_category.
  repeat first [ apply lock_free_coverage | lock_free_step ].
Qed.

Lemma lock_balanced_get_timeline_data : lock_balanced get_timeline_data.
Proof. unfold get_timeline_data. apply lock_balanced_with_lock. lock_free_all. Qed.

Lemma lock_balanced_get_category_breakdown : lock_balanced get_category_breakdown.
Proof. unfold get_category_breakdown. apply lock_balanced_with_lock. lock_free_all. Qed.

Lemma lock_balanced_get_stacked_timeline (r : Q) : lock_balanced (get_stacked_timeline r).
Proof. unfold get_stacked_timeline. apply lock_balanced_with_lock. lock_free_all. Qed.

Lemma lock_balanced_export_to_json : lock_balanced export_to_json.
Proof.
  unfold export_to_json.
  apply lock_balanced_bind; [ apply lock_free_balanced, lock_free_read_attr | intros st ].
  apply lock_balanced_bind.
  { intros env w. exists []. simpl. rewrite app_nil_r. split; reflexivity. }
  intros iso.
  apply lock_balanced_bind; [ apply lock_free_balanced; lock_free_all | intros dur ].
  apply lock_balanced_bind; [ apply lock_balanced_get_summary | intros s ].
  apply lock_balanced_bind; [ apply lock_balanced_get_timeline_data | intros tl ].
  apply lock_free_balanced. lock_free_all.
Qed.

Lemma lock_balanced_exec_seq (l : list Call) :
  Forall (λ c, lock_balanced (exec c)) l → lock_balanced (exec_seq l).
Proof.
  induction 1 as [ | c l Hc _ IH ]; simpl.
  - apply lock_free_balanced, lock_free_ret.
  - apply lock_balanced_bind; [ exact Hc | intros _; exact IH ].
Qed.

Lemma lock_balanced_exec (c : Call) : lock_balanced (exec c).
Proof.
  assert (Hret : ∀ A (m : M A), lock_balanced m → lock_balanced (m ;; ret tt)).
  { intros A m Hm. apply lock_balanced_bind; [ exact Hm | intros _ ].
    apply lock_free_balanced, lock_free_ret. }
  induction c as [ | | cat name md | id | cat name md body IH | | | r | | | | | body IH ]
    using Call_ind'.
  - apply lock_balanced_reset.
  - apply lock_balanced_start_session.
  - simpl. apply Hret, lock_balanced_start_operation.
  - apply lock_balanced_end_operation.
  - rewrite exec_track. unfold track_operation.
    apply lock_balanced_bind; [ apply lock_balanced_start_operation | intros id ].
    apply lock_balanced_try_finally;
      [ apply lock_balanced_exec_seq, IH | apply lock_balanced_end_operation ].
  - simpl. apply Hret, lock_balanced_get_summary.
  - simpl. apply Hret, lock_balanced_get_timeline_data.
  - simpl. apply Hret, lock_balanced_get_stacked_timeline.
  - simpl. apply Hret, lock_balanced_get_category_breakdown.
  - simpl. apply Hret, lock_balanced_export_to_json.
  - simpl. unfold print_summary. apply Hret, lock_balanced_get_summary.
  - simpl. apply lock_free_balanced, lock_free_raise.
  - rewrite exec_try. apply lock_balanced_catch, lock_balanced_exec_seq, IH.
Qed.

(** X13.  Whatever public method or [with track_operation] block is
    called, in whatever state and however it ends (returning or raising),
    its trace never acquires the non-re-entrant lock while holding it,
    never releases it without holding it, and leaves it free: no call
    blocks on the lock it took itself, and none returns with the lock
    held. *)
Theorem lock_never_held_twice (env : Env) (w : World) (c : Call) :
  lock_run false (trace_of (exec c) env w) = Some false.
Proof.
  destruct (lock_balanced_exec c env w) as (tr & He & Hp).
  rewrite (trace_of_app _ _ _ _ He). exact Hp.
Qed.

(** A block ended by an exception of its body, and what a re-entrant use
    of the lock would look like. *)
Example lock_run_examples :
  trace_of (exec (CTrackOperation "llm_calls" "t" None (λ _, [ HostRaise ])))
    demo_env init_world
  = [ EvRead FStartTime; EvAcquire; EvWrite FOperations; EvWrite FActiveOperations;
      EvWrite FAggregates; EvWrite FStartTime; EvRelease; EvClock; EvWrite FStartTime;
      EvClock; EvAcquire; EvClock; EvRead FActiveOperations; EvWrite FActiveOperations;
      EvRelease; EvClock; EvAcquire; EvRead FActiveOperations;
      EvWrite FActiveOperations; EvRead FStartTime; EvRead FOperations;
      EvWrite FOperations; EvRead FAggregates; EvWrite FAggregates; EvRelease ] ∧
  lock_run false [ EvAcquire; EvRead FStartTime; EvAcquire ] = None.
Proof. split; reflexivity. Qed.

(** ** The stacked timeline *)

Lemma py_int_floor (x : Q) : (0 <= x)%Q → py_int x = Qfloor x.
Proof.
  intros H. destruct x as [n d]. unfold py_int, Qfloor. simpl.
  apply Z.quot_div_nonneg; [ | lia ].
  unfold Qle in H. simpl in H. lia.
Qed.

Lemma py_int_index (a b r : Q) :
  (0 < r)%Q → (0 <= a)%Q → (a <= b)%Q →
  (0 <= py_int (a / r) ∧ py_int (a / r) <= py_int (b / r))%Z.
Proof.
  intros Hr Ha Hab.
  assert (Hinv : (0 < / r)%Q) by (apply Qinv_lt_0_compat, Hr).
  assert (H0 : (0 <= a / r)%Q) by (unfold Qdiv; nra).
  assert (H1 : (a / r <= b / r)%Q) by (unfold Qdiv; nra).
  rewrite !py_int_floor by lra.
  split; [ | apply Qfloor_resp_le, H1 ].
  change 0%Z with (Qfloor 0). apply Qfloor_resp_le, H0.
Qed.

Lemma stacked_mark_loop (cat : string) (env : Env) (w : World) (idxs : list Z) :
  ∀ (cd : gmap string (list Z)) (row : list Z),
  cd !! cat = Some row →
  Forall (λ i, 0 <= i < Z.of_nat (length row))%Z idxs →
  ∃ row',
    for_each (stacked_mark cat) idxs cd env w = (Ok (<[cat := row']> cd), w) ∧
    length row' = length row ∧
    ∀ (j : nat) x, row !! j = Some x →
      row' !! j = Some (if bool_decide (Z.of_nat j ∈ idxs) then 1%Z else x).
Proof.
  induction idxs as [ | i idxs IH ]; intros cd row Hcd Hall.
  - exists row. split; [ simpl; rewrite insert_id by exact Hcd; reflexivity | ].
    split; [ reflexivity | ]. intros j x Hj.
    rewrite bool_decide_eq_false_2 by apply not_elem_of_nil. exact Hj.
  - inversion Hall as [ | ? ? Hi Hrest ]; subst.
    set (row1 := <[Z.to_nat i := 1%Z]> row).
    destruct (IH (<[cat := row1]> cd) row1) as (row' & Hrun & Hlen & Hlook).
    { apply lookup_insert_eq. }
    { unfold row1. rewrite length_insert. exact Hrest. }
    exists row'. split; [ | split ].
    + cbn [for_each]. unfold bind at 1. unfold stacked_mark at 1. rewrite Hcd.
      unfold list_setitem.
      replace (i <? 0)%Z with false by (symmetry; apply Z.ltb_ge; lia).
      replace (0 <=? i)%Z with true by (symmetry; apply Z.leb_le; lia).
      replace (i <? Z.of_nat (length row))%Z with true by (symmetry; apply Z.ltb_lt; lia).
      cbn [andb]. unfold lift, bind, ret. fold row1.
      rewrite Hrun, insert_insert_eq. reflexivity.
    + rewrite Hlen. unfold row1. apply length_insert.
    + intros j x Hj.
      destruct (decide (j = Z.to_nat i)) as [-> | Hne].
      * rewrite (Hlook (Z.to_nat i) 1%Z).
        -- rewrite (bool_decide_eq_true_2 (_ ∈ i :: idxs)).
           ++ destruct (bool_decide _); reflexivity.
           ++ rewrite Z2Nat.id by lia. left.
        -- unfold row1. apply list_lookup_insert_eq. apply lookup_lt_Some in Hj. exact Hj.
      * rewrite (Hlook j x).
        -- rewrite (bool_decide_ext (Z.of_nat j ∈ i :: idxs) (Z.of_nat j ∈ idxs));
             [ reflexivity | ].
           rewrite elem_of_cons.
           split; [ | tauto ]. intros [Heq | H]; [ | exact H ]. exfalso. lia.
        -- unfold row1. rewrite list_lookup_insert_ne by congruence. exact Hj.
Qed.

Lemma active_at_cons (r : Q) (c : string) (op : OpRecord) (ops : list OpRecord) (i : Z) :
  active_at r c (op :: ops) i
  = (bool_decide (category op = c)
     && (py_int (relative_start op / r) <=? i)%Z
     && (i <=? py_int (relative_end op / r))%Z
     || active_at r c ops i)%bool.
Proof. reflexivity. Qed.

Lemma stacked_op_loop (r : Q) (np : Z) (env : Env) (w : World) (ops : list OpRecord) :
  (0 < r)%Q →
  ∀ cd : gmap string (list Z),
  Forall (λ op, category op ∈ CATEGORIES ∧
                (0 <= relative_start op ∧ relative_start op <= relative_end op)%Q ∧
                (py_int (relative_end op / r) + 1 <= np)%Z) ops →
  (∀ c, c ∈ CATEGORIES → ∃ row, cd !! c = Some row ∧ length row = Z.to_nat np) →
  ∃ cd',
    for_each (stacked_op r np) ops cd env w = (Ok cd', w) ∧
    ∀ c row, c ∈ CATEGORIES → cd !! c = Some row →
      ∃ row', cd' !! c = Some row' ∧ length row' = length row ∧
              ∀ (j : nat) x, row !! j = Some x →
                row' !! j = Some (if active_at r c ops (Z.of_nat j) then 1%Z else x).
Proof.
  intros Hr. induction ops as [ | op ops IH ]; intros cd Hall Hrows.
  - exists cd. split; [ reflexivity | ]. intros c row _ Hc. exists row.
    split; [ exact Hc | split; [ reflexivity | ] ]. intros j x Hj. exact Hj.
  - inversion Hall as [ | ? ? (Hcat & [Hs Hse] & Hnp) Hrest ]; subst.
    destruct (Hrows _ Hcat) as (row0 & Hrow0 & Hlen0).
    destruct (py_int_index (relative_start op) (relative_end op) r Hr Hs Hse)
      as [Hlo Hhi].
    set (lo := py_int (relative_start op / r)) in *.
    set (hi := py_int (relative_end op / r)) in *.
    destruct (stacked_mark_loop (category op) env w (seqZ lo (hi + 1 - lo)) cd row0 Hrow0)
      as (row1 & Hrun1 & Hlen1 & Hlook1).
    { apply Forall_forall. intros i Hi%elem_of_seqZ. rewrite Hlen0. lia. }
    destruct (IH (<[category op := row1]> cd) Hrest) as (cd' & Hrun & Hlook).
    { intros c Hc. destruct (decide (category op = c)) as [<- | Hne].
      - exists row1. rewrite lookup_insert_eq. split; [ reflexivity | congruence ].
      - rewrite lookup_insert_ne by exact Hne. apply Hrows, Hc. }
    exists cd'. split.
    + cbn [for_each]. unfold bind at 1. unfold stacked_op at 1.
      rewrite !py_truediv_ok by lra. unfold lift, bind. fold lo hi.
      replace (Z.min (hi + 1) np) with (hi + 1)%Z by lia.
      rewrite Hrun1. exact Hrun.
    + intros c row Hc Hrow.
      destruct (decide (category op = c)) as [<- | Hne].
      * rewrite Hrow0 in Hrow. injection Hrow as <-.
        destruct (Hlook (category op) row1 Hcat) as (row' & Hrow' & Hlen' & Hlook').
        { apply lookup_insert_eq. }
        exists row'. split; [ exact Hrow' | split; [ congruence | ] ].
        intros j x Hj. rewrite (Hlook' j _ (Hlook1 j x Hj)). f_equal.
        rewrite active_at_cons.
        rewrite (bool_decide_eq_true_2 (category op = category op)) by reflexivity.
        fold lo hi. cbn [andb].
        destruct (bool_decide (Z.of_nat j ∈ seqZ lo (hi + 1 - lo))) eqn:E.
        -- apply bool_decide_eq_true_1 in E. apply elem_of_seqZ in E.
           replace (lo <=? Z.of_nat j)%Z with true by (symmetry; apply Z.leb_le; lia).
           replace (Z.of_nat j <=? hi)%Z with true by (symmetry; apply Z.leb_le; lia).
           cbn [andb orb]. destruct (active_at _ _ _ _); reflexivity.
        -- apply bool_decide_eq_false_1 in E. rewrite elem_of_seqZ in E.
           replace ((lo <=? Z.of_nat j)%Z && (Z.of_nat j <=? hi)%Z) with false.
           ++ reflexivity.
           ++ symmetry. apply andb_false_iff.
              destruct (Z.leb_spec lo (Z.of_nat j)); [ right | left; reflexivity ].
              apply Z.leb_gt. lia.
      * destruct (Hlook c row Hc) as (row' & Hrow' & Hlen' & Hlook').
        { rewrite lookup_insert_ne by exact Hne. exact Hrow. }
        exists row'. split; [ exact Hrow' | split; [ exact Hlen' | ] ].
        intros j x Hj. rewrite (Hlook' j x Hj). f_equal.
        rewrite active_at_cons.
        rewrite (bool_decide_eq_false_2 (category op = c)) by exact Hne. reflexivity.
Qed.

Lemma stacked_init_lookup (np : Z) (c : string) :
  c ∈ CATEGORIES →
  (list_to_map ((λ c, (c, replicate (Z.to_nat np) 0%Z)) <$> CATEGORIES)
     : gmap string (list Z)) !! c
  = Some (replicate (Z.to_nat np) 0%Z).
Proof.
  unfold CATEGORIES. rewrite !elem_of_cons, elem_of_nil.
  intros [-> | [-> | [-> | [-> | [-> | [-> | []]]]]]]; reflexivity.
Qed.

(** The relative timestamps of every record lie between [0] and the
    session duration as [get_stacked_timeline] computes it. *)
Lemma timed_relative (env : Env) (w : World) (t : Q) (r : OpRecord) :
  well_formed (inst w) → timed env w → start_time (inst w) = Some t →
  r ∈ operations (inst w) →
  (0 <= relative_start r ∧ relative_start r <= relative_end r ∧
   relative_end r <= clock env (ticks w) - t)%Q.
Proof.
  intros (_ & _ & _ & Hr & _) Ht Hst Hin.
  destruct (Hr r Hin) as (_ & Hd & Hs & He).
  destruct (Ht t Hst) as (H0 & Hrec & _). destruct (Hrec r Hin) as (H1 & H2 & H3).
  rewrite Hs, He, Hd, Hst. unfold relative_to, truthy.
  destruct (Qeq_bool t 0) eqn:E; simpl.
  - apply Qeq_bool_iff in E. repeat split; lra.
  - repeat split; lra.
Qed.

(** X14.  After every sequence of calls run under a monotone clock, with a
    session started and at least one completed record,
    [get_stacked_timeline] with a positive resolution returns, leaving the
    instance as it is: [num_points = int(session_duration / resolution) + 1]
    grid points [i * resolution], and for each of the six categories a
    row of that length whose entry [i] is [1] exactly when some completed
    record of the category has [int(relative_start / resolution) <= i
    <= int(relative_end / resolution)], and [0] otherwise.  No index is
    ever out of range. *)
Theorem stacked_timeline_marks (env : Env) (calls : list Call) (r t : Q) :
  monotone_clock env → (0 < r)%Q →
  let w := run_calls env calls in
  start_time (inst w) = Some t → operations (inst w) ≠ [] →
  let np := (py_int ((clock env (ticks w) - t) / r) + 1)%Z in
  ∃ st w',
    get_stacked_timeline r env w = (Ok st, w') ∧
    inst w' = inst w ∧
    (0 < np)%Z ∧
    time_points st = (λ i, inject_Z i * r)%Q <$> seqZ 0 np ∧
    ∀ c, c ∈ CATEGORIES →
      ∃ row, stacked_categories st !! c = Some row ∧
             length row = Z.to_nat np ∧
             ∀ j : nat, j < Z.to_nat np →
               row !! j = Some (if active_at r c (operations (inst w)) (Z.of_nat j)
                                then 1%Z else 0%Z).
Proof.
  intros Hmono Hr. cbv zeta.
  destruct (timed_run env Hmono calls) as [Hw Ht].
  set (w := run_calls env calls) in *.
  intros Hst Hne.
  set (np := (py_int ((clock env (ticks w) - t) / r) + 1)%Z).
  assert (Hsd : (0 <= clock env (ticks w) - t)%Q).
  { destruct (Ht t Hst) as (H0 & _). lra. }
  assert (Hnp : (0 < np)%Z).
  { destruct (py_int_index 0 (clock env (ticks w) - t) r Hr) as [_ H]; [ lra | lra | ].
    assert (Hz : py_int (0 / r) = 0%Z).
    { rewrite py_int_floor by (unfold Qdiv; nra).
      rewrite (Qfloor_comp (0 / r) 0) by (unfold Qdiv; ring). reflexivity. }
    unfold np. lia. }
  assert (Hops : Forall (λ op, category op ∈ CATEGORIES ∧
                   (0 <= relative_start op ∧ relative_start op <= relative_end op)%Q ∧
                   (py_int (relative_end op / r) + 1 <= np)%Z) (operations (inst w))).
  { apply Forall_forall. intros op Hin.
    destruct (timed_relative env w t op Hw Ht Hst Hin) as (H1 & H2 & H3).
    destruct Hw as (_ & _ & _ & Hrec & _).
    split; [ apply (Hrec op Hin) | ]. split; [ split; assumption | ].
    destruct (py_int_index (relative_end op) (clock env (ticks w) - t) r Hr) as [_ H];
      [ lra | exact H3 | ].
    unfold np. lia. }
  unfold get_stacked_timeline, with_lock, emit. cbn [fst snd inst ticks events].
  unfold bind at 1. unfold read_attr at 1. cbn [inst ticks events].
  destruct (operations (inst w)) as [ | o ops' ] eqn:Hlog; [ contradiction | ].
  rewrite <- Hlog in *.
  unfold bind at 1. unfold read_attr at 1. cbn [inst ticks events]. rewrite Hst.
  unfold bind at 1. unfold time_time at 1. cbn [inst ticks events].
  unfold bind at 1. rewrite py_truediv_ok by lra. unfold lift at 1.
  fold np. unfold bind at 1.
  match goal with
  | |- context [for_each ?body ?ops ?cd env ?w1] =>
      change (for_each body ops cd env w1) with (for_each (stacked_op r np) ops cd env w1);
      destruct (stacked_op_loop r np env w1 ops Hr cd Hops) as (cd' & Hrun & Hlook)
  end.
  { intros c Hc. eexists. split; [ apply stacked_init_lookup, Hc | apply length_replicate ]. }
  rewrite Hrun. unfold ret. cbn [fst snd inst ticks events].
  eexists _, _. split; [ reflexivity | ]. cbn [time_points stacked_categories inst].
  split; [ reflexivity | ]. split; [ exact Hnp | ]. split; [ reflexivity | ].
  intros c Hc.
  destruct (Hlook c _ Hc (stacked_init_lookup np c Hc)) as (row & Hrow & Hlen & Hval).
  exists row. split; [ exact Hrow | ]. rewrite length_replicate in Hlen.
  split; [ exact Hlen | ]. intros j Hj.
  apply Hval. apply lookup_replicate_2, Hj.
Qed.

(** The demo session on a grid of step 2: four points; [a] spans the
    indices 1 to 2, [b] the indices 2 to 3. *)
Lemma stacked_timeline_marks_witness :
  monotone_clock demo_env ∧ (0 < 2)%Q ∧
  start_time (inst (run_calls demo_env demo_calls)) = Some 100%Q ∧
  operations (inst (run_calls demo_env demo_calls)) ≠ [] ∧
  ∃ st w',
    get_stacked_timeline 2 demo_env (run_calls demo_env demo_calls) = (Ok st, w') ∧
    time_points st = [0; 2; 4; 6]%Q ∧
    stacked_categories st !! "llm_calls" = Some [0; 1; 1; 1]%Z ∧
    stacked_categories st !! "database_calls" = Some [0; 0; 0; 0]%Z.
Proof.
  assert (Hm : monotone_clock demo_env) by (apply linear_env_monotone; discriminate).
  assert (Hr : (0 < 2)%Q) by reflexivity.
  assert (Hst : start_time (inst (run_calls demo_env demo_calls)) = Some 100%Q)
    by reflexivity.
  assert (Hne : operations (inst (run_calls demo_env demo_calls)) ≠ []).
  { assert (Hl : length (operations (inst (run_calls demo_env demo_calls))) = 2)
      by reflexivity.
    intros H. rewrite H in Hl. discriminate. }
  split; [ exact Hm | split; [ exact Hr | split; [ exact Hst | split; [ exact Hne | ] ] ] ].
  destruct (stacked_timeline_marks demo_env demo_calls 2 100 Hm Hr Hst Hne)
    as (st & w' & Hrun & _).
  exists st, w'. split; [ exact Hrun | ].
  assert (Hx : fst (get_stacked_timeline 2 demo_env (run_calls demo_env demo_calls)) = Ok st)
    by (rewrite Hrun; reflexivity).
  assert (Hd : match fst (get_stacked_timeline 2 demo_env (run_calls demo_env demo_calls)) with
               | Ok x => Some (time_points x,
                               stacked_categories x !! "llm_calls",
                               stacked_categories x !! "database_calls")
               | Raise _ => None
               end = Some ([0; 2; 4; 6]%Q, Some [0; 1; 1; 1]%Z, Some [0; 0; 0; 0]%Z))
    by (vm_compute; reflexivity).
  rewrite Hx in Hd. injection Hd as H1 H2 H3.
  split; [ exact H1 | split; [ exact H2 | exact H3 ] ].
Defined.

(** X15.  The edges of [get_stacked_timeline], in any state: with an empty
    log or no session started it returns the empty result (no grid
    points, an empty row per category) without reading the clock; with a
    non-empty log, a session started and a resolution of [0] it raises
    [ZeroDivisionError], and the instance is left as it was. *)
Theorem stacked_timeline_edges (env : Env) (w : World) (r : Q) :
  (operations (inst w) = [] ∨ start_time (inst w) = None →
   fst (get_stacked_timeline r env w) = Ok empty_stacked ∧
   ticks (snd (get_stacked_timeline r env w)) = ticks w) ∧
  (operations (inst w) ≠ [] → is_Some (start_time (inst w)) → (r == 0)%Q →
   fst (get_stacked_timeline r env w) = Raise ZeroDivisionError ∧
   inst (snd (get_stacked_timeline r env w)) = inst w).
Proof.
  split.
  - intros H.
    assert (Hrun : ∃ w', get_stacked_timeline r env w = (Ok empty_stacked, w') ∧
                         ticks w' = ticks w).
    { unfold get_stacked_timeline, with_lock, emit. cbn [fst snd inst ticks events].
      unfold bind at 1. unfold read_attr at 1. cbn [inst ticks events].
      destruct H as [Hops | Hst].
      - rewrite Hops. eexists. split; reflexivity.
      - destruct (operations (inst w)); [ eexists; split; reflexivity | ].
        unfold bind at 1. unfold read_attr at 1. cbn [inst ticks events]. rewrite Hst.
        eexists. split; reflexivity. }
    destruct Hrun as (w' & -> & Hticks). split; [ reflexivity | exact Hticks ].
  - intros Hne [t Hst] Hz.
    assert (Hrun : ∃ w', get_stacked_timeline r env w = (Raise ZeroDivisionError, w') ∧
                         inst w' = inst w).
    { unfold get_stacked_timeline, with_lock, emit. cbn [fst snd inst ticks events].
      unfold bind at 1. unfold read_attr at 1. cbn [inst ticks events].
      destruct (operations (inst w)) as [ | o ops ]; [ contradiction | ].
      unfold bind at 1. unfold read_attr at 1. cbn [inst ticks events]. rewrite Hst.
      unfold bind at 1. unfold time_time at 1. cbn [inst ticks events].
      unfold bind at 1. unfold py_truediv.
      rewrite (proj2 (Qeq_bool_iff r 0) Hz). eexists. split; reflexivity. }
    destruct Hrun as (w' & -> & Hinst). split; [ reflexivity | exact Hinst ].
Qed.

(** ** The counts of the summary can be recomputed from the log *)

Lemma mk_stats_total (v1 v2 v3 v4 v5 v6 v7 : pynum) :
  mk_stats v1 v2 v3 v4 v5 v6 v7 !! "total_time" = Some v1.
Proof. reflexivity. Qed.

(** X16.  After every sequence of calls, the counts of the summary of
    [get_summary] agree with the log: [total_operations] is the number of
    completed records, and the [count] of every category is the number of
    completed records of that category. *)
Theorem summary_counts_from_log (env : Env) (calls : list Call) :
  ∃ s w',
    get_summary env (run_calls env calls) = (Ok s, w') ∧
    total_operations s = length (operations (inst (run_calls env calls))) ∧
    ∀ c, c ∈ CATEGORIES →
      stat s c "count"
      = Some (Num (inject_Z (Z.of_nat
          (length (category_ops c (operations (inst (run_calls env calls)))))))).
Proof.
  pose proof (well_formed_run env calls) as Hw.
  set (w := run_calls env calls) in *.
  assert (Hcount : count_inv (inst w)) by apply Hw.
  destruct (get_summary_returns env w) as (s & w' & Hrun & Hi & Hsd & Hn & Hcats).
  { intros c Hc. destruct (Hcount c Hc) as (agg & -> & _). eauto. }
  exists s, w'. split; [ exact Hrun | ]. split; [ exact Hn | ].
  intros c Hc. destruct (Hcount c Hc) as (agg & Hagg & Hlen).
  unfold stat. rewrite Hcats, decide_True, Hagg by exact Hc. simpl.
  unfold stats_of. destruct (decide (0 < count agg)) as [Hpos | Hz].
  - unfold nonzero_stats. rewrite mk_stats_count, Hlen. reflexivity.
  - unfold zero_stats. rewrite mk_stats_count.
    replace (length (category_ops c (operations (inst w)))) with 0 by lia.
    reflexivity.
Qed.

(** ** The entries of the timeline *)



(** ** The queries never write *)

(** X18.  In any state, and whether they return or raise, the queries
    [get_summary], [get_timeline_data], [get_stacked_timeline],
    [get_category_breakdown], [export_to_json] and [print_summary] leave
    every attribute of the instance as it was; the only thing they
    consume is clock readings. *)
Theorem queries_never_modify (env : Env) (w : World) (r : Q) :
  inst (snd (get_summary env w)) = inst w ∧
  inst (snd (get_timeline_data env w)) = inst w ∧
  inst (snd (get_stacked_timeline r env w)) = inst w ∧
  inst (snd (get_category_breakdown env w)) = inst w ∧
  inst (snd (export_to_json env w)) = inst w ∧
  inst (snd (print_summary env w)) = inst w.
Proof.
  refine (conj _ (conj _ (conj _ (conj _ (conj _ _))))).
  - apply read_only_get_summary.
  - apply read_only_get_timeline_data.
  - apply read_only_get_stacked_timeline.
  - apply read_only_get_category_breakdown.
  - apply read_only_export_to_json.
  - apply read_only_print_summary.
Qed.

(** ** Blocks that follow one another *)




Section Sequential.
Variable env : Env.
Hypothesis clock_mono : monotone_clock env.







End Sequential.




(** ** No unexpected exception *)

(** X20.  After every sequence of calls, whatever is called next: [reset],
    [start_session], [end_operation] (on any id), [get_summary],
    [get_timeline_data], [get_category_breakdown] and [print_summary]
    return without raising, and [start_operation] returns an id for every
    valid category; the [KeyError]s of the dictionary accesses and the
    [ZeroDivisionError]s of the divisions cannot occur.
    ([start_operation] with an invalid category raises [ValueError];
    [get_stacked_timeline] depends on its resolution, and
    [export_to_json] on the file it is to write.) *)
Theorem reachable_calls_do_not_raise (env : Env) (calls : list Call)
    (id cat name : string) (md : option Metadata) :
  let w := run_calls env calls in
  fst (reset env w) = Ok tt ∧
  fst (start_session env w) = Ok tt ∧
  (cat ∈ CATEGORIES → ∃ id', fst (start_operation cat name md env w) = Ok id') ∧
  (cat ∉ CATEGORIES → fst (start_operation cat name md env w) = Raise ValueError) ∧
  fst (end_operation id env w) = Ok tt ∧
  (∃ s, fst (get_summary env w) = Ok s) ∧
  (∃ tl, fst (get_timeline_data env w) = Ok tl) ∧
  (∃ bd, fst (get_category_breakdown env w) = Ok bd) ∧
  fst (print_summary env w) = Ok tt.
Proof.
  cbv zeta. pose proof (well_formed_run env calls) as Hw.
  set (w := run_calls env calls) in *.
  assert (Haggs : ∀ c, c ∈ CATEGORIES → is_Some (aggregates (inst w) !! c)).
  { intros c Hc. destruct Hw as (Hcount & _).
    destruct (Hcount c Hc) as (agg & -> & _). eauto. }
  destruct (get_summary_returns env w Haggs) as (s & w1 & Hsum & _).
  refine (conj _ (conj _ (conj _ (conj _ (conj _ (conj _ (conj _ (conj _ _)))))))).
  - apply reset_effect.
  - apply start_session_effect.
  - intros Hin. destruct (start_operation_valid env w cat name md Hin) as (id' & w' & ->).
    exists id'. reflexivity.
  - intros Hout. rewrite start_operation_invalid by exact Hout. reflexivity.
  - apply end_operation_ok, Hw.
  - exists s. rewrite Hsum. reflexivity.
  - destruct (timeline_data_returns env w) as (w' & -> & _). eexists. reflexivity.
  - destruct (breakdown_returns env w) as (bd & w' & -> & _).
    + intros r Hin. destruct Hw as (_ & _ & _ & Hr & _). apply (Hr r Hin).
    + exists bd. reflexivity.
  - unfold print_summary, bind. rewrite Hsum. reflexivity.
Qed.

(** ** The text summary reads a key the summary does not have *)

(** A statistics object that counts something. *)
Lemma print_category_busy (c : string) (st : Stats) (v t : pynum) (out : list Line) :
  st !! "count" = Some v → num_positive v = true →
  st !! "total_time" = Some t → st !! "percentage" = None →
  print_category c st out = (Raise (KeyError "percentage"), out ++ [LCategory c]).
Proof.
  intros Hc Hv Ht Hp. unfold print_category, pbind, plift, getitem, print.
  rewrite Hc, Hv, Ht, Hp. reflexivity.
Qed.

Lemma print_category_idle (c : string) (st : Stats) (v : pynum) (out : list Line) :
  st !! "count" = Some v → num_positive v = false →
  print_category c st out = (Ok tt, out).
Proof.
  intros Hc Hv. unfold print_category, pbind, plift, getitem.
  rewrite Hc, Hv. reflexivity.
Qed.

Lemma print_categories_spec (items : list (string * Stats)) (out : list Line) :
  Forall (λ item, ∃ v t, item.2 !! "count" = Some v ∧
                         item.2 !! "total_time" = Some t ∧
                         item.2 !! "percentage" = None) items →
  (Forall (λ item, ∀ v, item.2 !! "count" = Some v → num_positive v = false) items →
   print_categories items out = (Ok tt, out)) ∧
  (Exists (λ item, ∃ v, item.2 !! "count" = Some v ∧ num_positive v = true) items →
   ∃ item, item ∈ items ∧
           (∃ v, item.2 !! "count" = Some v ∧ num_positive v = true) ∧
           print_categories items out
           = (Raise (KeyError "percentage"), out ++ [LCategory item.1])).
Proof.
  induction 1 as [ | [c st] items (v & t & Hc & Ht & Hp) Hall IH ].
  - split; [ reflexivity | ]. intros H. apply Exists_nil in H. contradiction.
  - cbn [fst snd] in *. destruct (num_positive v) eqn:Hv.
    + split.
      * intros Hidle. inversion Hidle as [ | ? ? H0 _ ]; subst.
        specialize (H0 v Hc). congruence.
      * intros _. exists (c, st). split; [ left | ]. split; [ eauto | ].
        cbn [print_categories fst]. unfold pbind.
        rewrite (print_category_busy c st v t out Hc Hv Ht Hp). reflexivity.
    + assert (Hstep : print_categories ((c, st) :: items) out = print_categories items out).
      { cbn [print_categories]. unfold pbind.
        rewrite (print_category_idle c st v out Hc Hv). reflexivity. }
      rewrite Hstep. destruct IH as [IH1 IH2]. split.
      * intros Hidle. inversion Hidle; subst. apply IH1. assumption.
      * intros [(v' & Hc' & Hv') | Hex]%Exists_cons.
        -- cbn [snd] in Hc'. congruence.
        -- destruct (IH2 Hex) as (item & Hin & Hbusy & Hrun).
           exists item. split; [ right; exact Hin | ]. split; [ exact Hbusy | exact Hrun ].
Qed.

Lemma stats_of_fields (ops : list OpRecord) (sd : Q) (c : string) (agg : Agg) :
  ∃ v t, stats_of ops sd c agg !! "count" = Some v ∧
         stats_of ops sd c agg !! "total_time" = Some t ∧
         stats_of ops sd c agg !! "percentage" = None ∧
         num_positive v = bool_decide (0 < count agg).
Proof.
  unfold stats_of. destruct (decide (0 < count agg)) as [Hpos | Hz].
  - eexists _, _. unfold nonzero_stats.
    rewrite mk_stats_count, mk_stats_total, mk_stats_percentage.
    do 3 (split; [ reflexivity | ]).
    rewrite bool_decide_eq_true_2 by exact Hpos.
    cbn [num_positive]. apply Qlt_bool_true.
    change 0%Q with (inject_Z 0). rewrite <- Zlt_Qlt. lia.
  - eexists _, _. unfold zero_stats.
    rewrite mk_stats_count, mk_stats_total, mk_stats_percentage.
    do 3 (split; [ reflexivity | ]).
    rewrite bool_decide_eq_false_2 by exact Hz. reflexivity.
Qed.

(** X21.  [print_text_summary] of [visualize_metrics.py], run on the
    document [export_to_json] builds after any sequence of calls: with an
    empty log it prints its header, the session lines and its footer and
    returns; with at least one completed record it raises
    [KeyError('percentage')] right after printing the title line of a
    category that has a completed record, because the statistics objects
    of [get_summary] have no key [percentage]. *)
Theorem print_text_summary_needs_percentage (env : Env) (calls : list Call) :
  let w := run_calls env calls in
  ∃ x w',
    export_to_json env w = (Ok x, w') ∧
    (operations (inst w) = [] →
     print_text_summary x []
     = (Ok tt,
        [ LText (newline +:+ str_repeat "=" 80);
          LText "INSTRUMENTATION SUMMARY";
          LText (str_repeat "=" 80);
          LSessionStart (x_start_time x);
          LSessionDuration (session_duration (x_summary x));
          LTotalOperations 0;
          LText (newline +:+ "Category Breakdown:");
          LText (str_repeat "-" 80);
          LText (str_repeat "=" 80 +:+ newline) ])) ∧
    (operations (inst w) ≠ [] →
     ∃ out c,
       print_text_summary x [] = (Raise (KeyError "percentage"), out ++ [LCategory c]) ∧
       category_ops c (operations (inst w)) ≠ []).
Proof.
  cbv zeta. pose proof (well_formed_run env calls) as Hw.
  set (w := run_calls env calls) in *.
  destruct Hw as (Hcount & _ & _ & Hshape & _).
  destruct (export_returns env w)
    as (x & w' & Hrun & _ & _ & Hn & _ & _ & _ & _ & Hcats).
  { intros c Hc. destruct (Hcount c Hc) as (agg & -> & _). eauto. }
  exists x, w'. split; [ exact Hrun | ].
  set (items := py_sort (λ a b : string * Stats, String.ltb a.1 b.1)
                  (map_to_list (categories (x_summary x)))).
  assert (Hitem : ∀ c st, (c, st) ∈ items →
            c ∈ CATEGORIES ∧
            ∃ agg, aggregates (inst w) !! c = Some agg ∧
                   count agg = length (category_ops c (operations (inst w))) ∧
                   st = stats_of (operations (inst w))
                          (session_duration (x_summary x)) c agg).
  { intros c st Hin. unfold items in Hin. rewrite py_sort_perm in Hin.
    apply elem_of_map_to_list in Hin. rewrite Hcats in Hin.
    destruct (decide (c ∈ CATEGORIES)) as [Hc | Hc]; [ | discriminate ].
    split; [ exact Hc | ].
    destruct (Hcount c Hc) as (agg & Hagg & Hlen). rewrite Hagg in Hin.
    injection Hin as <-. eauto. }
  assert (Hfields : Forall (λ item, ∃ v t, item.2 !! "count" = Some v ∧
                                           item.2 !! "total_time" = Some t ∧
                                           item.2 !! "percentage" = None) items).
  { apply Forall_forall. intros [c st] Hin.
    destruct (Hitem c st Hin) as (_ & agg & _ & _ & ->). cbn [snd].
    destruct (stats_of_fields (operations (inst w)) (session_duration (x_summary x)) c agg)
      as (v & t & H1 & H2 & H3 & _). eauto. }
  split.
  - intros Hnil.
    assert (Hidle : Forall (λ item, ∀ v, item.2 !! "count" = Some v →
                                         num_positive v = false) items).
    { apply Forall_forall. intros [c st] Hin v Hv.
      destruct (Hitem c st Hin) as (_ & agg & _ & Hlen & ->). cbn [snd] in Hv.
      destruct (stats_of_fields (operations (inst w)) (session_duration (x_summary x)) c agg)
        as (v' & t & H1 & _ & _ & Hpos).
      rewrite H1 in Hv. injection Hv as <-. rewrite Hpos.
      apply bool_decide_eq_false_2. rewrite Hlen, Hnil. simpl. lia. }
    unfold print_text_summary. fold items.
    unfold pbind at 1 2 3 4 5 6 7 8. unfold print at 1 2 3 4 5 6 7 8. cbn [app].
    unfold pbind.
    rewrite (proj1 (print_categories_spec items _ Hfields) Hidle).
    unfold print. cbn [app]. rewrite Hn, Hnil. reflexivity.
  - intros Hne.
    destruct (operations (inst w)) as [ | r ops ] eqn:Hops; [ contradiction | ].
    rewrite <- Hops in *.
    assert (Hr : r ∈ operations (inst w)) by (rewrite Hops; left).
    destruct (Hshape r Hr) as (Hc & _).
    destruct (Hcount _ Hc) as (agg & Hagg & Hlen).
    assert (Hbusy : Exists (λ item, ∃ v, item.2 !! "count" = Some v ∧
                                         num_positive v = true) items).
    { apply Exists_exists.
      exists (category r, stats_of (operations (inst w))
                            (session_duration (x_summary x)) (category r) agg).
      split.
      - unfold items. rewrite py_sort_perm. apply elem_of_map_to_list.
        rewrite Hcats, decide_True, Hagg by exact Hc. reflexivity.
      - cbn [snd].
        destruct (stats_of_fields (operations (inst w)) (session_duration (x_summary x))
                    (category r) agg) as (v & t & H1 & _ & _ & Hpos).
        exists v. split; [ exact H1 | ]. rewrite Hpos.
        apply bool_decide_eq_true_2. rewrite Hlen.
        assert (Hin : r ∈ category_ops (category r) (operations (inst w))).
        { unfold category_ops. apply list_elem_of_filter. split; [ reflexivity | exact Hr ]. }
        destruct (category_ops (category r) (operations (inst w)));
          [ apply elem_of_nil in Hin; contradiction | simpl; lia ]. }
    unfold print_text_summary. fold items.
    unfold pbind at 1 2 3 4 5 6 7 8. unfold print at 1 2 3 4 5 6 7 8. cbn [app].
    unfold pbind.
    match goal with
    | |- context [print_categories items ?o] =>
        destruct (proj2 (print_categories_spec items o Hfields) Hbusy)
          as ([c st] & Hin & (v & Hv & Hpos) & Hprint)
    end.
    rewrite Hprint. cbn [fst].
    eexists _, c. split; [ reflexivity | ].
    destruct (Hitem c st Hin) as (_ & agg' & _ & Hlen' & ->). cbn [snd] in Hv.
    destruct (stats_of_fields (operations (inst w)) (session_duration (x_summary x)) c agg')
      as (v' & t & H1 & _ & _ & Hpos').
    rewrite H1 in Hv. injection Hv as <-. rewrite Hpos in Hpos'.
    symmetry in Hpos'. apply bool_decide_eq_true_1 in Hpos'.
    intros Hnil. rewrite Hlen', Hnil in Hpos'. simpl in Hpos'. lia.
Qed.

(** The demo session: the header and the title of [llm_calls] are printed,
    then the key is missed. *)
Example print_text_summary_of_demo :
  ∃ x w',
    export_to_json demo_env demo_world = (Ok x, w') ∧
    print_text_summary x []
    = (Raise (KeyError "percentage"),
       [ LText (newline +:+ str_repeat "=" 80);
         LText "INSTRUMENTATION SUMMARY";
         LText (str_repeat "=" 80);
         LSessionStart (Some "100/1");
         LSessionDuration 8;
         LTotalOperations 2;
         LText (newline +:+ "Category Breakdown:");
         LText (str_repeat "-" 80);
         LCategory "llm_calls" ]).
Proof.
  destruct (export_returns demo_env demo_world) as (x & w' & Hrun & _).
  { intros c Hc. destruct (well_formed_run demo_env demo_calls) as (Hcount & _).
    destruct (Hcount c Hc) as (agg & Hagg & _). unfold demo_world. rewrite Hagg. eauto. }
  exists x, w'. split; [ exact Hrun | ].
  assert (Hx : fst (export_to_json demo_env demo_world) = Ok x) by (rewrite Hrun; reflexivity).
  assert (Hd : match fst (export_to_json demo_env demo_world) with
               | Ok x0 => Some (print_text_summary x0 [])
               | Raise _ => None
               end
               = Some (Raise (KeyError "percentage"),
                       [ LText (newline +:+ str_repeat "=" 80);
                         LText "INSTRUMENTATION SUMMARY";
                         LText (str_repeat "=" 80);
                         LSessionStart (Some "100/1");
                         LSessionDuration 8;
                         LTotalOperations 2;
                         LText (newline +:+ "Category Breakdown:");
                         LText (str_repeat "-" 80);
                         LCategory "llm_calls" ])) by (vm_compute; reflexivity).
  rewrite Hx in Hd. injection Hd as Hd. exact Hd.
Qed.
